(** * CacheManager: the namespaced TTL cache of the game backend

    A shallow embedding of [backend/utils/cache.js] (class [CacheManager]),
    the wrapper that fronts one bounded expiring map per cache type and
    keeps per-type hit statistics.

    Layout of the development:
    - [JsValue]: the JavaScript values a cache can hold, with the
      fragments of [||], [+] and [===] the class uses;
    - [ExpiringMap]: the bounded expiring-map primitive the class builds
      on (the [node-cache] dependency, which is not part of the
      repository sources);
    - [CacheManager]: the class itself, method by method;
    - [Security]: the request filter of the security middleware, the
      caller of the rate-limit methods;
    - the properties, one section per subject. *)

From Stdlib Require Import ZArith Uint63 Floats Reals Lra.
From stdpp Require Import base gmap strings pretty list fin_maps.

Local Open Scope string_scope.
Local Open Scope Z_scope.

(* ===================================================================== *)
(** ** JavaScript values *)
(* ===================================================================== *)

(** The values that flow through the cache.  [JNum] stands for the
    integer-valued numbers of the safe range (magnitude at most 2^53),
    on which the double-precision [+ 1] of the source is exact; [JObj]
    is an object reference: the caches are built with [useClones: false],
    so a stored object is handed back as the very same reference. *)
Inductive JsValue : Type :=
  | JUndefined
  | JNull
  | JBool (b : bool)
  | JNum (n : Z)
  | JStr (s : string)
  | JObj (ref : nat).

#[global] Instance JsValue_eq_dec : EqDecision JsValue.
Proof. solve_decision. Defined.

(** ToBoolean. *)
Definition truthy (v : JsValue) : bool :=
  match v with
  | JUndefined | JNull => false
  | JBool b => b
  | JNum n => negb (Z.eqb n 0)
  | JStr s => negb (String.eqb s "")
  | JObj _ => true
  end.

(** [a || b]. *)
Definition js_or (a b : JsValue) : JsValue := if truthy a then a else b.

(** [v === undefined]. *)
Definition is_undefined (v : JsValue) : bool :=
  match v with JUndefined => true | _ => false end.

(** ToNumber on the primitives that have an integer image; strings and
    objects go through the string branch of [+] instead. *)
Definition to_number (v : JsValue) : option Z :=
  match v with
  | JNull => Some 0
  | JBool b => Some (if b then 1 else 0)
  | JNum n => Some n
  | _ => None
  end.

(** ToString for the operands of [+] that concatenate.  A plain object
    prints as [[object Object]]. *)
Definition to_string_concat (v : JsValue) : string :=
  match v with
  | JStr s => s
  | _ => "[object Object]"
  end.

(** [v + 1]: string concatenation when [v] is a string or an object,
    numeric addition otherwise ([undefined + 1] is NaN, which has no
    [JNum] image and is kept as [JUndefined]; the class never reaches
    that case because [undefined || 0] is [0]).  On a number the sum is
    that of the doubles for [|n| < 2^53], where it is exact; the
    properties of the counts below carry that bound. *)
Definition js_add_one (v : JsValue) : JsValue :=
  match v with
  | JStr _ | JObj _ => JStr (to_string_concat v +:+ "1")
  | JUndefined => JUndefined
  | _ => match to_number v with
         | Some n => JNum (n + 1)
         | None => JUndefined
         end
  end.

(** [key.includes(pattern)]: [pattern] occurs in [key] at some index. *)
Fixpoint includes (key pattern : string) : bool :=
  String.prefix pattern key ||
  match key with
  | EmptyString => false
  | String _ rest => includes rest pattern
  end.

(** Outcome of a method call: a returned value or a thrown exception. *)
Inductive JsError : Type :=
  | TypeError (msg : string).

Inductive Completion (A : Type) : Type :=
  | Return (a : A)
  | Throw (e : JsError).
Arguments Return {A} a.
Arguments Throw {A} e.

(* ===================================================================== *)
(** ** The expiring-map primitive *)
(* ===================================================================== *)

Module ExpiringMap.

(** Timestamps and durations are integers in one unit (seconds). *)
Record CacheEntry : Type := mkEntry {
  value : JsValue;
  expiresAt : Z
}.

Record t : Type := mkMap {
  entries : gmap string CacheEntry;
  defaultTTL : Z;
  maxEntries : Z;
  sweepInterval : Z;
  sweepTimer : bool
}.

Definition with_entries (es : gmap string CacheEntry) (m : t) : t :=
  {| entries := es;
     defaultTTL := defaultTTL m;
     maxEntries := maxEntries m;
     sweepInterval := sweepInterval m;
     sweepTimer := sweepTimer m |}.

(** Events the map emits to its listeners. *)
Inductive Event : Type :=
  | EvSet (key : string) (v : JsValue)
  | EvFlush.

(** Modelled from the spec: the constructor of the expiring map
    ([new NodeCache({stdTTL, checkperiod, maxKeys})], a dependency whose
    code is absent); an empty map with its sweep timer running. *)
Definition create (stdTTL checkperiod maxKeys : Z) : t :=
  {| entries := ∅;
     defaultTTL := stdTTL;
     maxEntries := maxKeys;
     sweepInterval := checkperiod;
     sweepTimer := true |}.

(** Modelled from the spec: [set(key, value, ttl?)] of the expiring map
    (absent dependency).  Inserts or replaces the entry with
    [expiresAt = now + (ttl ?? defaultTTL)]; inserting a new key when
    [size == maxEntries] fails and returns [false]; a successful call
    emits one [set] event. *)
Definition set (now : Z) (key : string) (v : JsValue) (ttl : option Z)
    (m : t) : t * bool * list Event :=
  match entries m !! key with
  | None =>
      if Z.of_nat (size (entries m)) =? maxEntries m
      then (m, false, [])
      else (with_entries
              (<[key := mkEntry v (now + default (defaultTTL m) ttl)]> (entries m)) m,
            true, [EvSet key v])
  | Some _ =>
      (with_entries
         (<[key := mkEntry v (now + default (defaultTTL m) ttl)]> (entries m)) m,
       true, [EvSet key v])
  end.

(** Modelled from the spec: [get(key)] of the expiring map (absent
    dependency).  A missing key, or one with [now >= expiresAt], is
    absent; an expired entry is physically removed. *)
Definition get (now : Z) (key : string) (m : t) : t * option JsValue :=
  match entries m !! key with
  | None => (m, None)
  | Some e =>
      if expiresAt e <=? now
      then (with_entries (delete key (entries m)) m, None)
      else (m, Some (value e))
  end.

(** Modelled from the spec: [delete(key)] of the expiring map (absent
    dependency); the count removed, 0 or 1. *)
Definition del (key : string) (m : t) : t * Z :=
  match entries m !! key with
  | None => (m, 0)
  | Some _ => (with_entries (delete key (entries m)) m, 1)
  end.

(** Modelled from the spec: [keys()] of the expiring map (absent
    dependency); a snapshot of the keys physically present. *)
Definition keys (m : t) : list string := (map_to_list (entries m)).*1.

(** Modelled from the spec: [flushAll()] of the expiring map (absent
    dependency); removes every entry and emits one [flush] event. *)
Definition flushAll (m : t) : t * list Event :=
  (with_entries ∅ m, [EvFlush]).

(** Modelled from the spec: the active sweep of the expiring map
    (absent dependency); evicts every entry with [expiresAt <= now],
    while the timer runs. *)
Definition sweep (now : Z) (m : t) : t :=
  if sweepTimer m
  then with_entries (filter (λ kv, now < expiresAt kv.2) (entries m)) m
  else m.

(** Modelled from the spec: [close()] of the expiring map (absent
    dependency), the one call [shutdown()] makes on each map.  The
    specification gives the maps no operation of this name; it says what
    the shutdown of the maps is: they are "torn down on graceful
    shutdown by halting sweep timers and releasing all entries" (data
    model, lifecycle), and [shutdown()] "stops all sweep timers and
    releases all ExpiringMaps" (operations).  Per map that is: the sweep
    timer is halted and the entries are released; the settings, which
    are "fixed at construction", stay. *)
Definition close (m : t) : t :=
  {| entries := ∅;
     defaultTTL := defaultTTL m;
     maxEntries := maxEntries m;
     sweepInterval := sweepInterval m;
     sweepTimer := false |}.

End ExpiringMap.

(* ===================================================================== *)
(** ** Number formatting: [Number.prototype.toFixed] on doubles *)
(* ===================================================================== *)

(** A statistics counter [0 <= n < 2^63], an integer-valued double, as a
    [float] (exactly so below 2^53). *)
Definition num (n : Z) : float := PrimFloat.of_uint63 (Uint63.of_Z n).

(** The integer [n] for which [n / 10^f - x] is as close to zero as
    possible, the larger one on a tie, for a finite [x >= 0]: the exact
    value [mx * 2^e] of the double is scaled and rounded half up. *)
Definition nearest_scaled (f : nat) (x : float) : Z :=
  match Prim2SF x with
  | S754_finite _ mx e =>
      let scaled := 10 ^ Z.of_nat f * Z.pos mx in
      if 0 <=? e then scaled * 2 ^ e
      else (2 * scaled + 2 ^ (- e)) / 2 ^ (- e + 1)
  | _ => 0
  end.

(** Steps 8 to 10 of [toFixed]: the decimal digits of [n], left-padded
    with zeros to [f + 1] characters, with the point before the last [f]. *)
Definition place_point (f : nat) (n : Z) : string :=
  let m := pretty n in
  let k := String.length m in
  let m := if bool_decide (k ≤ f)%nat
           then String.concat "" (replicate (f + 1 - k) "0") +:+ m
           else m in
  let k := String.length m in
  if bool_decide (f = 0)%nat then m
  else String.substring 0 (k - f) m +:+ "." +:+ String.substring (k - f) f m.

(** [x.toFixed(f)].  Magnitudes of 10^21 and more print through
    ToString in the language; that branch is outside what the cache
    produces (a hit rate is at most 100) and prints the digits alike. *)
Definition toFixed (f : nat) (x : float) : string :=
  match Prim2SF x with
  | S754_nan => "NaN"
  | S754_infinity s => if s then "-Infinity" else "Infinity"
  | S754_zero _ => place_point f 0
  | S754_finite s _ _ =>
      (if s then "-" else "") +:+ place_point f (nearest_scaled f x)
  end.

(* ===================================================================== *)
(** ** The cache manager *)
(* ===================================================================== *)

Module CacheManager.

(** The counters of one cache type: integer-valued doubles, on which
    [++] is exact below 2^53. *)
Record HitStats : Type := mkStats {
  hits : Z;
  misses : Z;
  sets : Z;
  deletes : Z;
  flushes : Z
}.

(** The property names [recordHit] is called with. *)
Inductive StatField : Type := Hits | Misses | Sets | Deletes | Flushes.

Inductive LogLevel : Type := LDebug | LInfo | LWarn | LError.

(** The instance: [this.caches], [this.hitStats], and the calls made
    on the logger so far (latest last). *)
Record t : Type := mkManager {
  caches : gmap string ExpiringMap.t;
  hitStats : gmap string HitStats;
  logged : list (LogLevel * string)
}.

(** Property order of the [this.caches] literal; the object never
    gains or loses a property, so this is [Object.keys(this.caches)]. *)
Definition cacheTypes : list string :=
  ["players"; "leaderboards"; "statistics"; "achievements";
   "sessions"; "api"; "blockchain"; "rateLimit"].

(** Properties every object literal inherits from [Object.prototype]:
    all are functions or objects, hence truthy, and none has a [get],
    [set] or [del] method. *)
Definition objectPrototypeKeys : list string :=
  ["constructor"; "hasOwnProperty"; "isPrototypeOf";
   "propertyIsEnumerable"; "toLocaleString"; "toString"; "valueOf";
   "__proto__"; "__defineGetter__"; "__defineSetter__";
   "__lookupGetter__"; "__lookupSetter__"].

(** What [this.caches[cacheType]] evaluates to. *)
Inductive Property : Type :=
  | OwnCache (c : ExpiringMap.t)
  | Inherited
  | NoProperty.

Definition lookupCache (cm : t) (cacheType : string) : Property :=
  match caches cm !! cacheType with
  | Some c => OwnCache c
  | None =>
      if bool_decide (cacheType ∈ objectPrototypeKeys)
      then Inherited else NoProperty
  end.

Definition with_caches (cs : gmap string ExpiringMap.t) (cm : t) : t :=
  {| caches := cs; hitStats := hitStats cm; logged := logged cm |}.

(** The cache objects are mutated in place: the map of [cacheType] is
    replaced by its new state. *)
Definition storeCache (cacheType : string) (c : ExpiringMap.t) (cm : t) : t :=
  with_caches (<[cacheType := c]> (caches cm)) cm.

Definition logger (lvl : LogLevel) (msg : string) (cm : t) : t :=
  {| caches := caches cm; hitStats := hitStats cm;
     logged := logged cm ++ [(lvl, msg)] |}.

Definition bump (f : StatField) (s : HitStats) : HitStats :=
  match f with
  | Hits => mkStats (hits s + 1) (misses s) (sets s) (deletes s) (flushes s)
  | Misses => mkStats (hits s) (misses s + 1) (sets s) (deletes s) (flushes s)
  | Sets => mkStats (hits s) (misses s) (sets s + 1) (deletes s) (flushes s)
  | Deletes => mkStats (hits s) (misses s) (sets s) (deletes s + 1) (flushes s)
  | Flushes => mkStats (hits s) (misses s) (sets s) (deletes s) (flushes s + 1)
  end.

(** [recordHit(cacheType, type)] *)
Definition recordHit (cacheType : string) (f : StatField) (cm : t) : t :=
  {| caches := caches cm;
     hitStats := alter (bump f) cacheType (hitStats cm);
     logged := logged cm |}.

(** The listeners of [setupEventHandlers], for the events the map
    emits; both only write to the log.  The listeners for [get], [del]
    and [expired] are registered too, but the map of the specification
    emits none of these events, so they never run. *)
Definition onEvent (cacheType : string) (ev : ExpiringMap.Event) (cm : t) : t :=
  match ev with
  | ExpiringMap.EvSet key _ =>
      logger LDebug ("Cache SET: " +:+ cacheType +:+ ":" +:+ key) cm
  | ExpiringMap.EvFlush =>
      logger LInfo ("Cache FLUSH: " +:+ cacheType) cm
  end.

Definition emit (cacheType : string) (evs : list ExpiringMap.Event) (cm : t) : t :=
  foldl (λ cm ev, onEvent cacheType ev cm) cm evs.

(** [setupStatsTracking()] *)
Definition setupStatsTracking (cm : t) : t :=
  {| caches := caches cm;
     hitStats := foldl (λ hs cacheType, <[cacheType := mkStats 0 0 0 0 0]> hs)
                       (hitStats cm) cacheTypes;
     logged := logged cm |}.

(** [constructor()]: the eight maps of the literal, then the counters
    ([setupEventHandlers] registers the listeners, here [onEvent]). *)
Definition constructor : t :=
  setupStatsTracking
    {| caches := list_to_map
         [("players", ExpiringMap.create 300 60 10000);
          ("leaderboards", ExpiringMap.create 600 120 100);
          ("statistics", ExpiringMap.create 900 180 200);
          ("achievements", ExpiringMap.create 1800 300 1000);
          ("sessions", ExpiringMap.create 180 30 5000);
          ("api", ExpiringMap.create 120 30 2000);
          ("blockchain", ExpiringMap.create 1200 240 500);
          ("rateLimit", ExpiringMap.create 3600 600 50000)];
       hitStats := ∅;
       logged := [] |}.

(** A method: a state transformer that returns or throws. *)
Definition M (A : Type) : Type := t → t * Completion A.

Definition bind {A B : Type} (c : M A) (k : A → M B) : M B :=
  λ cm, match c cm with
        | (cm', Return a) => k a cm'
        | (cm', Throw e) => (cm', Throw e)
        end.

Notation "'do' x <- c ; k" := (bind c (λ x, k))
  (at level 10, x name, c at level 100, k at level 200).

Definition notAFunction (method : string) : JsError :=
  TypeError ("this.caches[cacheType]." +:+ method +:+ " is not a function").

(** [get(cacheType, key)], called at time [now].  The map hands an
    absent key back as [undefined], the value the method tests for. *)
Definition get (now : Z) (cacheType key : string) : M JsValue :=
  λ cm,
  match lookupCache cm cacheType with
  | NoProperty =>
      (logger LWarn ("Invalid cache type: " +:+ cacheType) cm, Return JNull)
  | Inherited => (cm, Throw (notAFunction "get"))
  | OwnCache c =>
      let '(c', found) := ExpiringMap.get now key c in
      let value := default JUndefined found in
      let cm := storeCache cacheType c' cm in
      if is_undefined value
      then (recordHit cacheType Misses cm, Return JNull)
      else (recordHit cacheType Hits cm, Return value)
  end.

(** The condition [ttl ? .. : ..] on a number or [null]. *)
Definition ttl_truthy (ttl : option Z) : bool :=
  match ttl with
  | Some n => negb (Z.eqb n 0)
  | None => false
  end.

(** [set(cacheType, key, value, ttl = null)], called at time [now]. *)
Definition set (now : Z) (cacheType key : string) (value : JsValue)
    (ttl : option Z) : M bool :=
  λ cm,
  match lookupCache cm cacheType with
  | NoProperty =>
      (logger LWarn ("Invalid cache type: " +:+ cacheType) cm, Return false)
  | Inherited => (cm, Throw (notAFunction "set"))
  | OwnCache c =>
      let '(c', success, evs) :=
        if ttl_truthy ttl
        then ExpiringMap.set now key value ttl c
        else ExpiringMap.set now key value None c in
      let cm := emit cacheType evs (storeCache cacheType c' cm) in
      if success
      then (recordHit cacheType Sets cm, Return success)
      else (cm, Return success)
  end.

(** [del(cacheType, key)] *)
Definition del (cacheType key : string) : M Z :=
  λ cm,
  match lookupCache cm cacheType with
  | NoProperty =>
      (logger LWarn ("Invalid cache type: " +:+ cacheType) cm, Return 0)
  | Inherited => (cm, Throw (notAFunction "del"))
  | OwnCache c =>
      let '(c', deleted) := ExpiringMap.del key c in
      let cm := storeCache cacheType c' cm in
      if 0 <? deleted
      then (recordHit cacheType Deletes cm, Return deleted)
      else (cm, Return deleted)
  end.

(** [getRateLimit(identifier)] *)
Definition getRateLimit (now : Z) (identifier : string) : M JsValue :=
  get now "rateLimit" ("rate:" +:+ identifier).

(** [setRateLimit(identifier, count, ttl = null)] *)
Definition setRateLimit (now : Z) (identifier : string) (count : JsValue)
    (ttl : option Z) : M bool :=
  set now "rateLimit" ("rate:" +:+ identifier) count ttl.

(** The [ttl] argument of [incrementRateLimit]: left out, [null], or a
    number of seconds. *)
Inductive TtlArg : Type :=
  | TtlOmitted
  | TtlNull
  | TtlSeconds (n : Z).

(** The parameter default [ttl = 3600] replaces an argument that is
    left out, and only that. *)
Definition rateLimitTTL (ttl : TtlArg) : option Z :=
  match ttl with
  | TtlOmitted => Some 3600
  | TtlNull => None
  | TtlSeconds n => Some n
  end.

(** [incrementRateLimit(identifier, ttl = 3600)] *)
Definition incrementRateLimit (now : Z) (identifier : string)
    (ttl : TtlArg) : M bool :=
  do found <- getRateLimit now identifier;
  let current := js_or found (JNum 0) in
  setRateLimit now identifier (js_add_one current) (rateLimitTTL ttl).

(** [invalidateLeaderboards()] *)
Definition invalidateLeaderboards : M unit :=
  λ cm,
  match caches cm !! "leaderboards" with
  | Some c =>
      let '(c', evs) := ExpiringMap.flushAll c in
      let cm := emit "leaderboards" evs (storeCache "leaderboards" c' cm) in
      (recordHit "leaderboards" Flushes cm, Return ())
  | None => (cm, Throw (TypeError "Cannot read properties of undefined"))
  end.

(** The body of the [forEach] in [invalidatePattern]:
    [this.caches[cacheType].del(key)], result dropped. *)
Definition delDirect (cacheType : string) (cm : t) (key : string) : t :=
  with_caches (alter (λ c, (ExpiringMap.del key c).1) cacheType (caches cm)) cm.

(** [invalidatePattern(cacheType, pattern)] *)
Definition invalidatePattern (cacheType pattern : string) : M unit :=
  λ cm,
  match lookupCache cm cacheType with
  | NoProperty => (cm, Return ())
  | Inherited =>
      (* [Object.keys] exists, and rejects its missing argument *)
      if String.eqb cacheType "constructor"
      then (cm, Throw (TypeError "Cannot convert undefined or null to object"))
      else (cm, Throw (notAFunction "keys"))
  | OwnCache c =>
      let keys := ExpiringMap.keys c in
      let matchingKeys := List.filter (λ key, includes key pattern) keys in
      let cm := foldl (delDirect cacheType) cm matchingKeys in
      if (0 <? length matchingKeys)%nat
      then (logger LInfo ("Invalidated " +:+ pretty (length matchingKeys)
                          +:+ " cache entries matching pattern: " +:+ pattern) cm,
            Return ())
      else (cm, Return ())
  end.

(** One entry of the object [getStats()] returns ([stats], the map's
    own statistics object, is left out: the expiring map of the
    specification has no such operation). *)
Record CacheReport : Type := mkReport {
  keys : nat;
  report_hitStats : HitStats;
  hitRate : string
}.

(** The [hitRate] expression of [getStats]. *)
Definition hitRateOf (s : HitStats) : string :=
  if 0 <? hits s
  then toFixed 2 (PrimFloat.mul
                    (PrimFloat.div (num (hits s))
                                   (PrimFloat.add (num (hits s)) (num (misses s))))
                    (num 100)) +:+ "%"
  else "0%".

(** [getStats()] *)
Definition getStats (cm : t) : gmap string CacheReport :=
  foldl (λ stats cacheType,
           match caches cm !! cacheType, hitStats cm !! cacheType with
           | Some cache, Some hs =>
               <[cacheType := mkReport (length (ExpiringMap.keys cache)) hs
                                       (hitRateOf hs)]> stats
           | _, _ => stats
           end)
        ∅ cacheTypes.

(** [cleanup()] *)
Definition cleanup (cm : t) : t :=
  let flushOne cm cacheType :=
    match caches cm !! cacheType with
    | Some c =>
        let '(c', evs) := ExpiringMap.flushAll c in
        recordHit cacheType Flushes
          (emit cacheType evs (storeCache cacheType c' cm))
    | None => cm
    end in
  logger LInfo "Cache cleanup completed"
    (setupStatsTracking (foldl flushOne cm cacheTypes)).

(** [shutdown()] *)
Definition shutdown : M unit :=
  λ cm,
  let cm := foldl (λ cm cacheType,
                     with_caches (alter ExpiringMap.close cacheType (caches cm)) cm)
                  cm cacheTypes in
  (logger LInfo "Cache manager shutdown completed" cm, Return ()).

(* --------------------------------------------------------------------- *)
(** *** The typed accessors *)
(* --------------------------------------------------------------------- *)

(** The accessors build their key with a template literal from
    arguments that are strings at every call site; they are strings
    here.  A [ttl] that is left out is [null], as in [set]. *)

(** [getPlayer(walletAddress)] *)
Definition getPlayer (now : Z) (walletAddress : string) : M JsValue :=
  get now "players" ("player:" +:+ walletAddress).

(** [setPlayer(walletAddress, playerData, ttl = null)] *)
Definition setPlayer (now : Z) (walletAddress : string) (playerData : JsValue)
    (ttl : option Z) : M bool :=
  set now "players" ("player:" +:+ walletAddress) playerData ttl.

(** [invalidatePlayer(walletAddress)] *)
Definition invalidatePlayer (walletAddress : string) : M Z :=
  del "players" ("player:" +:+ walletAddress).

(** The [limit] argument of the leaderboard accessors: left out, a
    number (an integer of the safe range) or a string (a query
    parameter as the router hands it over). *)
Inductive LimitArg : Type :=
  | LimitOmitted
  | LimitNumber (n : Z)
  | LimitString (s : string).

(** [`${limit}`]: ToString of the argument. *)
Definition limitText (limit : LimitArg) : string :=
  match limit with
  | LimitOmitted => "undefined"
  | LimitNumber n => pretty n
  | LimitString s => s
  end.

(** [getLeaderboard(type, limit = 100)] *)
Definition getLeaderboard (now : Z) (type : string) (limit : LimitArg) : M JsValue :=
  let limit := match limit with LimitOmitted => LimitNumber 100 | _ => limit end in
  get now "leaderboards" ("leaderboard:" +:+ type +:+ ":" +:+ limitText limit).

(** [setLeaderboard(type, limit, data, ttl = null)] *)
Definition setLeaderboard (now : Z) (type : string) (limit : LimitArg)
    (data : JsValue) (ttl : option Z) : M bool :=
  set now "leaderboards" ("leaderboard:" +:+ type +:+ ":" +:+ limitText limit) data ttl.

(** [getGameStats()] *)
Definition getGameStats (now : Z) : M JsValue :=
  get now "statistics" "game_stats".

(** [setGameStats(stats, ttl = null)] *)
Definition setGameStats (now : Z) (stats : JsValue) (ttl : option Z) : M bool :=
  set now "statistics" "game_stats" stats ttl.

(** [getPlayerAchievements(walletAddress)] *)
Definition getPlayerAchievements (now : Z) (walletAddress : string) : M JsValue :=
  get now "achievements" ("achievements:" +:+ walletAddress).

(** [setPlayerAchievements(walletAddress, achievements, ttl = null)] *)
Definition setPlayerAchievements (now : Z) (walletAddress : string)
    (achievements : JsValue) (ttl : option Z) : M bool :=
  set now "achievements" ("achievements:" +:+ walletAddress) achievements ttl.

(** [getSession(sessionId)] *)
Definition getSession (now : Z) (sessionId : string) : M JsValue :=
  get now "sessions" ("session:" +:+ sessionId).

(** [setSession(sessionId, sessionData, ttl = null)] *)
Definition setSession (now : Z) (sessionId : string) (sessionData : JsValue)
    (ttl : option Z) : M bool :=
  set now "sessions" ("session:" +:+ sessionId) sessionData ttl.

(** [getAPIResponse(endpoint, params = '')]; [None] is a [params] that
    is left out. *)
Definition getAPIResponse (now : Z) (endpoint : string) (params : option string)
    : M JsValue :=
  let key := "api:" +:+ endpoint +:+ ":" +:+ default "" params in
  get now "api" key.

(** [setAPIResponse(endpoint, params, response, ttl = null)] *)
Definition setAPIResponse (now : Z) (endpoint params : string) (response : JsValue)
    (ttl : option Z) : M bool :=
  let key := "api:" +:+ endpoint +:+ ":" +:+ params in
  set now "api" key response ttl.

(** [getBlockchainData(key)] *)
Definition getBlockchainData (now : Z) (key : string) : M JsValue :=
  get now "blockchain" ("blockchain:" +:+ key).

(** [setBlockchainData(key, data, ttl = null)] *)
Definition setBlockchainData (now : Z) (key : string) (data : JsValue)
    (ttl : option Z) : M bool :=
  set now "blockchain" ("blockchain:" +:+ key) data ttl.

(* --------------------------------------------------------------------- *)
(** *** Cache warming *)
(* --------------------------------------------------------------------- *)

(** [try { body } catch (error) { handler }] *)
Definition try_catch {A : Type} (body : M A) (handler : JsError → M A) : M A :=
  λ cm, match body cm with
        | (cm', Return a) => (cm', Return a)
        | (cm', Throw e) => handler e cm'
        end.

(** [list.forEach(f)]: an exception of [f] ends the loop. *)
Fixpoint forEach {A : Type} (f : A → M unit) (l : list A) : M unit :=
  match l with
  | [] => λ cm, (cm, Return ())
  | x :: rest => do _ <- f x; forEach f rest
  end.

(** An element of the array a loader resolves to, as far as [warmCache]
    looks at it: its [key] property (a string, or [None] when the
    element has none) and its [value] property ([JUndefined] when the
    element has none). *)
Record WarmItem : Type := mkItem {
  item_key : option string;
  item_value : JsValue
}.

(** What [await dataLoader()] comes back with: an exception (the loader
    threw, or its promise was rejected), a value that is not an array, or
    an array.  An element that is [null] or [undefined] is [None]; every
    other element is read through its two properties. *)
Inductive Loaded : Type :=
  | LoaderFailed (e : JsError)
  | LoadedOther
  | LoadedArray (items : list (option WarmItem)).

(** [item.key && item.value] is truthy. *)
Definition usable (item : WarmItem) : bool :=
  match item_key item with
  | Some key => negb (String.eqb key "") && truthy (item_value item)
  | None => false
  end.

(** The callback of the [forEach] in [warmCache]. *)
Definition warmItem (now : Z) (cacheType : string) (item : option WarmItem) : M unit :=
  match item with
  | None =>
      λ cm, (cm, Throw (TypeError "Cannot read properties of undefined (reading 'key')"))
  | Some item =>
      if usable item
      then do _ <- set now cacheType (default "" (item_key item)) (item_value item) None;
           λ cm, (cm, Return ())
      else λ cm, (cm, Return ())
  end.

(** [warmCache(cacheType, dataLoader)], an [async] method, in its two
    synchronous halves.  The first runs at the call, up to the [await]:
    it writes one log line and starts the loader. *)
Definition warmCache_start (cacheType : string) (cm : t) : t :=
  logger LInfo ("Warming cache: " +:+ cacheType) cm.

(** The second half runs at time [now], when the loader has settled
    with [loaded], on the manager as the calls served in between have
    left it.  The promise of the method is fulfilled when it returns. *)
Definition warmCache_resume (now : Z) (cacheType : string) (loaded : Loaded)
    : M unit :=
  try_catch
    (do _ <- (match loaded with
              | LoaderFailed e => λ cm, (cm, Throw e)
              | LoadedOther => λ cm, (cm, Return ())
              | LoadedArray items => forEach (warmItem now cacheType) items
              end);
     λ cm, (logger LInfo ("Cache warming completed for: " +:+ cacheType) cm,
            Return ()))
    (λ _ cm, (logger LError ("Cache warming failed for " +:+ cacheType +:+ ":") cm,
              Return ())).

End CacheManager.

Import CacheManager.

(* ===================================================================== *)
(** ** The request filter of the security middleware *)
(* ===================================================================== *)

Module Security.

(** What [ipFilter] reads of the request: [req.ip],
    [req.get('User-Agent')] (absent: [None]) and [req.originalUrl]. *)
Record Request : Type := mkRequest {
  ip : string;
  userAgent : option string;
  originalUrl : string
}.

(** How the middleware ends: it hands the request on with [next()], or
    answers it with [res.status(status).json(body)]. *)
Inductive Outcome : Type :=
  | Next
  | Json (status : Z) (body : list (string * string)).

(** [logger.security(message, meta)], which is
    [logger.warn(message, {...meta, context: 'SECURITY'})]; the log keeps
    the level and the message. *)
Definition security (message : string) (cm : CacheManager.t) : CacheManager.t :=
  logger LWarn message cm.

(** [!userAgent || userAgent.length < 10] *)
Definition suspicious (userAgent : option string) : bool :=
  match userAgent with
  | None => true
  | Some ua => String.eqb ua "" || (String.length ua <? 10)%nat
  end.

(** [v > bound] for a number [bound].  A string or an object operand
    is first converted to a number from its text; that conversion is not
    part of this development, and the comparison is [None] for them. *)
Definition js_gt (v : JsValue) (bound : Z) : option bool :=
  match v with
  | JNum n => Some (bound <? n)
  | JBool b => Some (bound <? (if b then 1 else 0))
  | JNull => Some (bound <? 0)
  | JUndefined => Some false
  | JStr _ | JObj _ => None
  end.

(** [ipFilter(req, res, next)], called at time [now].  The result is
    [None] when the stored count is a string or an object (see
    [js_gt]). *)
Definition ipFilter (now : Z) (req : Request) : M (option Outcome) :=
  λ cm,
  let clientIP := ip req in
  let cm :=
    if suspicious (userAgent req)
    then security "Suspicious request - missing or short user agent" cm
    else cm in
  let requestKey := "requests:" +:+ clientIP in
  (do found <- getRateLimit now requestKey;
   let requestCount := js_or found (JNum 0) in
   match js_gt requestCount 1000 with
   | None => λ cm, (cm, Return None)
   | Some true =>
       λ cm, (security "Potential DoS attack detected" cm,
              Return (Some (Json 429
                [("error", "Too many requests from your IP address");
                 ("retryAfter", "1 hour")])))
   | Some false =>
       do _ <- incrementRateLimit now requestKey (TtlSeconds 3600);
       λ cm, (cm, Return (Some Next))
   end) cm.

End Security.

Import Security.

(* ===================================================================== *)
(** ** Vocabulary of the properties *)
(* ===================================================================== *)

(** The effective time to live of a [set] call: the argument when it is
    truthy, the default of the map otherwise. *)
Definition effectiveTTL (c : ExpiringMap.t) (ttl : option Z) : Z :=
  if ttl_truthy ttl then default (ExpiringMap.defaultTTL c) ttl
  else ExpiringMap.defaultTTL c.

(** A cache type filled with [n] distinct keys through [set], used to
    reach the capacity bound. *)
Definition fillKeys (n : nat) : list string :=
  (λ i : nat, "k" +:+ pretty i) <$> seq 0 n.

Definition fill (ct : string) (n : nat) (cm : CacheManager.t) : CacheManager.t :=
  foldl (λ cm key, (set 0 ct key (JNum 1) None cm).1) cm (fillKeys n).

(** The round trip as the specification words it, for every state: a
    configured cache type, any key, any value other than [undefined],
    an omitted or non-negative [ttl], and the [get] at the time of the
    [set]. *)
Definition set_then_get_returns_value_always : Prop :=
  ∀ now cm ct key value ttl,
    is_Some (caches cm !! ct) →
    (∀ c, caches cm !! ct = Some c → 0 < ExpiringMap.defaultTTL c) →
    (∀ n, ttl = Some n → 0 ≤ n) →
    value ≠ JUndefined →
    (bind (set now ct key value ttl) (λ _, get now ct key) cm).2 = Return value.

(** The [leaderboards] cache after 100 distinct keys were set. *)
Definition fullLeaderboards : CacheManager.t := fill "leaderboards" 100 constructor.

Definition cacheOf (ct : string) (cm : CacheManager.t) : ExpiringMap.t :=
  default (ExpiringMap.create 0 0 0) (caches cm !! ct).

(** The result of [get] as a presence flag: whenever one manager holds
    a live entry under the key and another holds none, the two results
    differ. *)
Definition get_result_tells_presence : Prop :=
  ∀ now ct key cmHit cmMiss cHit cMiss e,
    caches cmHit !! ct = Some cHit →
    ExpiringMap.entries cHit !! key = Some e →
    now < ExpiringMap.expiresAt e →
    caches cmMiss !! ct = Some cMiss →
    ExpiringMap.entries cMiss !! key = None →
    (get now ct key cmHit).2 ≠ (get now ct key cmMiss).2.

(** Plain substring containment. *)
Definition contains (key sub : string) : Prop :=
  ∃ pre post, key = pre +:+ sub +:+ post.

(** What [get] returns for a key, read off the entry stored under it. *)
Definition visible (now : Z) (entry : option ExpiringMap.CacheEntry) : JsValue :=
  match entry with
  | Some e =>
      if ExpiringMap.expiresAt e <=? now then JNull
      else if is_undefined (ExpiringMap.value e) then JNull
           else ExpiringMap.value e
  | None => JNull
  end.

(** Two player keys and one session key in one cache type: the pattern
    ["wallet123"] removes the first two only. *)
Definition threeKeys : CacheManager.t :=
  foldl (λ cm key, (set 0 "api" key (JStr key) None cm).1) constructor
        ["api:player:wallet123"; "api:stats:wallet123:7"; "api:player:wallet9"].

(** The key [`rate:${identifier}`]. *)
Definition rateKey (identifier : string) : string := "rate:" +:+ identifier.

(** The count an identifier has at time [now]: the live stored number,
    0 when nothing live is stored; no count when something else is. *)
Definition previousCount (now : Z) (c : ExpiringMap.t) (key : string) : option Z :=
  match (ExpiringMap.get now key c).2 with
  | None => Some 0
  | Some (JNum n) => Some n
  | Some _ => None
  end.

(** A method result as the JavaScript value the caller receives. *)
Definition resultValue (r : Completion bool) : Completion JsValue :=
  match r with
  | Return b => Return (JBool b)
  | Throw e => Throw e
  end.

(** The value stored for an identifier. *)
Definition storedCount (cm : CacheManager.t) (identifier : string) : option JsValue :=
  ExpiringMap.value <$>
    (ExpiringMap.entries (cacheOf "rateLimit" cm) !! rateKey identifier).

(** The result of [incrementRateLimit] as the specification words it:
    the successor of the previous count is stored, and it is the value
    the caller receives. *)
Definition incrementRateLimit_returns_new_count : Prop :=
  ∀ now identifier ttl cm c prev,
    caches cm !! "rateLimit" = Some c →
    previousCount now c (rateKey identifier) = Some prev →
    Z.abs prev < 2 ^ 53 →
    Z.of_nat (size (ExpiringMap.entries c)) ≤ ExpiringMap.maxEntries c →
    (ExpiringMap.entries c !! rateKey identifier = None →
     Z.of_nat (size (ExpiringMap.entries c)) < ExpiringMap.maxEntries c) →
    storedCount (incrementRateLimit now identifier ttl cm).1 identifier
      = Some (JNum (prev + 1))
    ∧ resultValue (incrementRateLimit now identifier ttl cm).2
      = Return (JNum (prev + 1)).

(** [incrementRateLimit] is synchronous: it has no [await] and takes no
    callback, so the event loop runs every call to completion before
    it starts another.  N callers that are pending at once are
    therefore served as N calls one after the other, in an order and
    at times the scheduler picks; [times] lists the time of each call
    in the order served.  The callers pass the same identifier and
    [ttl], so the order among them is immaterial. *)
Fixpoint serveAll (identifier : string) (ttl : TtlArg) (times : list Z)
    (cm : CacheManager.t) : CacheManager.t * list (Completion bool) :=
  match times with
  | [] => (cm, [])
  | now :: later =>
      let '(cm1, r) := incrementRateLimit now identifier ttl cm in
      let '(cm2, rs) := serveAll identifier ttl later cm1 in
      (cm2, r :: rs)
  end.

(** The state of the count while the callers are served within one
    time-to-live window starting at [t0]: [served] calls are recorded
    in an entry that outlives the window (none yet, with room for it,
    when [served] is 0). *)
Definition counting (identifier : string) (ttl : TtlArg) (t0 dflt : Z)
    (served : Z) (c : ExpiringMap.t) : Prop :=
  ExpiringMap.defaultTTL c = dflt
  ∧ Z.of_nat (size (ExpiringMap.entries c)) ≤ ExpiringMap.maxEntries c
  ∧ ((served = 0
      ∧ ExpiringMap.entries c !! rateKey identifier = None
      ∧ Z.of_nat (size (ExpiringMap.entries c)) < ExpiringMap.maxEntries c)
     ∨ (∃ ex, ExpiringMap.entries c !! rateKey identifier
                = Some (ExpiringMap.mkEntry (JNum served) ex)
              ∧ t0 + effectiveTTL c (rateLimitTTL ttl) ≤ ex)).

(** The count after N concurrent callers as the specification words
    it, for every state: an identifier that is not stored yet, N ≥ 1
    calls served within one time-to-live window, N in the safe range. *)
Definition concurrent_increments_always_count : Prop :=
  ∀ cm c identifier ttl t0 times,
    caches cm !! "rateLimit" = Some c →
    ExpiringMap.entries c !! rateKey identifier = None →
    Z.of_nat (size (ExpiringMap.entries c)) ≤ ExpiringMap.maxEntries c →
    Forall (λ now, t0 ≤ now < t0 + effectiveTTL c (rateLimitTTL ttl)) times →
    times ≠ [] →
    Z.of_nat (length times) < 2 ^ 53 →
    storedCount (serveAll identifier ttl times cm).1 identifier
      = Some (JNum (Z.of_nat (length times))).

(** The [rateLimit] cache after 50000 distinct keys were set. *)
Definition fullRateLimit : CacheManager.t :=
  fill "rateLimit" (Z.to_nat 50000) constructor.




(** The double [hits / (hits + misses) * 100] of the [hitRate]
    expression. *)
Definition rateFloat (h m : Z) : float :=
  PrimFloat.mul (PrimFloat.div (num h) (PrimFloat.add (num h) (num m))) (num 100).

(** The power [2^e] as a real number, for an exponent of either sign. *)
Definition pow2 (e : Z) : R := powerRZ 2 e.

(** The real number a finite double stands for. *)
Definition valueOf (m : positive) (e : Z) : R := (IZR (Z.pos m) * pow2 e)%R.

(** The unit roundoff of the 1-ulp bounds, 2^-52. *)
Definition ulp52 : R := (/ 4503599627370496)%R.

(** The entry [getStats] builds for one cache type. *)
Definition reportOf (cm : CacheManager.t) (cacheType : string)
    (stats : gmap string CacheReport) : gmap string CacheReport :=
  match caches cm !! cacheType, hitStats cm !! cacheType with
  | Some cache, Some hs =>
      <[cacheType := mkReport (length (ExpiringMap.keys cache)) hs (hitRateOf hs)]> stats
  | _, _ => stats
  end.

(** Three hits and one miss on the [players] cache of a fresh manager. *)
Definition threeHitsOneMiss : CacheManager.t :=
  foldl (λ cm key, (get 1 "players" key cm).1)
        (set 0 "players" "player:a" (JObj 1) None constructor).1
        ["player:a"; "player:b"; "player:a"; "player:a"].

(* --------------------------------------------------------------------- *)
(** *** Clients of the module and the states they can reach *)
(* --------------------------------------------------------------------- *)

(** One step of the exported instance: a call a client makes, or the
    sweep timer of one of the maps firing.  The typed accessors are
    [CallGet], [CallSet] and [CallDel] on their cache type and key; the
    two halves of [warmCache] are separate steps, since other calls are
    served between them; the methods that only read ([getStats],
    [getMemoryUsage], [healthCheck]) change nothing and are left out. *)
Inductive Call : Type :=
  | CallGet (now : Z) (cacheType key : string)
  | CallSet (now : Z) (cacheType key : string) (value : JsValue) (ttl : option Z)
  | CallDel (cacheType key : string)
  | CallIncrementRateLimit (now : Z) (identifier : string) (ttl : TtlArg)
  | CallInvalidateLeaderboards
  | CallInvalidatePattern (cacheType pattern : string)
  | CallWarmCacheStart (cacheType : string)
  | CallWarmCacheResume (now : Z) (cacheType : string) (loaded : Loaded)
  | CallIpFilter (now : Z) (req : Request)
  | CallCleanup
  | CallShutdown
  | TimerSweep (now : Z) (cacheType : string).

(** A call with its result dropped. *)
Definition void {A : Type} (c : M A) : M unit :=
  do _ <- c; λ cm, (cm, Return ()).

(** What a step does to the manager; for a call, with the exception it
    may throw. *)
Definition run (call : Call) : M unit :=
  match call with
  | CallGet now cacheType key => void (get now cacheType key)
  | CallSet now cacheType key value ttl => void (set now cacheType key value ttl)
  | CallDel cacheType key => void (del cacheType key)
  | CallIncrementRateLimit now identifier ttl =>
      void (incrementRateLimit now identifier ttl)
  | CallInvalidateLeaderboards => invalidateLeaderboards
  | CallInvalidatePattern cacheType pattern => invalidatePattern cacheType pattern
  | CallWarmCacheStart cacheType => λ cm, (warmCache_start cacheType cm, Return ())
  | CallWarmCacheResume now cacheType loaded => warmCache_resume now cacheType loaded
  | CallIpFilter now req => void (ipFilter now req)
  | CallCleanup => λ cm, (cleanup cm, Return ())
  | CallShutdown => shutdown
  | TimerSweep now cacheType =>
      λ cm, (with_caches (alter (ExpiringMap.sweep now) cacheType (caches cm)) cm,
             Return ())
  end.

(** The states of the exported instance: what a sequence of steps makes
    of the freshly constructed manager.  A call that throws leaves the
    manager as it was when the exception was raised. *)
Definition reachable (cm : CacheManager.t) : Prop :=
  ∃ calls, cm = foldl (λ cm call, (run call cm).1) constructor calls.


(** A map that still has the settings [c0] was created with, and holds
    no more entries than they allow. *)
Definition configured (c0 c : ExpiringMap.t) : Prop :=
  ExpiringMap.defaultTTL c = ExpiringMap.defaultTTL c0
  ∧ ExpiringMap.maxEntries c = ExpiringMap.maxEntries c0
  ∧ ExpiringMap.sweepInterval c = ExpiringMap.sweepInterval c0
  ∧ Z.of_nat (size (ExpiringMap.entries c)) ≤ ExpiringMap.maxEntries c.

(** No counter is below 0. *)
Definition nonNegative (hs : HitStats) : Prop :=
  0 ≤ hits hs ∧ 0 ≤ misses hs ∧ 0 ≤ sets hs ∧ 0 ≤ deletes hs ∧ 0 ≤ flushes hs.

(** The shape of [this.caches]: the properties of the literal, each a
    map with its settings. *)
Definition cachesShape (cs : gmap string ExpiringMap.t) : Prop :=
  ∀ ct, match caches constructor !! ct, cs !! ct with
        | Some c0, Some c => configured c0 c
        | None, None => True
        | _, _ => False
        end.

(** The shape of [this.hitStats]: counters for the cache types, and for
    nothing else. *)
Definition statsShape (hs : gmap string HitStats) : Prop :=
  ∀ ct, match hs !! ct with
        | Some s => ct ∈ cacheTypes ∧ nonNegative s
        | None => ct ∉ cacheTypes
        end.

(** What every step keeps. *)
Definition invariant (cm : CacheManager.t) : Prop :=
  cachesShape (caches cm) ∧ statsShape (hitStats cm).

(** A method that keeps the invariant, whether it returns or throws. *)
Definition preserves {A : Type} (m : M A) : Prop :=
  ∀ cm, invariant cm → invariant (m cm).1.

(** The entry is live at [now] and holds a value. *)
Definition liveValue (now : Z) (entry : option ExpiringMap.CacheEntry) : Prop :=
  ∃ e, entry = Some e ∧ now < ExpiringMap.expiresAt e
       ∧ ExpiringMap.value e ≠ JUndefined.

(** A getter of the class with the setter it is paired with. *)
Inductive Accessor : Type :=
  | Player (walletAddress : string)
  | Leaderboard (type : string) (limit : LimitArg)
  | GameStats
  | PlayerAchievements (walletAddress : string)
  | Session (sessionId : string)
  | APIResponse (endpoint params : string)
  | BlockchainData (key : string)
  | RateLimit (identifier : string).

(** The getter of an accessor pair, and its setter. *)
Definition getter (now : Z) (a : Accessor) : M JsValue :=
  match a with
  | Player walletAddress => getPlayer now walletAddress
  | Leaderboard type limit => getLeaderboard now type limit
  | GameStats => getGameStats now
  | PlayerAchievements walletAddress => getPlayerAchievements now walletAddress
  | Session sessionId => getSession now sessionId
  | APIResponse endpoint params => getAPIResponse now endpoint (Some params)
  | BlockchainData key => getBlockchainData now key
  | RateLimit identifier => getRateLimit now identifier
  end.

Definition setter (now : Z) (a : Accessor) (value : JsValue) (ttl : option Z)
    : M bool :=
  match a with
  | Player walletAddress => setPlayer now walletAddress value ttl
  | Leaderboard type limit => setLeaderboard now type limit value ttl
  | GameStats => setGameStats now value ttl
  | PlayerAchievements walletAddress => setPlayerAchievements now walletAddress value ttl
  | Session sessionId => setSession now sessionId value ttl
  | APIResponse endpoint params => setAPIResponse now endpoint params value ttl
  | BlockchainData key => setBlockchainData now key value ttl
  | RateLimit identifier => setRateLimit now identifier value ttl
  end.

(** The cache type an accessor pair works on. *)
Definition cacheTypeOf (a : Accessor) : string :=
  match a with
  | Player _ => "players"
  | Leaderboard _ _ => "leaderboards"
  | GameStats => "statistics"
  | PlayerAchievements _ => "achievements"
  | Session _ => "sessions"
  | APIResponse _ _ => "api"
  | BlockchainData _ => "blockchain"
  | RateLimit _ => "rateLimit"
  end.

(** The identifier [ipFilter] counts a client under. *)
Definition requestKey (clientIP : string) : string := "requests:" +:+ clientIP.

(** The answer of [ipFilter] to a client over the limit. *)
Definition tooManyRequests : Outcome :=
  Json 429 [("error", "Too many requests from your IP address");
            ("retryAfter", "1 hour")].

(** Requests served one after the other, each at its time. *)
Fixpoint serveRequests (reqs : list (Z * Request)) (cm : CacheManager.t)
    : CacheManager.t * list (Completion (option Outcome)) :=
  match reqs with
  | [] => (cm, [])
  | (now, req) :: later =>
      let '(cm1, r) := ipFilter now req cm in
      let '(cm2, rs) := serveRequests later cm1 in
      (cm2, r :: rs)
  end.

(** The items of a loader's array that [warmCache] stores. *)
Definition usableItems (items : list (option WarmItem)) : list (option WarmItem) :=
  List.filter (λ item, match item with
                       | Some it => usable it
                       | None => true
                       end) items.

(* ===================================================================== *)
(** ** Frame lemmas: what each helper leaves alone *)
(* ===================================================================== *)

Section Frames.
Implicit Types (cm : CacheManager.t) (c : ExpiringMap.t).

Lemma caches_logger lvl msg cm : caches (logger lvl msg cm) = caches cm.
Proof. reflexivity. Qed.

Lemma hitStats_logger lvl msg cm : hitStats (logger lvl msg cm) = hitStats cm.
Proof. reflexivity. Qed.

Lemma caches_recordHit ct f cm : caches (recordHit ct f cm) = caches cm.
Proof. reflexivity. Qed.

Lemma caches_emit ct evs cm : caches (emit ct evs cm) = caches cm.
Proof.
  unfold emit. revert cm. induction evs as [|ev evs IH]; intros cm; [done|].
  cbn. rewrite IH. by destruct ev.
Qed.

Lemma hitStats_emit ct evs cm : hitStats (emit ct evs cm) = hitStats cm.
Proof.
  unfold emit. revert cm. induction evs as [|ev evs IH]; intros cm; [done|].
  cbn. rewrite IH. by destruct ev.
Qed.

Lemma caches_storeCache ct c cm :
  caches (storeCache ct c cm) = <[ct := c]> (caches cm).
Proof. reflexivity. Qed.

Lemma hitStats_storeCache ct c cm :
  hitStats (storeCache ct c cm) = hitStats cm.
Proof. reflexivity. Qed.

Lemma lookupCache_own cm ct c :
  caches cm !! ct = Some c → lookupCache cm ct = OwnCache c.
Proof. unfold lookupCache. by intros ->. Qed.

Lemma lookupCache_unknown cm ct :
  caches cm !! ct = None → ct ∉ objectPrototypeKeys →
  lookupCache cm ct = NoProperty.
Proof.
  unfold lookupCache. intros -> Hn. by rewrite bool_decide_eq_false_2.
Qed.


(** Storing back the map that is already there changes nothing. *)
Lemma storeCache_same cm ct c :
  caches cm !! ct = Some c → storeCache ct c cm = cm.
Proof.
  intros H. destruct cm as [cs hs lg]. unfold storeCache, with_caches. cbn in *.
  by rewrite insert_id.
Qed.

End Frames.

Lemma effectiveTTL_pos c ttl :
  0 < ExpiringMap.defaultTTL c → (∀ n, ttl = Some n → 0 ≤ n) →
  0 < effectiveTTL c ttl.
Proof.
  intros Hd Hn. unfold effectiveTTL, ttl_truthy.
  destruct ttl as [n|]; [|done].
  destruct (Z.eqb_spec n 0); cbn; [done|]. specialize (Hn n eq_refl). lia.
Qed.

(** [set] on a configured cache type, in one equation. *)
Lemma set_own now ct key v ttl cm c :
  caches cm !! ct = Some c →
  set now ct key v ttl cm =
    let '(c', success, evs) := ExpiringMap.set now key v
                                 (if ttl_truthy ttl then ttl else None) c in
    let cm' := emit ct evs (storeCache ct c' cm) in
    if success then (recordHit ct Sets cm', Return success)
    else (cm', Return success).
Proof.
  intros H. unfold set. rewrite (lookupCache_own _ _ _ H).
  by destruct (ttl_truthy ttl).
Qed.

(** The entry a successful [ExpiringMap.set] leaves under the key. *)
Lemma ExpiringMap_set_true now key v ttl c c' evs :
  ExpiringMap.set now key v ttl c = (c', true, evs) →
  ExpiringMap.entries c' !! key
    = Some (ExpiringMap.mkEntry v (now + default (ExpiringMap.defaultTTL c) ttl))
  ∧ (∀ k, k ≠ key → ExpiringMap.entries c' !! k = ExpiringMap.entries c !! k)
  ∧ ExpiringMap.defaultTTL c' = ExpiringMap.defaultTTL c
  ∧ ExpiringMap.maxEntries c' = ExpiringMap.maxEntries c.
Proof.
  unfold ExpiringMap.set.
  destruct (ExpiringMap.entries c !! key) eqn:Hk;
    [|destruct (Z.of_nat (size (ExpiringMap.entries c)) =? ExpiringMap.maxEntries c)];
    intros [= <- <-]; cbn;
    (split; [by rewrite lookup_insert_eq|]);
    (split; [intros k Hne; by rewrite lookup_insert_ne|done]).
Qed.

(** [ExpiringMap.set] fails exactly on a new key in a full map, and then
    leaves the map as it was. *)
Lemma ExpiringMap_set_false now key v ttl c c' evs :
  ExpiringMap.set now key v ttl c = (c', false, evs) ↔
  ExpiringMap.entries c !! key = None
  ∧ Z.of_nat (size (ExpiringMap.entries c)) = ExpiringMap.maxEntries c
  ∧ c' = c ∧ evs = [].
Proof.
  unfold ExpiringMap.set. split.
  - destruct (ExpiringMap.entries c !! key) eqn:Hk; [intros [=]|].
    destruct (Z.eqb_spec (Z.of_nat (size (ExpiringMap.entries c)))
                         (ExpiringMap.maxEntries c)); intros [=]; subst; done.
  - intros (-> & Hs & -> & ->).
    by rewrite (proj2 (Z.eqb_eq _ _) Hs).
Qed.

Lemma get_own now ct key cm c :
  caches cm !! ct = Some c →
  get now ct key cm =
    let '(c', found) := ExpiringMap.get now key c in
    let cm' := storeCache ct c' cm in
    if is_undefined (default JUndefined found)
    then (recordHit ct Misses cm', Return JNull)
    else (recordHit ct Hits cm', Return (default JUndefined found)).
Proof. intros H. unfold get. by rewrite (lookupCache_own _ _ _ H). Qed.

(** An entry that has not reached its expiry is found, and the map is
    left as it was. *)
Lemma ExpiringMap_get_live now key c e :
  ExpiringMap.entries c !! key = Some e → now < ExpiringMap.expiresAt e →
  ExpiringMap.get now key c = (c, Some (ExpiringMap.value e)).
Proof.
  intros He Hlt. unfold ExpiringMap.get. rewrite He.
  destruct (Z.leb_spec (ExpiringMap.expiresAt e) now); [lia|done].
Qed.

Lemma ExpiringMap_get_absent now key c :
  ExpiringMap.entries c !! key = None → ExpiringMap.get now key c = (c, None).
Proof. intros He. unfold ExpiringMap.get. by rewrite He. Qed.

(* ===================================================================== *)
(** ** Round trip: [set] then [get] *)
(* ===================================================================== *)

(** On the [leaderboards] cache filled to its 100 keys, a [set] of a
    new key is refused and the [get] that follows finds nothing. *)
Lemma set_then_get_fails_when_full : ¬ set_then_get_returns_value_always.
Proof.
  intros H.
  specialize (H 0 (fill "leaderboards" 100 constructor) "leaderboards"
                "leaderboard:score:10" (JNum 7) None).
  assert (Hfull : (bind (set 0 "leaderboards" "leaderboard:score:10" (JNum 7) None)
                     (λ _, get 0 "leaderboards" "leaderboard:score:10")
                     (fill "leaderboards" 100 constructor)).2 = Return JNull)
    by (vm_compute; reflexivity).
  rewrite Hfull in H.
  assert (Hneq : Return JNull = Return (JNum 7) → False) by discriminate.
  apply Hneq, H.
  - assert (Hs : bool_decide (is_Some
        (caches (fill "leaderboards" 100 constructor) !! "leaderboards")) = true)
      by (vm_compute; reflexivity).
    by apply bool_decide_eq_true_1 in Hs.
  - intros c Hc.
    assert (Hd : (ExpiringMap.defaultTTL <$>
        caches (fill "leaderboards" 100 constructor) !! "leaderboards") = Some 600)
      by (vm_compute; reflexivity).
    rewrite Hc in Hd. cbn in Hd. injection Hd as ->. lia.
  - intros n [=].
  - discriminate.
Qed.

(** C1 (amended).  On a configured cache type, for every key, every
    value other than [undefined] and every omitted or non-negative
    [ttl]: when [set] returns [true], a [get] of the key at the same
    time returns exactly the value that was set (and is counted as a
    hit, leaving the entries as they were). *)
Theorem set_then_get_returns_value now cm ct c key value ttl cm1 :
  caches cm !! ct = Some c →
  0 < ExpiringMap.defaultTTL c →
  (∀ n, ttl = Some n → 0 ≤ n) →
  value ≠ JUndefined →
  set now ct key value ttl cm = (cm1, Return true) →
  get now ct key cm1 = (recordHit ct Hits cm1, Return value).
Proof.
  intros Hc Hd Httl Hv. rewrite (set_own _ _ _ _ _ _ _ Hc).
  destruct (ExpiringMap.set now key value _ c) as [[c' success] evs] eqn:Hset.
  cbn. destruct success; intros [= <-].
  apply ExpiringMap_set_true in Hset as (He & _ & _ & _).
  assert (Hc' : caches (recordHit ct Sets (emit ct evs (storeCache ct c' cm))) !! ct
                = Some c').
  { rewrite caches_recordHit, caches_emit, caches_storeCache.
    apply lookup_insert_eq. }
  rewrite (get_own _ _ _ _ _ Hc').
  rewrite (ExpiringMap_get_live now key c' _ He); cbn.
  - rewrite (storeCache_same _ _ _ Hc'). by destruct value.
  - pose proof (effectiveTTL_pos c ttl Hd Httl) as Hpos.
    unfold effectiveTTL in Hpos. destruct (ttl_truthy ttl); cbn in *; lia.
Qed.

(** The amended round trip at work on a fresh manager. *)
Lemma set_then_get_returns_value_witness :
  get 10 "players" "player:0xabc"
      (set 10 "players" "player:0xabc" (JObj 1) (Some 300) constructor).1
  = (recordHit "players" Hits
       (set 10 "players" "player:0xabc" (JObj 1) (Some 300) constructor).1,
     Return (JObj 1)).
Proof.
  apply (set_then_get_returns_value 10 constructor "players"
           (ExpiringMap.create 300 60 10000) "player:0xabc" (JObj 1) (Some 300)).
  - reflexivity.
  - cbn. lia.
  - intros n [= <-]. lia.
  - discriminate.
  - reflexivity.
Defined.

(** [set] passes a value that is [undefined] to the map, and [get] then
    reports a miss: the reason the round trip leaves [undefined] out. *)
Example set_then_get_undefined :
  (bind (set 0 "players" "k" JUndefined None) (λ _, get 0 "players" "k")
     constructor).2 = Return JNull.
Proof. vm_compute. reflexivity. Qed.

(* ===================================================================== *)
(** ** Capacity *)
(* ===================================================================== *)

(** C2.  A [set] of a brand-new key on a cache type that already holds
    [maxEntries] entries returns [false] (it returns, it does not
    throw) and leaves the manager exactly as it was: no entry, counter
    or log line changes, so every key inserted before is still
    retrieved with its value. *)
Theorem set_on_full_cache_returns_false now cm ct c key value ttl :
  caches cm !! ct = Some c →
  ExpiringMap.entries c !! key = None →
  Z.of_nat (size (ExpiringMap.entries c)) = ExpiringMap.maxEntries c →
  set now ct key value ttl cm = (cm, Return false)
  ∧ ∀ k e,
      ExpiringMap.entries c !! k = Some e →
      now < ExpiringMap.expiresAt e →
      ExpiringMap.value e ≠ JUndefined →
      (get now ct k (set now ct key value ttl cm).1).2
        = Return (ExpiringMap.value e).
Proof.
  intros Hc Hk Hsize.
  assert (Hset : set now ct key value ttl cm = (cm, Return false)).
  { rewrite (set_own _ _ _ _ _ _ _ Hc).
    assert (He : ExpiringMap.set now key value
                   (if ttl_truthy ttl then ttl else None) c = (c, false, []))
      by (by apply ExpiringMap_set_false).
    rewrite He. cbn. by rewrite (storeCache_same _ _ _ Hc). }
  split; [done|]. rewrite Hset. cbn.
  intros k e He Hlive Hv.
  rewrite (get_own _ _ _ _ _ Hc), (ExpiringMap_get_live _ _ _ _ He Hlive). cbn.
  by destruct (ExpiringMap.value e).
Qed.

(** The 101st key on the full [leaderboards] cache. *)
Lemma set_on_full_cache_returns_false_witness :
  set 0 "leaderboards" "leaderboard:score:10" (JNum 7) None fullLeaderboards
    = (fullLeaderboards, Return false)
  ∧ (get 0 "leaderboards" "k0"
       (set 0 "leaderboards" "leaderboard:score:10" (JNum 7) None
          fullLeaderboards).1).2 = Return (JNum 1).
Proof.
  destruct (set_on_full_cache_returns_false 0 fullLeaderboards "leaderboards"
              (cacheOf "leaderboards" fullLeaderboards)
              "leaderboard:score:10" (JNum 7) None) as [Hset Hget].
  - vm_compute. reflexivity.
  - vm_compute. reflexivity.
  - vm_compute. reflexivity.
  - split; [exact Hset|].
    apply (Hget "k0" (ExpiringMap.mkEntry (JNum 1) 600)).
    + vm_compute. reflexivity.
    + cbn. lia.
    + discriminate.
Defined.

(* ===================================================================== *)
(** ** Presence and absence in the result of [get] *)
(* ===================================================================== *)

(** A stored [null] comes back as [null], which is also what a miss
    returns. *)
Lemma get_null_hit_looks_like_miss : ¬ get_result_tells_presence.
Proof.
  intros H.
  apply (H 0 "players" "player:0xabc"
           (set 0 "players" "player:0xabc" JNull None constructor).1
           constructor
           (cacheOf "players"
              (set 0 "players" "player:0xabc" JNull None constructor).1)
           (cacheOf "players" constructor)
           (ExpiringMap.mkEntry JNull 300)).
  - vm_compute. reflexivity.
  - vm_compute. reflexivity.
  - cbn. lia.
  - vm_compute. reflexivity.
  - vm_compute. reflexivity.
  - vm_compute. reflexivity.
Qed.

(** C7 (amended).  [get] returns the stored value itself on a hit and
    [null] on a miss, with no separate presence flag.  For a live entry
    whose value is neither [null] nor [undefined] — the falsy [0],
    [false] and [""] included — the result is that value, counted as a
    hit, and differs from the [null] a manager without the key returns,
    counted as a miss. *)
Theorem get_distinguishes_non_null now ct key cmHit cmMiss cHit cMiss e :
  caches cmHit !! ct = Some cHit →
  ExpiringMap.entries cHit !! key = Some e →
  now < ExpiringMap.expiresAt e →
  ExpiringMap.value e ≠ JNull →
  ExpiringMap.value e ≠ JUndefined →
  caches cmMiss !! ct = Some cMiss →
  ExpiringMap.entries cMiss !! key = None →
  get now ct key cmHit = (recordHit ct Hits cmHit, Return (ExpiringMap.value e))
  ∧ get now ct key cmMiss = (recordHit ct Misses cmMiss, Return JNull)
  ∧ (get now ct key cmHit).2 ≠ (get now ct key cmMiss).2.
Proof.
  intros HcH He Hlive Hnull Hundef HcM Hnone.
  assert (Hhit : get now ct key cmHit
                 = (recordHit ct Hits cmHit, Return (ExpiringMap.value e))).
  { rewrite (get_own _ _ _ _ _ HcH), (ExpiringMap_get_live _ _ _ _ He Hlive). cbn.
    rewrite (storeCache_same _ _ _ HcH). by destruct (ExpiringMap.value e). }
  assert (Hmiss : get now ct key cmMiss = (recordHit ct Misses cmMiss, Return JNull)).
  { rewrite (get_own _ _ _ _ _ HcM), (ExpiringMap_get_absent _ _ _ Hnone). cbn.
    by rewrite (storeCache_same _ _ _ HcM). }
  rewrite Hhit, Hmiss. cbn. repeat split. congruence.
Qed.

(** A cached [0] is told apart from a miss. *)
Lemma get_distinguishes_non_null_witness :
  (get 0 "rateLimit" "rate:ip"
     (set 0 "rateLimit" "rate:ip" (JNum 0) None constructor).1).2
  ≠ (get 0 "rateLimit" "rate:ip" constructor).2.
Proof.
  apply (get_distinguishes_non_null 0 "rateLimit" "rate:ip"
           (set 0 "rateLimit" "rate:ip" (JNum 0) None constructor).1
           constructor
           (cacheOf "rateLimit"
              (set 0 "rateLimit" "rate:ip" (JNum 0) None constructor).1)
           (cacheOf "rateLimit" constructor)
           (ExpiringMap.mkEntry (JNum 0) 3600)).
  - vm_compute. reflexivity.
  - vm_compute. reflexivity.
  - cbn. lia.
  - discriminate.
  - discriminate.
  - vm_compute. reflexivity.
  - vm_compute. reflexivity.
Defined.

(* ===================================================================== *)
(** ** Unknown cache types *)
(* ===================================================================== *)

(** A name that is neither a configured cache type nor a property
    inherited from [Object.prototype]: the three generic operations
    return [null], [false] and [0], and only write a warning. *)
Lemma unknown_cacheType_is_noop now cm ct key value ttl :
  caches cm !! ct = None → ct ∉ objectPrototypeKeys →
  let warned := logger LWarn ("Invalid cache type: " +:+ ct) cm in
  get now ct key cm = (warned, Return JNull)
  ∧ set now ct key value ttl cm = (warned, Return false)
  ∧ del ct key cm = (warned, Return 0)
  ∧ caches warned = caches cm ∧ hitStats warned = hitStats cm.
Proof.
  intros Hn Hp. unfold get, set, del.
  rewrite (lookupCache_unknown _ _ Hn Hp). done.
Qed.

(** C5 (the failing input).  ["constructor"] is not a configured cache
    type, yet [this.caches["constructor"]] is the inherited [Object]
    function, which is truthy: the guard is passed and the call of its
    missing [get], [set] or [del] method throws a [TypeError] to the
    caller. *)
Theorem unknown_cacheType_constructor_throws :
  ("constructor" ∉ cacheTypes)
  ∧ caches constructor !! "constructor" = None
  ∧ get 0 "constructor" "k" constructor
      = (constructor, Throw (notAFunction "get"))
  ∧ set 0 "constructor" "k" (JNum 1) None constructor
      = (constructor, Throw (notAFunction "set"))
  ∧ del "constructor" "k" constructor
      = (constructor, Throw (notAFunction "del")).
Proof.
  split.
  - apply (bool_decide_eq_false_1 ("constructor" ∈ cacheTypes)).
    vm_compute. reflexivity.
  - repeat split; vm_compute; reflexivity.
Qed.

(* ===================================================================== *)
(** ** Pattern invalidation *)
(* ===================================================================== *)

Lemma append_cons a (s t : string) : String a s +:+ t = String a (s +:+ t).
Proof. reflexivity. Qed.

Lemma append_nil_l (t : string) : "" +:+ t = t.
Proof. reflexivity. Qed.

Lemma append_assoc (s t u : string) : (s +:+ t) +:+ u = s +:+ t +:+ u.
Proof. induction s as [|a s IH]; [done|]. by rewrite !append_cons, IH. Qed.

Lemma prefix_true_iff (p k : string) :
  String.prefix p k = true ↔ ∃ post, k = p +:+ post.
Proof.
  revert k. induction p as [|a p IH]; intros k.
  - destruct k; cbn; (split; [intros _; by eexists|done]).
  - destruct k as [|b k]; cbn.
    { split; [done|]. intros [post Hp]. discriminate. }
    destruct (Ascii.ascii_dec a b) as [->|Hne].
    + rewrite IH. split; intros [post Hp]; exists post;
        rewrite append_cons in *; congruence.
    + split; [done|]. intros [post Hp]. rewrite append_cons in Hp. congruence.
Qed.

Lemma includes_nil (pattern : string) :
  includes "" pattern = String.prefix pattern "" || false.
Proof. reflexivity. Qed.

Lemma includes_cons a (key pattern : string) :
  includes (String a key) pattern
    = String.prefix pattern (String a key) || includes key pattern.
Proof. reflexivity. Qed.

Lemma includes_contains (key pattern : string) :
  includes key pattern = true ↔ contains key pattern.
Proof.
  unfold contains. induction key as [|a key IH].
  - rewrite includes_nil, orb_false_r, prefix_true_iff. split.
    + intros [post Hp]. by exists "", post.
    + intros ([|b pre] & post & Hp); [by exists post|done].
  - rewrite includes_cons, orb_true_iff, prefix_true_iff, IH. split.
    + intros [[post Hp]|(pre & post & Hp)].
      * by exists "", post.
      * exists (String a pre), post. by rewrite append_cons, Hp.
    + intros ([|b pre] & post & Hp).
      * left. by exists post.
      * right. rewrite append_cons in Hp. injection Hp as -> Hp. by exists pre, post.
Qed.

Lemma ExpiringMap_del_entries key c :
  ExpiringMap.entries (ExpiringMap.del key c).1
    = delete key (ExpiringMap.entries c).
Proof.
  unfold ExpiringMap.del.
  destruct (ExpiringMap.entries c !! key) eqn:Hk; cbn; [done|].
  by rewrite delete_id.
Qed.

(** The loop of [invalidatePattern]: the listed keys are gone from the
    cache type, every other entry, every other cache type, the counters
    and the log are as before. *)
Lemma foldl_delDirect ct c keys cm :
  caches cm !! ct = Some c →
  ∃ c', caches (foldl (delDirect ct) cm keys) !! ct = Some c'
    ∧ (∀ k, ExpiringMap.entries c' !! k
            = if bool_decide (k ∈ keys) then None else ExpiringMap.entries c !! k)
    ∧ (∀ other, other ≠ ct →
         caches (foldl (delDirect ct) cm keys) !! other = caches cm !! other)
    ∧ hitStats (foldl (delDirect ct) cm keys) = hitStats cm
    ∧ logged (foldl (delDirect ct) cm keys) = logged cm.
Proof.
  revert c cm. induction keys as [|key keys IH]; intros c cm Hc; cbn.
  - exists c. repeat split; done.
  - assert (Hc' : caches (delDirect ct cm key) !! ct
                  = Some (ExpiringMap.del key c).1).
    { unfold delDirect. cbn. by rewrite lookup_alter_eq, Hc. }
    destruct (IH _ _ Hc') as (c' & Hl & He & Ho & Hs & Hg).
    exists c'. split; [done|]. split; [|split; [|split]].
    + intros k. rewrite He, ExpiringMap_del_entries.
      destruct (decide (k = key)) as [->|Hne].
      * rewrite lookup_delete_eq.
        rewrite (bool_decide_eq_true_2 (key ∈ key :: keys)) by set_solver.
        by case_bool_decide.
      * rewrite lookup_delete_ne by done.
        destruct (decide (k ∈ keys)).
        -- rewrite !bool_decide_eq_true_2; [done|by apply list_elem_of_further|done].
        -- rewrite !bool_decide_eq_false_2; [done| |done].
           by intros [?|?]%elem_of_cons.
    + intros other Hne. rewrite (Ho other Hne). unfold delDirect. cbn.
      by rewrite lookup_alter_ne.
    + by rewrite Hs.
    + by rewrite Hg.
Qed.

Lemma get_result now ct key cm c :
  caches cm !! ct = Some c →
  (get now ct key cm).2 = Return (visible now (ExpiringMap.entries c !! key)).
Proof.
  intros Hc. rewrite (get_own _ _ _ _ _ Hc). unfold ExpiringMap.get, visible.
  destruct (ExpiringMap.entries c !! key) as [e|]; [|done].
  destruct (ExpiringMap.expiresAt e <=? now); [done|]. cbn.
  by destruct (is_undefined (ExpiringMap.value e)).
Qed.

Lemma elem_of_keys key c :
  key ∈ ExpiringMap.keys c ↔ is_Some (ExpiringMap.entries c !! key).
Proof.
  unfold ExpiringMap.keys. rewrite list_elem_of_fmap. split.
  - intros ([k e] & -> & Hin). apply elem_of_map_to_list in Hin. by exists e.
  - intros [e He]. exists (key, e). split; [done|]. by apply elem_of_map_to_list.
Qed.

Lemma elem_of_matchingKeys key pattern c :
  key ∈ List.filter (λ key, includes key pattern) (ExpiringMap.keys c)
  ↔ contains key pattern ∧ is_Some (ExpiringMap.entries c !! key).
Proof.
  rewrite list_elem_of_In, filter_In, <- list_elem_of_In, elem_of_keys,
    includes_contains. tauto.
Qed.

(** [invalidatePattern] on a configured cache type, as one equation on
    the manager after the loop. *)
Lemma invalidatePattern_own ct pattern cm c :
  caches cm !! ct = Some c →
  let matchingKeys :=
    List.filter (λ key, includes key pattern) (ExpiringMap.keys c) in
  ∃ cm', invalidatePattern ct pattern cm = (cm', Return ())
    ∧ caches cm' = caches (foldl (delDirect ct) cm matchingKeys)
    ∧ hitStats cm' = hitStats (foldl (delDirect ct) cm matchingKeys).
Proof.
  intros Hc matchingKeys. unfold invalidatePattern.
  rewrite (lookupCache_own _ _ _ Hc). fold matchingKeys.
  destruct (0 <? length matchingKeys)%nat; eexists; (split; [reflexivity|done]).
Qed.

(** C4.  On a configured cache type, [invalidatePattern] returns and
    removes exactly the keys that contain the pattern as a plain
    substring: an entry whose key contains it is gone, an entry whose
    key does not is kept as it was and is retrieved by [get] exactly as
    before, and no other cache type is touched. *)
Theorem invalidatePattern_removes_exactly cm ct c pattern :
  caches cm !! ct = Some c →
  ∃ cm' c',
    invalidatePattern ct pattern cm = (cm', Return ())
    ∧ caches cm' !! ct = Some c'
    ∧ (∀ key, contains key pattern → ExpiringMap.entries c' !! key = None)
    ∧ (∀ key, ¬ contains key pattern →
         ExpiringMap.entries c' !! key = ExpiringMap.entries c !! key)
    ∧ (∀ now key, ¬ contains key pattern →
         (get now ct key cm').2 = (get now ct key cm).2)
    ∧ (∀ other, other ≠ ct → caches cm' !! other = caches cm !! other).
Proof.
  intros Hc.
  destruct (invalidatePattern_own ct pattern cm c Hc) as (cm' & Hrun & Hcs & _).
  destruct (foldl_delDirect ct c
              (List.filter (λ key, includes key pattern) (ExpiringMap.keys c))
              cm Hc) as (c' & Hc' & He & Ho & _ & _).
  rewrite <- Hcs in Hc', Ho.
  assert (Hgone : ∀ key, contains key pattern →
                         ExpiringMap.entries c' !! key = None).
  { intros key Hin. rewrite He. case_bool_decide as Hm; [done|].
    destruct (ExpiringMap.entries c !! key) as [e|] eqn:Hk; [|done].
    destruct Hm. apply elem_of_matchingKeys. split; [done|]. by rewrite Hk. }
  assert (Hkept : ∀ key, ¬ contains key pattern →
                         ExpiringMap.entries c' !! key
                         = ExpiringMap.entries c !! key).
  { intros key Hout. rewrite He. case_bool_decide as Hm; [|done].
    apply elem_of_matchingKeys in Hm as [Hin _]. by destruct Hout. }
  exists cm', c'. repeat split; try done.
  intros now key Hout.
  by rewrite (get_result _ _ _ _ _ Hc'), (get_result _ _ _ _ _ Hc), Hkept.
Qed.

Lemma invalidatePattern_removes_exactly_witness :
  ∃ cm' c',
    invalidatePattern "api" "wallet123" threeKeys = (cm', Return ())
    ∧ caches cm' !! "api" = Some c'
    ∧ (∀ key, contains key "wallet123" → ExpiringMap.entries c' !! key = None)
    ∧ (∀ key, ¬ contains key "wallet123" →
         ExpiringMap.entries c' !! key
         = ExpiringMap.entries (cacheOf "api" threeKeys) !! key)
    ∧ (∀ now key, ¬ contains key "wallet123" →
         (get now "api" key cm').2 = (get now "api" key threeKeys).2)
    ∧ (∀ other, other ≠ "api" → caches cm' !! other = caches threeKeys !! other).
Proof.
  apply (invalidatePattern_removes_exactly threeKeys "api"
           (cacheOf "api" threeKeys) "wallet123").
  vm_compute. reflexivity.
Defined.

Example invalidatePattern_threeKeys :
  let cm' := (invalidatePattern "api" "wallet123" threeKeys).1 in
  (get 1 "api" "api:player:wallet123" cm').2 = Return JNull
  ∧ (get 1 "api" "api:stats:wallet123:7" cm').2 = Return JNull
  ∧ (get 1 "api" "api:player:wallet9" cm').2 = Return (JStr "api:player:wallet9").
Proof. vm_compute. repeat split; reflexivity. Qed.

(* ===================================================================== *)
(** ** Counters under pattern invalidation *)
(* ===================================================================== *)

Lemma hitStats_foldl_delDirect ct keys cm :
  hitStats (foldl (delDirect ct) cm keys) = hitStats cm.
Proof.
  revert cm. induction keys as [|key keys IH]; intros cm; cbn; [done|].
  by rewrite IH.
Qed.

(** [del] on a key that is present counts one delete. *)
Lemma del_counts cm ct c key :
  caches cm !! ct = Some c →
  is_Some (ExpiringMap.entries c !! key) →
  (del ct key cm).2 = Return 1
  ∧ hitStats (del ct key cm).1 = alter (bump Deletes) ct (hitStats cm).
Proof.
  intros Hc [e He]. unfold del, ExpiringMap.del.
  rewrite (lookupCache_own _ _ _ Hc), He. done.
Qed.

(** C10.  [invalidatePattern] leaves every counter of every cache type
    as it was, whatever it removes; the [deletes] counter in particular
    is not advanced for the removed keys, whereas [del] on a key that
    is present advances it by one. *)
Theorem invalidatePattern_keeps_counters cm ct pattern :
  hitStats (invalidatePattern ct pattern cm).1 = hitStats cm
  ∧ ∀ c key,
      caches cm !! ct = Some c →
      is_Some (ExpiringMap.entries c !! key) →
      hitStats (del ct key cm).1 = alter (bump Deletes) ct (hitStats cm).
Proof.
  split.
  - unfold invalidatePattern.
    destruct (lookupCache cm ct) as [c| |];
      [|by destruct (String.eqb ct "constructor")|done].
    destruct (0 <? length _)%nat; cbn; apply hitStats_foldl_delDirect.
  - intros c key Hc Hk. by apply (del_counts cm ct c key).
Qed.

(** Removing two entries by pattern leaves [deletes] at 0; removing one
    by [del] makes it 1. *)
Lemma invalidatePattern_keeps_counters_witness :
  hitStats (invalidatePattern "api" "wallet123" threeKeys).1 = hitStats threeKeys
  ∧ length (ExpiringMap.keys
              (cacheOf "api" (invalidatePattern "api" "wallet123" threeKeys).1))
    = 1%nat
  ∧ hitStats (del "api" "api:player:wallet9" threeKeys).1
    = alter (bump Deletes) "api" (hitStats threeKeys).
Proof.
  destruct (invalidatePattern_keeps_counters threeKeys "api" "wallet123")
    as [Hkeep Hdel].
  split; [exact Hkeep|]. split; [vm_compute; reflexivity|].
  apply (Hdel (cacheOf "api" threeKeys) "api:player:wallet9").
  - vm_compute. reflexivity.
  - apply (bool_decide_eq_true_1
             (is_Some (ExpiringMap.entries (cacheOf "api" threeKeys)
                         !! "api:player:wallet9"))).
    vm_compute. reflexivity.
Defined.

(* ===================================================================== *)
(** ** Rate limiting *)
(* ===================================================================== *)

Lemma ExpiringMap_set_success now key v ttl c :
  (ExpiringMap.entries c !! key = None →
   Z.of_nat (size (ExpiringMap.entries c)) ≠ ExpiringMap.maxEntries c) →
  ExpiringMap.set now key v ttl c =
    (ExpiringMap.with_entries
       (<[key := ExpiringMap.mkEntry v (now + default (ExpiringMap.defaultTTL c) ttl)]>
          (ExpiringMap.entries c)) c,
     true, [ExpiringMap.EvSet key v]).
Proof.
  intros Hroom. unfold ExpiringMap.set.
  destruct (ExpiringMap.entries c !! key) eqn:Hk; [done|].
  destruct (Z.eqb_spec (Z.of_nat (size (ExpiringMap.entries c)))
                       (ExpiringMap.maxEntries c)); [|done].
  by destruct Hroom.
Qed.

(** What the lookup half of [incrementRateLimit] leaves behind: the map
    [c1] it continues with, which still has room for the key, and the
    number the sum starts from. *)
Lemma ExpiringMap_get_previous now key c prev :
  previousCount now c key = Some prev →
  Z.of_nat (size (ExpiringMap.entries c)) ≤ ExpiringMap.maxEntries c →
  (ExpiringMap.entries c !! key = None →
   Z.of_nat (size (ExpiringMap.entries c)) < ExpiringMap.maxEntries c) →
  ∃ c1 found,
    ExpiringMap.get now key c = (c1, found)
    ∧ js_add_one (js_or (if is_undefined (default JUndefined found)
                         then JNull else default JUndefined found) (JNum 0))
      = JNum (prev + 1)
    ∧ ExpiringMap.defaultTTL c1 = ExpiringMap.defaultTTL c
    ∧ ExpiringMap.maxEntries c1 = ExpiringMap.maxEntries c
    ∧ (ExpiringMap.entries c1 !! key = None →
       Z.of_nat (size (ExpiringMap.entries c1)) < ExpiringMap.maxEntries c1)
    ∧ Z.of_nat (size (<[key := ExpiringMap.mkEntry (JNum (prev + 1)) 0]>
                        (ExpiringMap.entries c1)))
      ≤ ExpiringMap.maxEntries c1.
Proof.
  unfold previousCount, ExpiringMap.get. intros Hprev Hsize Hroom.
  destruct (ExpiringMap.entries c !! key) as [e|] eqn:Hk.
  - destruct (ExpiringMap.expiresAt e <=? now) eqn:Hexp; cbn in Hprev.
    + injection Hprev as <-. eexists _, _. split; [reflexivity|]. cbn.
      rewrite lookup_delete_eq.
      pose proof (map_size_delete_Some key (ExpiringMap.entries c)
                    (ltac:(by rewrite Hk))) as Hd.
      pose proof (map_size_ne_0_lookup_2 (ExpiringMap.entries c) key
                    (ltac:(by rewrite Hk))) as Hpos.
      rewrite map_size_insert_None by apply lookup_delete_eq.
      repeat split; try done; lia.
    + destruct (ExpiringMap.value e) as [| | |n| |] eqn:Hv; try done.
      injection Hprev as <-. eexists _, _. split; [reflexivity|]. cbn.
      rewrite Hk, map_size_insert_Some by (by rewrite Hk).
      repeat split; try done.
      unfold js_or. cbn. by destruct (Z.eqb_spec n 0) as [->|]; cbn.
  - cbn in Hprev. injection Hprev as <-. eexists _, _. split; [reflexivity|]. cbn.
    rewrite map_size_insert_None by done.
    repeat split; try done; specialize (Hroom eq_refl); lia.
Qed.

(** One call of [incrementRateLimit] on an identifier that has a count
    (or none) and room to be stored: it returns [true] and leaves the
    successor stored. *)
Lemma incrementRateLimit_step now identifier ttl cm c prev :
  caches cm !! "rateLimit" = Some c →
  previousCount now c (rateKey identifier) = Some prev →
  Z.of_nat (size (ExpiringMap.entries c)) ≤ ExpiringMap.maxEntries c →
  (ExpiringMap.entries c !! rateKey identifier = None →
   Z.of_nat (size (ExpiringMap.entries c)) < ExpiringMap.maxEntries c) →
  ∃ cm' c',
    incrementRateLimit now identifier ttl cm = (cm', Return true)
    ∧ caches cm' !! "rateLimit" = Some c'
    ∧ ExpiringMap.entries c' !! rateKey identifier
      = Some (ExpiringMap.mkEntry (JNum (prev + 1))
                (now + effectiveTTL c (rateLimitTTL ttl)))
    ∧ ExpiringMap.defaultTTL c' = ExpiringMap.defaultTTL c
    ∧ ExpiringMap.maxEntries c' = ExpiringMap.maxEntries c
    ∧ Z.of_nat (size (ExpiringMap.entries c')) ≤ ExpiringMap.maxEntries c'.
Proof.
  intros Hc Hprev Hsize Hroom.
  destruct (ExpiringMap_get_previous _ _ _ _ Hprev Hsize Hroom)
    as (c1 & found & Hget & Hsum & Hd & Hm & Hroom1 & Hsize1).
  unfold incrementRateLimit, bind, getRateLimit, setRateLimit.
  fold (rateKey identifier).
  rewrite (get_own _ _ _ _ _ Hc), Hget. cbn zeta.
  set (cm1 := storeCache "rateLimit" c1 cm).
  assert (Hc1 : ∀ f, caches (recordHit "rateLimit" f cm1) !! "rateLimit" = Some c1).
  { intros f. unfold cm1. rewrite caches_recordHit, caches_storeCache.
    apply lookup_insert_eq. }
  assert (Hgo : ∀ f,
    set now "rateLimit" (rateKey identifier) (JNum (prev + 1))
        (rateLimitTTL ttl) (recordHit "rateLimit" f cm1)
    = (recordHit "rateLimit" Sets
         (emit "rateLimit" [ExpiringMap.EvSet (rateKey identifier) (JNum (prev + 1))]
            (storeCache "rateLimit"
               (ExpiringMap.with_entries
                  (<[rateKey identifier :=
                       ExpiringMap.mkEntry (JNum (prev + 1))
                         (now + effectiveTTL c (rateLimitTTL ttl))]>
                     (ExpiringMap.entries c1)) c1)
               (recordHit "rateLimit" f cm1))),
       Return true)).
  { intros f. rewrite (set_own _ _ _ _ _ _ _ (Hc1 f)).
    rewrite ExpiringMap_set_success by (intros Hn; specialize (Hroom1 Hn); lia).
    unfold effectiveTTL. rewrite Hd.
    by destruct (ttl_truthy (rateLimitTTL ttl)). }
  destruct (is_undefined (default JUndefined found)); cbn zeta in *;
    rewrite Hsum, Hgo; (eexists _, _; split; [reflexivity|]);
    rewrite caches_recordHit, caches_emit, caches_storeCache, lookup_insert_eq;
    (split; [reflexivity|]); cbn; rewrite lookup_insert_eq;
    repeat split; try done;
    rewrite map_size_insert in *; by rewrite Hm in *.
Qed.

(** On a full map a new identifier is counted as a miss and not stored:
    [incrementRateLimit] returns [false]. *)
Lemma incrementRateLimit_full now identifier ttl cm c :
  caches cm !! "rateLimit" = Some c →
  ExpiringMap.entries c !! rateKey identifier = None →
  Z.of_nat (size (ExpiringMap.entries c)) = ExpiringMap.maxEntries c →
  incrementRateLimit now identifier ttl cm
    = (recordHit "rateLimit" Misses cm, Return false).
Proof.
  intros Hc Hk Hfull.
  unfold incrementRateLimit, bind, getRateLimit, setRateLimit.
  fold (rateKey identifier).
  rewrite (get_own _ _ _ _ _ Hc), (ExpiringMap_get_absent _ _ _ Hk). cbn zeta.
  rewrite (storeCache_same _ _ _ Hc). cbn [default is_undefined].
  assert (Hc1 : caches (recordHit "rateLimit" Misses cm) !! "rateLimit" = Some c)
    by done.
  rewrite (set_own _ _ _ _ _ _ _ Hc1).
  assert (He : ∀ v t, ExpiringMap.set now (rateKey identifier) v t c = (c, false, []))
    by (intros; by apply ExpiringMap_set_false).
  rewrite He. cbn. by rewrite (storeCache_same _ _ _ Hc1).
Qed.

(** The first request of a client on a fresh manager: the count stored
    is 1, the value returned is [true]. *)
Lemma incrementRateLimit_returns_boolean : ¬ incrementRateLimit_returns_new_count.
Proof.
  intros H.
  destruct (H 0 "requests:10.0.0.1" (TtlSeconds 3600) constructor
              (ExpiringMap.create 3600 600 50000) 0) as [_ Hret].
  - reflexivity.
  - reflexivity.
  - reflexivity.
  - vm_compute. discriminate.
  - intros _. vm_compute. reflexivity.
  - vm_compute in Hret. discriminate.
Qed.

(** C3 (amended).  For an identifier whose previous count is [prev] (a
    stored live number of the safe range, or 0 when nothing live is
    stored) and which is already stored or has room in the [rateLimit]
    cache, [incrementRateLimit(identifier, ttl)] stores [prev + 1] under
    [rate:identifier], expiring [ttl] (3600 when left out, the default of
    the map when [null] or 0) after the call, and returns the boolean [true] of
    the underlying [set], not the count. *)
Theorem incrementRateLimit_stores_successor now identifier ttl cm c prev :
  caches cm !! "rateLimit" = Some c →
  previousCount now c (rateKey identifier) = Some prev →
  Z.abs prev < 2 ^ 53 →
  Z.of_nat (size (ExpiringMap.entries c)) ≤ ExpiringMap.maxEntries c →
  (ExpiringMap.entries c !! rateKey identifier = None →
   Z.of_nat (size (ExpiringMap.entries c)) < ExpiringMap.maxEntries c) →
  ExpiringMap.entries (cacheOf "rateLimit" (incrementRateLimit now identifier ttl cm).1)
    !! rateKey identifier
    = Some (ExpiringMap.mkEntry (JNum (prev + 1))
              (now + effectiveTTL c (rateLimitTTL ttl)))
  ∧ storedCount (incrementRateLimit now identifier ttl cm).1 identifier
    = Some (JNum (prev + 1))
  ∧ resultValue (incrementRateLimit now identifier ttl cm).2 = Return (JBool true).
Proof.
  intros Hc Hprev _ Hsize Hroom.
  destruct (incrementRateLimit_step _ _ ttl _ _ _ Hc Hprev Hsize Hroom)
    as (cm' & c' & -> & Hc' & He & _).
  unfold storedCount, cacheOf. cbn [fst snd]. rewrite Hc'. cbn.
  unfold rateKey in *. rewrite He. done.
Qed.

(** The second request of a client within the hour. *)
Lemma incrementRateLimit_stores_successor_witness :
  let once := (incrementRateLimit 0 "requests:10.0.0.1" (TtlSeconds 3600) constructor).1 in
  storedCount (incrementRateLimit 5 "requests:10.0.0.1" (TtlSeconds 3600) once).1
    "requests:10.0.0.1" = Some (JNum 2)
  ∧ resultValue (incrementRateLimit 5 "requests:10.0.0.1" (TtlSeconds 3600) once).2
    = Return (JBool true).
Proof.
  intros once.
  destruct (incrementRateLimit_stores_successor 5 "requests:10.0.0.1" (TtlSeconds 3600)
              once (cacheOf "rateLimit" once) 1) as (_ & Hcount & Hret).
  - vm_compute. reflexivity.
  - vm_compute. reflexivity.
  - reflexivity.
  - vm_compute. discriminate.
  - vm_compute. discriminate.
  - split; [exact Hcount|exact Hret].
Defined.

(* ===================================================================== *)
(** ** Concurrent callers of [incrementRateLimit] *)
(* ===================================================================== *)

Lemma counting_previous identifier ttl t0 dflt served c now :
  counting identifier ttl t0 dflt served c →
  now < t0 + effectiveTTL c (rateLimitTTL ttl) →
  previousCount now c (rateKey identifier) = Some served
  ∧ (ExpiringMap.entries c !! rateKey identifier = None →
     Z.of_nat (size (ExpiringMap.entries c)) < ExpiringMap.maxEntries c).
Proof.
  intros (_ & _ & [(-> & Hk & Hroom)|(ex & Hk & Hex)]) Hnow.
  - unfold previousCount. by rewrite (ExpiringMap_get_absent _ _ _ Hk).
  - unfold previousCount.
    rewrite (ExpiringMap_get_live _ _ _ _ Hk) by (cbn; lia).
    split; [done|]. by rewrite Hk.
Qed.

Lemma effectiveTTL_ext c c' ttl :
  ExpiringMap.defaultTTL c' = ExpiringMap.defaultTTL c →
  effectiveTTL c' ttl = effectiveTTL c ttl.
Proof. unfold effectiveTTL. by intros ->. Qed.

Lemma serveAll_counts identifier ttl t0 dflt times :
  ∀ cm c served,
    caches cm !! "rateLimit" = Some c →
    counting identifier ttl t0 dflt served c →
    Forall (λ now, t0 ≤ now < t0 + effectiveTTL c (rateLimitTTL ttl)) times →
    ∃ c',
      caches (serveAll identifier ttl times cm).1 !! "rateLimit" = Some c'
      ∧ counting identifier ttl t0 dflt (served + Z.of_nat (length times)) c'
      ∧ (serveAll identifier ttl times cm).2
        = replicate (length times) (Return true).
Proof.
  induction times as [|now later IH]; intros cm c served Hc Hcnt Hwin.
  - exists c. cbn. by rewrite Z.add_0_r.
  - apply Forall_cons in Hwin as [Hnow Hlater].
    destruct (counting_previous _ _ _ _ _ _ now Hcnt ltac:(lia)) as [Hprev Hroom].
    destruct Hcnt as (Hd & Hsize & _).
    destruct (incrementRateLimit_step now identifier ttl cm c served
                Hc Hprev Hsize Hroom)
      as (cm1 & c1 & Hrun & Hc1 & He1 & Hd1 & Hm1 & Hsize1).
    assert (Hcnt1 : counting identifier ttl t0 dflt (served + 1) c1).
    { split; [congruence|]. split; [done|]. right.
      eexists. split; [exact He1|].
      rewrite (effectiveTTL_ext c c1) by done. lia. }
    destruct (IH cm1 c1 (served + 1) Hc1 Hcnt1) as (c' & Hc' & Hcnt' & Hrs).
    { by rewrite (effectiveTTL_ext c c1). }
    cbn [serveAll]. rewrite Hrun.
    destruct (serveAll identifier ttl later cm1) as [cm2 rs]. cbn in *.
    exists c'. split; [done|]. split; [|by rewrite Hrs].
    by replace (served + Z.of_nat (S (length later)))
         with (served + 1 + Z.of_nat (length later)) by lia.
Qed.

(** The keys of [fillKeys]. *)
Lemma elem_of_fillKeys key n :
  key ∈ fillKeys n ↔ ∃ i : nat, (i < n)%nat ∧ key = "k" +:+ pretty i.
Proof.
  unfold fillKeys. rewrite list_elem_of_fmap. split.
  - intros (i & -> & Hi). apply elem_of_seq in Hi. exists i. split; [lia|done].
  - intros (i & Hi & ->). exists i. split; [done|]. apply elem_of_seq. lia.
Qed.

Lemma fill_S ct n cm :
  fill ct (S n) cm = (set 0 ct ("k" +:+ pretty n) (JNum 1) None (fill ct n cm)).1.
Proof.
  unfold fill, fillKeys. by rewrite seq_S, fmap_app, foldl_app.
Qed.

(** [fill] reaches every size up to the bound of the cache type. *)
Lemma fill_size ct n cm c :
  caches cm !! ct = Some c →
  ExpiringMap.entries c = ∅ →
  Z.of_nat n ≤ ExpiringMap.maxEntries c →
  ∃ c', caches (fill ct n cm) !! ct = Some c'
    ∧ size (ExpiringMap.entries c') = n
    ∧ ExpiringMap.maxEntries c' = ExpiringMap.maxEntries c
    ∧ ExpiringMap.defaultTTL c' = ExpiringMap.defaultTTL c
    ∧ ∀ key, is_Some (ExpiringMap.entries c' !! key) → key ∈ fillKeys n.
Proof.
  intros Hc Hempty. induction n as [|n IH]; intros Hn.
  - exists c. cbn. rewrite Hempty. repeat split; try done.
    intros key [e He]. by rewrite lookup_empty in He.
  - destruct IH as (c' & Hc' & Hsz & Hm & Hd & Hdom); [lia|].
    assert (Hfresh : ExpiringMap.entries c' !! ("k" +:+ pretty n) = None).
    { destruct (ExpiringMap.entries c' !! ("k" +:+ pretty n)) as [e|] eqn:He;
        [|done].
      destruct (proj1 (elem_of_fillKeys _ _) (Hdom _ (mk_is_Some _ _ He)))
        as (i & Hi & Heq).
      rewrite !append_cons, !append_nil_l in Heq. injection Heq as Heq.
      apply (inj pretty) in Heq. lia. }
    rewrite fill_S, (set_own _ _ _ _ _ _ _ Hc').
    rewrite ExpiringMap_set_success by (intros _; lia).
    cbn [ttl_truthy fst snd].
    eexists. rewrite caches_recordHit, caches_emit, caches_storeCache.
    split; [apply lookup_insert_eq|].
    cbn [ExpiringMap.entries ExpiringMap.with_entries ExpiringMap.maxEntries
         ExpiringMap.defaultTTL].
    rewrite map_size_insert_None by done.
    repeat split; try done; [congruence|].
    intros key Hkey. rewrite lookup_insert in Hkey.
    apply elem_of_fillKeys. case_decide as Heq.
    + exists n. split; [lia|done].
    + apply Hdom, elem_of_fillKeys in Hkey as (i & Hi & ->).
      exists i. split; [lia|done].
Qed.

(** One caller, new to a full [rateLimit] cache: no count is stored. *)
Lemma serveAll_one_on_full now identifier ttl cm c :
  caches cm !! "rateLimit" = Some c →
  ExpiringMap.entries c !! rateKey identifier = None →
  Z.of_nat (size (ExpiringMap.entries c)) = ExpiringMap.maxEntries c →
  storedCount (serveAll identifier ttl [now] cm).1 identifier = None.
Proof.
  intros Hc Hfresh Hfull. cbn [serveAll].
  rewrite (incrementRateLimit_full now identifier ttl cm c Hc Hfresh Hfull).
  unfold storedCount, cacheOf. cbn [fst].
  rewrite caches_recordHit, Hc. cbn. unfold rateKey in *.
  by rewrite Hfresh.
Qed.

Lemma fullRateLimit_full :
  ∃ c, caches fullRateLimit !! "rateLimit" = Some c
    ∧ Z.of_nat (size (ExpiringMap.entries c)) = ExpiringMap.maxEntries c
    ∧ ExpiringMap.defaultTTL c = 3600
    ∧ ExpiringMap.entries c !! rateKey "requests:10.0.0.1" = None.
Proof.
  destruct (fill_size "rateLimit" (Z.to_nat 50000) constructor
              (ExpiringMap.create 3600 600 50000))
    as (c & Hc & Hsz & Hm & Hd & Hdom).
  - reflexivity.
  - reflexivity.
  - rewrite Z2Nat.id by lia. reflexivity.
  - exists c. split; [exact Hc|]. split; [|split; [exact Hd|]].
    + rewrite Hsz, Hm, Z2Nat.id by lia. reflexivity.
    + destruct (ExpiringMap.entries c !! rateKey "requests:10.0.0.1")
        as [e|] eqn:He; [|done].
      destruct (proj1 (elem_of_fillKeys _ _) (Hdom _ (mk_is_Some _ _ He)))
        as (i & _ & Heq).
      unfold rateKey in Heq. rewrite !append_cons in Heq. discriminate.
Qed.

(** Once 50000 other identifiers are stored, the call of a new client
    is refused by the [rateLimit] cache and leaves no count at all. *)
Lemma concurrent_increments_lost_when_full : ¬ concurrent_increments_always_count.
Proof.
  intros H.
  destruct fullRateLimit_full as (c & Hc & Hfull & Hd & Hfresh).
  assert (Hwin : Forall (λ now, 0 ≤ now < 0 + effectiveTTL c (rateLimitTTL (TtlSeconds 3600)))
                        [0]).
  { apply Forall_cons. split; [|by apply Forall_nil].
    unfold effectiveTTL. rewrite Hd. cbn. lia. }
  assert (Hle : Z.of_nat (size (ExpiringMap.entries c)) ≤ ExpiringMap.maxEntries c)
    by lia.
  assert (Hne : [0] ≠ []) by discriminate.
  assert (Hlt : Z.of_nat (length [0]) < 2 ^ 53) by (cbn; lia).
  pose proof (H fullRateLimit c "requests:10.0.0.1" (TtlSeconds 3600) 0 [0]
                Hc Hfresh Hle Hwin Hne Hlt) as Hcount.
  rewrite (serveAll_one_on_full 0 "requests:10.0.0.1" (TtlSeconds 3600) fullRateLimit c
             Hc Hfresh Hfull) in Hcount.
  discriminate.
Qed.

(** C9 (amended).  When N ≥ 1 callers call [incrementRateLimit] with the
    same identifier and [ttl] at once — each call runs to completion
    before the next, in any order, all within one time-to-live window —
    and the identifier is not stored yet and the [rateLimit] cache has
    room for it, every call returns [true] and the count stored in the
    end is exactly N: no update is lost. *)
Theorem concurrent_increments_count cm c identifier ttl t0 times :
  caches cm !! "rateLimit" = Some c →
  ExpiringMap.entries c !! rateKey identifier = None →
  Z.of_nat (size (ExpiringMap.entries c)) < ExpiringMap.maxEntries c →
  Forall (λ now, t0 ≤ now < t0 + effectiveTTL c (rateLimitTTL ttl)) times →
  times ≠ [] →
  Z.of_nat (length times) < 2 ^ 53 →
  storedCount (serveAll identifier ttl times cm).1 identifier
    = Some (JNum (Z.of_nat (length times)))
  ∧ (serveAll identifier ttl times cm).2 = replicate (length times) (Return true).
Proof.
  intros Hc Hfresh Hroom Hwin Hne _.
  assert (Hcnt : counting identifier ttl t0 (ExpiringMap.defaultTTL c) 0 c).
  { split; [done|]. split; [lia|]. by left. }
  destruct (serveAll_counts identifier ttl t0 _ times cm c 0 Hc Hcnt Hwin)
    as (c' & Hc' & (_ & _ & Hend) & Hrs).
  split; [|done].
  unfold storedCount, cacheOf. rewrite Hc'. cbn.
  destruct Hend as [(Hz & _)|(ex & He & _)].
  - destruct times; [done|]. cbn in Hz. lia.
  - unfold rateKey in *. by rewrite He.
Qed.

(** Three callers on a fresh manager, served out of time order. *)
Lemma concurrent_increments_count_witness :
  storedCount (serveAll "requests:10.0.0.1" (TtlSeconds 3600) [7; 9; 8] constructor).1
    "requests:10.0.0.1" = Some (JNum 3)
  ∧ (serveAll "requests:10.0.0.1" (TtlSeconds 3600) [7; 9; 8] constructor).2
    = [Return true; Return true; Return true].
Proof.
  apply (concurrent_increments_count constructor
           (ExpiringMap.create 3600 600 50000) "requests:10.0.0.1" (TtlSeconds 3600)
           7 [7; 9; 8]).
  - reflexivity.
  - reflexivity.
  - vm_compute. reflexivity.
  - repeat (apply Forall_cons; split; [unfold effectiveTTL; cbn; lia|]).
    by apply Forall_nil.
  - discriminate.
  - vm_compute. reflexivity.
Defined.

(* ===================================================================== *)
(** ** Shutdown *)
(* ===================================================================== *)


(** The words of the specification leave one map as the result of
    closing: any operation that halts the timer, releases the entries
    and keeps the settings gives [ExpiringMap.close c]. *)
Lemma close_determined (close' : ExpiringMap.t → ExpiringMap.t) c :
  ExpiringMap.sweepTimer (close' c) = false →
  ExpiringMap.entries (close' c) = ∅ →
  ExpiringMap.defaultTTL (close' c) = ExpiringMap.defaultTTL c →
  ExpiringMap.maxEntries (close' c) = ExpiringMap.maxEntries c →
  ExpiringMap.sweepInterval (close' c) = ExpiringMap.sweepInterval c →
  close' c = ExpiringMap.close c.
Proof.
  unfold ExpiringMap.close. destruct (close' c) as [es d m i t]. cbn.
  by intros -> -> -> -> ->.
Qed.









(* ===================================================================== *)
(** ** Binary64 rounding, from its specification *)
(* ===================================================================== *)

Lemma digits2_size p : digits2_pos p = Pos.size p.
Proof. induction p; cbn; congruence. Qed.

Lemma digits2_bounds p :
  2 ^ (Z.pos (digits2_pos p) - 1) ≤ Z.pos p < 2 ^ Z.pos (digits2_pos p).
Proof.
  rewrite digits2_size. split.
  - pose proof (Pos.size_le p) as H.
    assert (Hz : Z.pos (2 ^ Pos.size p) ≤ Z.pos p~0) by (apply Pos2Z.pos_le_pos, H).
    rewrite Pos2Z.inj_pow in Hz.
    replace (Z.pos (Pos.size p)) with (Z.pos (Pos.size p) - 1 + 1) in Hz by lia.
    rewrite Z.pow_add_r in Hz by lia. lia.
  - pose proof (Pos.size_gt p) as H.
    assert (Hz : Z.pos p < Z.pos (2 ^ Pos.size p)) by (apply Pos2Z.pos_lt_pos, H).
    by rewrite Pos2Z.inj_pow in Hz.
Qed.

(** A positive integer with [d] binary digits. *)
Lemma digits2_unique p d :
  2 ^ (d - 1) ≤ Z.pos p < 2 ^ d → Z.pos (digits2_pos p) = d.
Proof.
  intros [Hlo Hhi]. pose proof (digits2_bounds p) as [Hlo' Hhi'].
  destruct (Z.lt_trichotomy (Z.pos (digits2_pos p)) d) as [Hlt|[Heq|Hgt]]; [|done|].
  - assert (2 ^ Z.pos (digits2_pos p) ≤ 2 ^ (d - 1)) by (apply Z.pow_le_mono_r; lia).
    lia.
  - assert (0 ≤ d).
    { destruct (Z.le_gt_cases 0 d); [done|]. rewrite (Z.pow_neg_r 2 d) in Hhi by lia. lia. }
    assert (2 ^ d ≤ 2 ^ (Z.pos (digits2_pos p) - 1)) by (apply Z.pow_le_mono_r; lia).
    lia.
Qed.

(** One step of the right shift halves the mantissa. *)
Lemma shr_1_m mrs : 0 ≤ shr_m mrs → shr_m (shr_1 mrs) = shr_m mrs / 2.
Proof.
  destruct mrs as [m r s]. cbn [shr_m shr_1]. intros Hm.
  destruct m as [|[p|p|]|p]; cbn [shr_m]; [done| | |done|lia].
  - apply Z.div_unique with 1; lia.
  - apply Z.div_unique with 0; lia.
Qed.

Lemma pow2_xO n : 2 ^ Z.pos n~0 = 2 ^ Z.pos n * 2 ^ Z.pos n.
Proof. rewrite Pos2Z.inj_xO, <- Z.pow_add_r by lia. f_equal. lia. Qed.

Lemma pow2_xI n : 2 ^ Z.pos n~1 = 2 * (2 ^ Z.pos n * 2 ^ Z.pos n).
Proof.
  rewrite Pos2Z.inj_xI, Z.pow_add_r, Z.pow_1_r by lia.
  change (2 * Z.pos n) with (Z.pos n~0). rewrite pow2_xO. lia.
Qed.

Lemma iter_pos_shr_1_m n mrs :
  0 ≤ shr_m mrs →
  shr_m (SpecFloat.iter_pos shr_1 n mrs) = shr_m mrs / 2 ^ Z.pos n.
Proof.
  revert mrs. induction n as [n IH|n IH|]; intros mrs Hm; cbn [SpecFloat.iter_pos].
  - assert (H1 : 0 ≤ shr_m (shr_1 mrs)) by (rewrite shr_1_m by done; apply Z.div_pos; lia).
    assert (H2 : 0 ≤ shr_m (SpecFloat.iter_pos shr_1 n (shr_1 mrs)))
      by (rewrite IH by done; apply Z.div_pos; lia).
    rewrite IH, IH, shr_1_m by done.
    rewrite !Z.div_div by lia. by rewrite pow2_xI.
  - assert (H2 : 0 ≤ shr_m (SpecFloat.iter_pos shr_1 n mrs))
      by (rewrite IH by done; apply Z.div_pos; lia).
    rewrite IH, IH by done.
    rewrite !Z.div_div by lia. by rewrite pow2_xO.
  - rewrite shr_1_m by done. reflexivity.
Qed.

Lemma round_nearest_even_cases m l :
  round_nearest_even m l = m ∨ round_nearest_even m l = m + 1.
Proof.
  destruct l as [|[| |]]; cbn; auto. destruct (Z.even m); auto.
Qed.

Lemma shr_record_of_loc_m m l : shr_m (shr_record_of_loc m l) = m.
Proof. by destruct l as [|[| |]]. Qed.

(** The right shift that brings a [d]-digit mantissa, [d >= 53], to 53
    digits, away from the subnormal range. *)
Lemma shr_fexp_normal m e l d :
  2 ^ (d - 1) ≤ m < 2 ^ d → 53 ≤ d → -1000 ≤ d + e ≤ 1000 →
  ∃ mrs, shr_fexp prec emax m e l = (mrs, e + d - 53)
         ∧ shr_m mrs = m / 2 ^ (d - 53).
Proof.
  intros Hm Hd He.
  assert (Hpos : 0 < m).
  { assert (0 < 2 ^ (d - 1)) by (apply Z.pow_pos_nonneg; lia). lia. }
  destruct m as [|p|p]; try lia.
  unfold shr_fexp, fexp, emin. cbn [Zdigits2].
  rewrite (digits2_unique p d Hm).
  change prec with 53. change emax with 1024.
  rewrite Z.max_l by lia.
  replace (d + e - 53 - e) with (d - 53) by lia.
  unfold shr. destruct (d - 53) as [|n|n] eqn:Hn; try lia.
  - eexists. split; [f_equal; lia|].
    rewrite shr_record_of_loc_m. by rewrite Z.pow_0_r, Z.div_1_r.
  - eexists. split; [f_equal; lia|].
    rewrite iter_pos_shr_1_m; rewrite shr_record_of_loc_m; [done|lia].
Qed.

Lemma div_pow2_bounds m d :
  2 ^ (d - 1) ≤ m < 2 ^ d → 53 ≤ d →
  2 ^ 52 ≤ m / 2 ^ (d - 53) < 2 ^ 53.
Proof.
  intros [Hlo Hhi] Hd.
  assert (Hk : 0 < 2 ^ (d - 53)) by (apply Z.pow_pos_nonneg; lia).
  assert (E1 : 2 ^ (d - 1) = 2 ^ 52 * 2 ^ (d - 53))
    by (rewrite <- Z.pow_add_r by lia; f_equal; lia).
  assert (E2 : 2 ^ d = 2 ^ 53 * 2 ^ (d - 53))
    by (rewrite <- Z.pow_add_r by lia; f_equal; lia).
  split.
  - apply Z.div_le_lower_bound; lia.
  - apply Z.div_lt_upper_bound; lia.
Qed.

(** Rounding a positive mantissa of at least 53 digits, away from
    underflow and overflow: the result is a normal number whose
    mantissa is the truncated one or its successor. *)
Lemma binary_round_aux_normal mx ex lx d :
  2 ^ (d - 1) ≤ mx < 2 ^ d → 53 ≤ d → -990 ≤ d + ex ≤ 990 →
  ∃ m3 e3,
    binary_round_aux prec emax false mx ex lx = S754_finite false m3 e3
    ∧ 2 ^ 52 ≤ Z.pos m3 < 2 ^ 53
    ∧ ((e3 = ex + d - 53
        ∧ (Z.pos m3 = mx / 2 ^ (d - 53) ∨ Z.pos m3 = mx / 2 ^ (d - 53) + 1))
       ∨ (e3 = ex + d - 52 ∧ Z.pos m3 = 2 ^ 52 ∧ mx / 2 ^ (d - 53) + 1 = 2 ^ 53)).
Proof.
  intros Hm Hd He.
  destruct (shr_fexp_normal mx ex lx d Hm Hd ltac:(lia)) as (mrs1 & Hs1 & Hm1).
  pose proof (div_pow2_bounds mx d Hm Hd) as Hb1.
  unfold binary_round_aux. rewrite Hs1.
  set (m2 := round_nearest_even (shr_m mrs1) (loc_of_shr_record mrs1)).
  assert (Hm2 : m2 = mx / 2 ^ (d - 53) ∨ m2 = mx / 2 ^ (d - 53) + 1).
  { unfold m2. rewrite <- Hm1. apply round_nearest_even_cases. }
  destruct (Z.eq_dec m2 (2 ^ 53)) as [Htop|Hntop].
  - destruct (shr_fexp_normal m2 (ex + d - 53) loc_Exact 54) as (mrs2 & Hs2 & Hm2');
      [rewrite Htop; cbn; lia|lia|lia|].
    rewrite Hs2, Hm2', Htop. change (2 ^ 53 / 2 ^ (54 - 53)) with (Z.pos (2 ^ 52)).
    cbn iota. change (Z.sub emax prec) with 971.
    rewrite (proj2 (Z.leb_le _ _)) by lia.
    eexists _, _. split; [reflexivity|]. split; [cbn; lia|].
    right. repeat split; [lia|]. destruct Hm2 as [Hm2|Hm2]; lia.
  - destruct (shr_fexp_normal m2 (ex + d - 53) loc_Exact 53) as (mrs2 & Hs2 & Hm2');
      [change (2 ^ (53 - 1)) with (2 ^ 52); lia|lia|lia|].
    rewrite Hs2, Hm2'. change (2 ^ (53 - 53)) with 1. rewrite Z.div_1_r.
    destruct m2 as [|p2|p2] eqn:Hp; try lia.
    cbn iota. change (Z.sub emax prec) with 971.
    rewrite (proj2 (Z.leb_le _ _)) by lia.
    eexists _, _. split; [reflexivity|]. split; [lia|].
    left. split; [lia|]. lia.
Qed.

(** ** The value of a double *)

Lemma pow2_pos e : (0 < pow2 e)%R.
Proof. apply powerRZ_lt. lra. Qed.

Lemma pow2_add a b : pow2 (a + b) = (pow2 a * pow2 b)%R.
Proof. apply powerRZ_add. lra. Qed.

Lemma pow2_IZR k : 0 ≤ k → pow2 k = IZR (2 ^ k).
Proof.
  intros Hk. unfold pow2. rewrite <- (Z2Nat.id k Hk) at 1.
  rewrite <- pow_powerRZ. rewrite <- (Z2Nat.id k Hk) at 2.
  generalize (Z.to_nat k). intros n. induction n as [|n IH].
  - reflexivity.
  - rewrite Nat2Z.inj_succ, Z.pow_succ_r by lia.
    rewrite mult_IZR, <- IH. reflexivity.
Qed.

Lemma pow2_1 : pow2 1 = 2%R.
Proof. unfold pow2, powerRZ. change (Pos.to_nat 1) with 1%nat. cbn. lra. Qed.

Lemma pow2_succ e : pow2 (e + 1) = (2 * pow2 e)%R.
Proof. rewrite pow2_add, pow2_1. lra. Qed.

Lemma pow2_le a b : a ≤ b → (pow2 a <= pow2 b)%R.
Proof.
  intros Hab. replace b with (a + (b - a)) by lia.
  rewrite pow2_add, (pow2_IZR (b - a)) by lia.
  assert (0 < 2 ^ (b - a)) by (apply Z.pow_pos_nonneg; lia).
  assert (1 <= IZR (2 ^ (b - a)))%R by (apply IZR_le; lia).
  pose proof (pow2_pos a). nra.
Qed.

(** Rounding a real that lies between a mantissa and its successor. *)
Lemma binary_round_aux_near mx ex lx d v :
  2 ^ (d - 1) ≤ mx < 2 ^ d → 53 ≤ d → -990 ≤ d + ex ≤ 990 →
  (IZR mx * pow2 ex <= v <= (IZR mx + 1) * pow2 ex)%R →
  ∃ m e, binary_round_aux prec emax false mx ex lx = S754_finite false m e
         ∧ 2 ^ 52 ≤ Z.pos m < 2 ^ 53
         ∧ ex + d - 53 ≤ e ≤ ex + d - 52
         ∧ (v - pow2 e <= valueOf m e <= v + pow2 e)%R.
Proof.
  intros Hm Hd He Hv.
  destruct (binary_round_aux_normal mx ex lx d Hm Hd He) as (m & e & Hr & Hb & Hcase).
  exists m, e. split; [done|]. split; [done|].
  set (k := d - 53) in *. set (m1 := mx / 2 ^ k) in *.
  assert (Hk : 0 < 2 ^ k) by (apply Z.pow_pos_nonneg; lia).
  assert (Hdiv : m1 * 2 ^ k ≤ mx < (m1 + 1) * 2 ^ k).
  { unfold m1. pose proof (Z.mul_div_le mx (2 ^ k) Hk).
    pose proof (Z.mul_succ_div_gt mx (2 ^ k) Hk). lia. }
  assert (Hlo : (IZR m1 * pow2 (ex + k) <= IZR mx * pow2 ex)%R).
  { rewrite (Z.add_comm ex k), pow2_add, (pow2_IZR k) by lia.
    rewrite <- Rmult_assoc, <- mult_IZR.
    apply Rmult_le_compat_r; [apply Rlt_le, pow2_pos|]. apply IZR_le. lia. }
  assert (Hhi : ((IZR mx + 1) * pow2 ex <= (IZR m1 + 1) * pow2 (ex + k))%R).
  { rewrite (Z.add_comm ex k), pow2_add, (pow2_IZR k) by lia.
    rewrite <- Rmult_assoc. rewrite <- !plus_IZR, <- mult_IZR.
    apply Rmult_le_compat_r; [apply Rlt_le, pow2_pos|]. apply IZR_le. lia. }
  pose proof (pow2_pos (ex + k)) as Hp.
  unfold valueOf.
  destruct Hcase as [[-> Hm3]|(-> & Hm3 & Htop)].
  - replace (ex + d - 53) with (ex + k) by (unfold k; lia).
    split; [lia|].
    destruct Hm3 as [->| ->]; [|rewrite plus_IZR]; nra.
  - replace (ex + d - 52) with (ex + k + 1) by (unfold k; lia).
    split; [lia|]. rewrite pow2_succ, Hm3.
    assert (E : (IZR (2 ^ 52) * 2 = IZR m1 + 1)%R).
    { rewrite <- plus_IZR, Htop, <- mult_IZR. f_equal. }
    nra.
Qed.

Lemma iter_xO_pos p n : Z.pos (Pos.iter xO p n) = Z.pos p * 2 ^ Z.pos n.
Proof.
  induction n as [|n IH] using Pos.peano_ind.
  - cbn. lia.
  - rewrite Pos.iter_succ, Pos2Z.inj_xO, IH, Pos2Z.inj_succ, Z.pow_succ_r by lia. lia.
Qed.

(** A mantissa that already has 53 digits and no remainder is kept. *)
Lemma binary_round_aux_exact p e :
  2 ^ 52 ≤ Z.pos p < 2 ^ 53 → -990 ≤ e ≤ 900 →
  binary_round_aux prec emax false (Z.pos p) e loc_Exact = S754_finite false p e.
Proof.
  intros Hp He.
  assert (Hs : shr_fexp prec emax (Z.pos p) e loc_Exact
               = ({| shr_m := Z.pos p; shr_r := false; shr_s := false |}, e)).
  { unfold shr_fexp, fexp, emin. cbn [Zdigits2].
    rewrite (digits2_unique p 53) by (change (2 ^ (53 - 1)) with (2 ^ 52); lia).
    change prec with 53. change emax with 1024.
    rewrite Z.max_l by lia. replace (53 + e - 53 - e) with 0 by lia. reflexivity. }
  unfold binary_round_aux. rewrite Hs. cbn [shr_m loc_of_shr_record round_nearest_even].
  rewrite Hs. cbn [shr_m]. change (Z.sub emax prec) with 971.
  by rewrite (proj2 (Z.leb_le _ _)) by lia.
Qed.

(** An integer counter below 2^53 is a double, exactly. *)
Lemma binary_normalize_exact n :
  0 < n < 2 ^ 53 →
  ∃ m e, binary_normalize prec emax n 0 false = S754_finite false m e
         ∧ 2 ^ 52 ≤ Z.pos m < 2 ^ 53
         ∧ -52 ≤ e ≤ 0
         ∧ valueOf m e = IZR n.
Proof.
  intros Hn. destruct n as [|p|p]; try lia.
  unfold binary_normalize, binary_round.
  pose proof (digits2_bounds p) as Hd. set (d := Z.pos (digits2_pos p)) in *.
  assert (Hd53 : 1 ≤ d ≤ 53).
  { split; [lia|]. destruct (Z.le_gt_cases d 53); [done|].
    assert (2 ^ 53 ≤ 2 ^ (d - 1)) by (apply Z.pow_le_mono_r; lia). lia. }
  unfold fexp, emin. change prec with 53. change emax with 1024.
  rewrite Z.max_l by lia. unfold shl_align.
  replace (d + 0 - 53 - 0) with (d - 53) by lia.
  destruct (d - 53) as [|k|k] eqn:Hk; try lia.
  - assert (d = 53) as Hd' by lia. rewrite Hd' in Hd.
    change (2 ^ (53 - 1)) with (2 ^ 52) in Hd.
    rewrite binary_round_aux_exact by lia.
    exists p, 0. repeat split; try lia. unfold valueOf, pow2. cbn. lra.
  - assert (Hm : 2 ^ 52 ≤ Z.pos (Pos.iter xO p k) < 2 ^ 53).
    { rewrite iter_xO_pos.
      assert (E : Z.pos k = 53 - d) by lia. rewrite E.
      assert (E1 : 2 ^ 52 = 2 ^ (d - 1) * 2 ^ (53 - d))
        by (rewrite <- Z.pow_add_r by lia; f_equal; lia).
      assert (E2 : 2 ^ 53 = 2 ^ d * 2 ^ (53 - d))
        by (rewrite <- Z.pow_add_r by lia; f_equal; lia).
      assert (0 < 2 ^ (53 - d)) by (apply Z.pow_pos_nonneg; lia).
      rewrite E1, E2. split; [apply Z.mul_le_mono_nonneg_r|apply Z.mul_lt_mono_pos_r]; lia. }
    replace (d + 0 - 53) with (d - 53) by lia.
    rewrite binary_round_aux_exact by lia.
    eexists _, _. split; [reflexivity|]. split; [done|]. split; [lia|].
    unfold valueOf. rewrite iter_xO_pos, mult_IZR, <- pow2_IZR by lia.
    rewrite Rmult_assoc, <- pow2_add.
    replace (Z.pos k + (d - 53)) with 0 by lia. unfold pow2. cbn. lra.
Qed.

Lemma shl_align_fst mx ex ez :
  ez ≤ ex → Z.pos (fst (shl_align mx ex ez)) = Z.pos mx * 2 ^ (ex - ez).
Proof.
  intros Hle. unfold shl_align.
  destruct (ez - ex) as [|k|k] eqn:Hk; try lia; cbn [fst].
  - replace (ex - ez) with 0 by lia. lia.
  - rewrite iter_xO_pos. f_equal. f_equal. lia.
Qed.

(** A positive integer with [d] digits. *)
Lemma digits_exist p : ∃ d, 1 ≤ d ∧ 2 ^ (d - 1) ≤ Z.pos p < 2 ^ d.
Proof. exists (Z.pos (digits2_pos p)). split; [lia|apply digits2_bounds]. Qed.

Lemma digits_ge p d a : 2 ^ (d - 1) ≤ Z.pos p < 2 ^ d → 2 ^ a ≤ Z.pos p → 0 ≤ a → a < d.
Proof.
  intros [_ Hhi] Ha Ha0. destruct (Z.le_gt_cases d a) as [Hle|]; [|done].
  assert (0 ≤ d).
  { destruct (Z.le_gt_cases 0 d); [done|]. rewrite (Z.pow_neg_r 2 d) in Hhi by lia. lia. }
  assert (2 ^ d ≤ 2 ^ a) by (apply Z.pow_le_mono_r; lia). lia.
Qed.

Lemma digits_le p d a : 2 ^ (d - 1) ≤ Z.pos p < 2 ^ d → Z.pos p < 2 ^ a → 1 ≤ d → d ≤ a.
Proof.
  intros [Hlo _] Ha Hd. destruct (Z.le_gt_cases d a) as [|Hgt]; [done|].
  assert (2 ^ a ≤ 2 ^ (d - 1)).
  { destruct (Z.le_gt_cases 0 a); [apply Z.pow_le_mono_r; lia|].
    rewrite (Z.pow_neg_r 2 a) by lia. apply Z.pow_nonneg. lia. }
  lia.
Qed.

(** [binary_round] on a mantissa of at least 53 digits. *)
Lemma binary_round_wide p e d :
  2 ^ (d - 1) ≤ Z.pos p < 2 ^ d → 53 ≤ d → -990 ≤ d + e ≤ 990 →
  binary_round prec emax false p e
    = binary_round_aux prec emax false (Z.pos p) e loc_Exact.
Proof.
  intros Hp Hd He. unfold binary_round, fexp, emin.
  rewrite (digits2_unique p d Hp).
  change prec with 53. change emax with 1024.
  rewrite Z.max_l by lia. unfold shl_align.
  by destruct (d + e - 53 - e) as [|k|k] eqn:Hk; try lia.
Qed.

(** The sum of two positive normal doubles. *)
Lemma SF64add_near mx ex my ey :
  2 ^ 52 ≤ Z.pos mx < 2 ^ 53 → 2 ^ 52 ≤ Z.pos my < 2 ^ 53 →
  -60 ≤ ex ≤ 60 → -60 ≤ ey ≤ 60 →
  ∃ m e, SF64add (S754_finite false mx ex) (S754_finite false my ey)
           = S754_finite false m e
         ∧ 2 ^ 52 ≤ Z.pos m < 2 ^ 53
         ∧ -60 ≤ e ≤ 200
         ∧ (valueOf mx ex + valueOf my ey - pow2 e <= valueOf m e
            <= valueOf mx ex + valueOf my ey + pow2 e)%R.
Proof.
  intros Hmx Hmy Hex Hey.
  unfold SF64add, SFadd. cbn [cond_Zopp].
  set (ez := Z.min ex ey).
  assert (Hez : ez ≤ ex ∧ ez ≤ ey ∧ -60 ≤ ez ≤ 60) by (unfold ez; lia).
  destruct Hez as (Hzx & Hzy & Hzr).
  pose proof (shl_align_fst mx ex ez Hzx) as Hax.
  pose proof (shl_align_fst my ey ez Hzy) as Hay.
  set (ax := fst (shl_align mx ex ez)) in *.
  set (ay := fst (shl_align my ey ez)) in *.
  change (Z.pos ax + Z.pos ay) with (Z.pos (ax + ay)).
  cbn [binary_normalize].
  destruct (digits_exist (ax + ay)) as (d & Hd1 & Hd).
  assert (Hpx : 1 ≤ 2 ^ (ex - ez) ≤ 2 ^ 120).
  { split; [|apply Z.pow_le_mono_r; lia].
    assert (0 < 2 ^ (ex - ez)) by (apply Z.pow_pos_nonneg; lia). lia. }
  assert (Hpy : 1 ≤ 2 ^ (ey - ez) ≤ 2 ^ 120).
  { split; [|apply Z.pow_le_mono_r; lia].
    assert (0 < 2 ^ (ey - ez)) by (apply Z.pow_pos_nonneg; lia). lia. }
  assert (Hsum : 2 ^ 52 ≤ Z.pos (ax + ay) < 2 ^ 175).
  { rewrite Pos2Z.inj_add, Hax, Hay.
    assert (Z.pos mx * 1 ≤ Z.pos mx * 2 ^ (ex - ez))
      by (apply Z.mul_le_mono_nonneg_l; lia).
    assert (Z.pos my * 1 ≤ Z.pos my * 2 ^ (ey - ez))
      by (apply Z.mul_le_mono_nonneg_l; lia).
    assert (Z.pos mx * 2 ^ (ex - ez) ≤ 2 ^ 53 * 2 ^ 120).
    { apply Z.mul_le_mono_nonneg; lia. }
    assert (Z.pos my * 2 ^ (ey - ez) ≤ 2 ^ 53 * 2 ^ 120)
      by (apply Z.mul_le_mono_nonneg; lia).
    change (2 ^ 175) with (4 * (2 ^ 53 * 2 ^ 120)). lia. }
  assert (Hd53 : 52 < d) by (apply (digits_ge (ax + ay)); [done|lia|lia]).
  assert (Hd175 : d ≤ 175) by (apply (digits_le (ax + ay)); [done|lia|lia]).
  rewrite (binary_round_wide (ax + ay) ez d) by (done || lia).
  destruct (binary_round_aux_near (Z.pos (ax + ay)) ez loc_Exact d
              (valueOf mx ex + valueOf my ey)) as (m & e & Hr & Hm & He & Hv);
    [done|lia|lia| |].
  - assert (E : (IZR (Z.pos (ax + ay)) * pow2 ez = valueOf mx ex + valueOf my ey)%R).
    { rewrite Pos2Z.inj_add, plus_IZR, Hax, Hay, !mult_IZR.
      rewrite <- !pow2_IZR by lia. unfold valueOf.
      rewrite Rmult_plus_distr_r, !Rmult_assoc, <- !pow2_add.
      by replace (ex - ez + ez) with ex by lia; replace (ey - ez + ez) with ey by lia. }
    rewrite E. pose proof (pow2_pos ez). lra.
  - exists m, e. split; [done|]. split; [done|]. split; [lia|done].
Qed.

(** The product of two positive normal doubles. *)
Lemma SF64mul_near mx ex my ey :
  2 ^ 52 ≤ Z.pos mx < 2 ^ 53 → 2 ^ 52 ≤ Z.pos my < 2 ^ 53 →
  -400 ≤ ex ≤ 400 → -400 ≤ ey ≤ 400 →
  ∃ m e, SF64mul (S754_finite false mx ex) (S754_finite false my ey)
           = S754_finite false m e
         ∧ 2 ^ 52 ≤ Z.pos m < 2 ^ 53
         ∧ ex + ey + 52 ≤ e ≤ ex + ey + 54
         ∧ (valueOf mx ex * valueOf my ey - pow2 e <= valueOf m e
            <= valueOf mx ex * valueOf my ey + pow2 e)%R.
Proof.
  intros Hmx Hmy Hex Hey.
  unfold SF64mul, SFmul. cbn [xorb].
  destruct (digits_exist (mx * my)) as (d & Hd1 & Hd).
  assert (Hprod : 2 ^ 104 ≤ Z.pos (mx * my) < 2 ^ 106).
  { rewrite Pos2Z.inj_mul.
    change (2 ^ 104) with (2 ^ 52 * 2 ^ 52). change (2 ^ 106) with (2 ^ 53 * 2 ^ 53).
    split; [apply Z.mul_le_mono_nonneg; lia|apply Z.mul_lt_mono_nonneg; lia]. }
  assert (Hd104 : 104 < d) by (apply (digits_ge (mx * my)); [done|lia|lia]).
  assert (Hd106 : d ≤ 106) by (apply (digits_le (mx * my)); [done|lia|lia]).
  destruct (binary_round_aux_near (Z.pos (mx * my)) (ex + ey) loc_Exact d
              (valueOf mx ex * valueOf my ey)) as (m & e & Hr & Hm & He & Hv);
    [done|lia|lia| |].
  - assert (E : (IZR (Z.pos (mx * my)) * pow2 (ex + ey)
                 = valueOf mx ex * valueOf my ey)%R).
    { rewrite Pos2Z.inj_mul, mult_IZR, pow2_add. unfold valueOf. ring. }
    rewrite E. pose proof (pow2_pos (ex + ey)). lra.
  - exists m, e. split; [done|]. split; [done|]. split; [lia|done].
Qed.

(** The quotient of two positive normal doubles. *)
Lemma SF64div_near mx ex my ey :
  2 ^ 52 ≤ Z.pos mx < 2 ^ 53 → 2 ^ 52 ≤ Z.pos my < 2 ^ 53 →
  -400 ≤ ex ≤ 400 → -400 ≤ ey ≤ 400 →
  ∃ m e, SF64div (S754_finite false mx ex) (S754_finite false my ey)
           = S754_finite false m e
         ∧ 2 ^ 52 ≤ Z.pos m < 2 ^ 53
         ∧ ex - ey - 53 ≤ e ≤ ex - ey - 51
         ∧ (valueOf mx ex / valueOf my ey - pow2 e <= valueOf m e
            <= valueOf mx ex / valueOf my ey + pow2 e)%R.
Proof.
  intros Hmx Hmy Hex Hey.
  unfold SF64div, SFdiv, SFdiv_core_binary. cbn [xorb Zdigits2].
  rewrite (digits2_unique mx 53), (digits2_unique my 53)
    by (change (2 ^ (53 - 1)) with (2 ^ 52); lia).
  unfold fexp, emin. change prec with 53. change emax with 1024.
  rewrite Z.max_l by lia. rewrite Z.min_l by lia.
  replace (ex - ey - (53 + ex - (53 + ey) - 53)) with 53 by lia.
  replace (53 + ex - (53 + ey) - 53) with (ex - ey - 53) by lia.
  cbv iota. rewrite Z.shiftl_mul_pow2 by lia.
  pose proof (Z_div_mod (Z.pos mx * 2 ^ 53) (Z.pos my) ltac:(lia)) as Hdm.
  destruct (Z.div_eucl (Z.pos mx * 2 ^ 53) (Z.pos my)) as [q r].
  destruct Hdm as [Hq Hr].
  assert (Hqb : 2 ^ 52 ≤ q < 2 ^ 54).
  { split.
    - destruct (Z.le_gt_cases (2 ^ 52) q) as [|Hlt]; [done|].
      assert (Z.pos my * (q + 1) ≤ Z.pos my * 2 ^ 52)
        by (apply Z.mul_le_mono_nonneg_l; lia).
      assert (Z.pos my * 2 ^ 52 < 2 ^ 53 * 2 ^ 52)
        by (apply Z.mul_lt_mono_pos_r; lia).
      assert (2 ^ 52 * 2 ^ 53 ≤ Z.pos mx * 2 ^ 53)
        by (apply Z.mul_le_mono_nonneg_r; lia).
      lia.
    - destruct (Z.le_gt_cases (2 ^ 54) q) as [Hge|]; [|done].
      assert (2 ^ 52 * 2 ^ 54 ≤ Z.pos my * q)
        by (apply Z.mul_le_mono_nonneg; lia).
      assert (Z.pos mx * 2 ^ 53 < 2 ^ 53 * 2 ^ 53)
        by (apply Z.mul_lt_mono_pos_r; lia).
      change (2 ^ 52 * 2 ^ 54) with (2 ^ 53 * 2 ^ 53) in *. lia. }
  destruct q as [|pq|pq]; try lia.
  destruct (digits_exist pq) as (d & Hd1 & Hd).
  assert (Hd52 : 52 < d) by (apply (digits_ge pq); [done|lia|lia]).
  assert (Hd54 : d ≤ 54) by (apply (digits_le pq); [done|lia|lia]).
  destruct (binary_round_aux_near (Z.pos pq) (ex - ey - 53)
              (new_location (Z.pos my) r) d
              (valueOf mx ex / valueOf my ey)) as (m & e & Hres & Hm & He & Hv);
    [done|lia|lia| |].
  - unfold valueOf.
    pose proof (pow2_pos (ex - ey - 53)) as HP. pose proof (pow2_pos ey) as HY.
    assert (HB : (0 < IZR (Z.pos my))%R) by (apply IZR_lt; lia).
    assert (Hex' : pow2 ex = (pow2 (ex - ey - 53) * IZR (2 ^ 53) * pow2 ey)%R).
    { rewrite <- (pow2_IZR 53), <- !pow2_add by lia. f_equal. lia. }
    assert (Hval : (IZR (Z.pos mx) * pow2 ex / (IZR (Z.pos my) * pow2 ey)
                    = IZR (Z.pos mx) * IZR (2 ^ 53) / IZR (Z.pos my)
                      * pow2 (ex - ey - 53))%R).
    { rewrite Hex'. field. lra. }
    rewrite Hval.
    assert (Hlo : (IZR (Z.pos pq) * IZR (Z.pos my)
                   <= IZR (Z.pos mx) * IZR (2 ^ 53))%R).
    { rewrite <- !mult_IZR. apply IZR_le. lia. }
    assert (Hhi : (IZR (Z.pos mx) * IZR (2 ^ 53)
                   <= (IZR (Z.pos pq) + 1) * IZR (Z.pos my))%R).
    { rewrite <- plus_IZR, <- !mult_IZR. apply IZR_le. lia. }
    assert (Hcancel : (IZR (Z.pos mx) * IZR (2 ^ 53) / IZR (Z.pos my) * IZR (Z.pos my)
                       = IZR (Z.pos mx) * IZR (2 ^ 53))%R) by (field; lra).
    split.
    + apply Rmult_le_compat_r; [lra|].
      apply (Rmult_le_reg_r (IZR (Z.pos my))); [lra|]. rewrite Hcancel. lra.
    + apply Rmult_le_compat_r; [lra|].
      apply (Rmult_le_reg_r (IZR (Z.pos my))); [lra|]. rewrite Hcancel. lra.
  - exists m, e. split; [done|]. split; [done|]. split; [lia|done].
Qed.

(** The double of an integer counter. *)
Lemma Prim2SF_num n :
  0 < n < 2 ^ 53 →
  ∃ m e, Prim2SF (num n) = S754_finite false m e
         ∧ 2 ^ 52 ≤ Z.pos m < 2 ^ 53
         ∧ -52 ≤ e ≤ 0
         ∧ valueOf m e = IZR n.
Proof.
  intros Hn. unfold num. rewrite of_uint63_spec, Uint63.of_Z_spec.
  rewrite Z.mod_small by (change wB with (2 ^ 63); split; [lia|];
    assert (2 ^ 53 < 2 ^ 63) by (apply Z.pow_lt_mono_r; lia); lia).
  by apply binary_normalize_exact.
Qed.

Lemma Prim2SF_num_0 : Prim2SF (num 0) = S754_zero false.
Proof. vm_compute. reflexivity. Qed.

Lemma Prim2SF_num_100 :
  Prim2SF (num 100) = S754_finite false 7036874417766400 (-46).
Proof. vm_compute. reflexivity. Qed.

(** [toFixed(2)] picks a hundredth within one half of [100 x]. *)
Lemma nearest_scaled_2 x mx e :
  Prim2SF x = S754_finite false mx e →
  (IZR (nearest_scaled 2 x) - / 2 <= 100 * valueOf mx e
   <= IZR (nearest_scaled 2 x) + / 2)%R.
Proof.
  intros Hx. unfold nearest_scaled. rewrite Hx. cbv zeta.
  change (10 ^ Z.of_nat 2) with 100. unfold valueOf.
  destruct (Z.leb_spec 0 e) as [He|He].
  - rewrite !mult_IZR, <- pow2_IZR by done. lra.
  - set (k := - e). assert (Hk : 0 < k) by (unfold k; lia).
    set (n := (2 * (100 * Z.pos mx) + 2 ^ k) / 2 ^ (k + 1)).
    assert (Hp : 0 < 2 ^ (k + 1)) by (apply Z.pow_pos_nonneg; lia).
    assert (Hdiv : n * 2 ^ (k + 1) ≤ 2 * (100 * Z.pos mx) + 2 ^ k
                   < (n + 1) * 2 ^ (k + 1)).
    { unfold n. pose proof (Z.mul_div_le (2 * (100 * Z.pos mx) + 2 ^ k) _ Hp).
      pose proof (Z.mul_succ_div_gt (2 * (100 * Z.pos mx) + 2 ^ k) _ Hp). lia. }
    assert (Hhalf : 2 ^ (k + 1) = 2 * 2 ^ k)
      by (rewrite Z.pow_add_r, Z.pow_1_r by lia; lia).
    assert (Hpe : (pow2 e * IZR (2 ^ k) = 1)%R).
    { rewrite <- pow2_IZR, <- pow2_add by lia.
      replace (e + k) with 0 by (unfold k; lia). reflexivity. }
    assert (HK : (0 < IZR (2 ^ k))%R) by (apply IZR_lt, Z.pow_pos_nonneg; lia).
    assert (Hlo : (IZR n * (2 * IZR (2 ^ k)) <= 200 * IZR (Z.pos mx) + IZR (2 ^ k))%R).
    { rewrite <- (mult_IZR 2), <- !mult_IZR, <- plus_IZR. apply IZR_le. lia. }
    assert (Hhi : (200 * IZR (Z.pos mx) + IZR (2 ^ k)
                   <= (IZR n + 1) * (2 * IZR (2 ^ k)))%R).
    { rewrite <- plus_IZR, <- (mult_IZR 2), <- !mult_IZR, <- plus_IZR.
      apply IZR_le. lia. }
    set (P := pow2 e) in *. set (K := IZR (2 ^ k)) in *.
    set (A := IZR (Z.pos mx)) in *. set (N := IZR n) in *.
    assert (HAK : (A = A * P * K)%R) by (rewrite Rmult_assoc, Hpe; ring).
    split.
    + apply (Rmult_le_reg_r (2 * K)); [lra|].
      replace (100 * (A * P) * (2 * K))%R with (200 * (A * P * K))%R by ring.
      rewrite <- HAK. lra.
    + apply (Rmult_le_reg_r (2 * K)); [lra|].
      replace (100 * (A * P) * (2 * K))%R with (200 * (A * P * K))%R by ring.
      rewrite <- HAK. lra.
Qed.

Lemma near_relative m e v :
  2 ^ 52 ≤ Z.pos m < 2 ^ 53 →
  (v - pow2 e <= valueOf m e <= v + pow2 e)%R →
  (0 < valueOf m e
   ∧ (1 - ulp52) * valueOf m e <= v <= (1 + ulp52) * valueOf m e)%R.
Proof.
  intros Hm Hv. unfold valueOf in *. pose proof (pow2_pos e) as Hp.
  assert (HM : (4503599627370496 <= IZR (Z.pos m))%R).
  { change 4503599627370496%R with (IZR (2 ^ 52)). apply IZR_le. lia. }
  unfold ulp52.
  assert (Hu : (pow2 e <= / 4503599627370496 * (IZR (Z.pos m) * pow2 e))%R).
  { rewrite <- Rmult_assoc.
    rewrite <- (Rmult_1_l (pow2 e)) at 1.
    apply Rmult_le_compat_r; [lra|].
    apply (Rmult_le_reg_l 4503599627370496); [lra|].
    rewrite <- Rmult_assoc, Rinv_r by lra. lra. }
  split; [nra|]. lra.
Qed.

(** From the three roundings and the final rounding to hundredths to
    the printed hundredth [N], for fewer than 2^35 lookups. *)
Lemma hundredth_chain (H S vs vq vx N : R) :
  (0 < H)%R → (H <= S)%R → (S < 34359738368)%R → (0 <= N)%R →
  (0 < vs)%R → (0 < vq)%R → (0 < vx)%R →
  ((1 - ulp52) * vs <= S <= (1 + ulp52) * vs)%R →
  ((1 - ulp52) * vq <= H / vs <= (1 + ulp52) * vq)%R →
  ((1 - ulp52) * vx <= vq * 100 <= (1 + ulp52) * vx)%R →
  (N - / 2 <= 100 * vx <= N + / 2)%R →
  (- (S + 1) < 2 * N * S - 20000 * H < S + 1)%R.
Proof.
  unfold ulp52. intros HH HS HS35 HN Hvs Hvq Hvx Es Eq Ex En.
  set (u := (/ 4503599627370496)%R) in *.
  assert (Hu : (0 < u < / 1000000000000000)%R) by (unfold u; lra).
  set (P1 := (vq * vs)%R). set (P2 := (vx * vs)%R). set (W := (N * vs)%R).
  assert (E1 : ((1 - u) * P1 <= H <= (1 + u) * P1)%R).
  { assert (HHv : (H / vs * vs = H)%R) by (field; lra).
    pose proof (Rmult_le_compat_r vs _ _ (Rlt_le _ _ Hvs) (proj1 Eq)) as A1.
    pose proof (Rmult_le_compat_r vs _ _ (Rlt_le _ _ Hvs) (proj2 Eq)) as A2.
    rewrite HHv in A1, A2. unfold P1. lra. }
  assert (E2 : ((1 - u) * P2 <= 100 * P1 <= (1 + u) * P2)%R).
  { pose proof (Rmult_le_compat_r vs _ _ (Rlt_le _ _ Hvs) (proj1 Ex)) as A1.
    pose proof (Rmult_le_compat_r vs _ _ (Rlt_le _ _ Hvs) (proj2 Ex)) as A2.
    unfold P1, P2. lra. }
  assert (E3 : (W - vs / 2 <= 100 * P2 <= W + vs / 2)%R).
  { pose proof (Rmult_le_compat_r vs _ _ (Rlt_le _ _ Hvs) (proj1 En)) as A1.
    pose proof (Rmult_le_compat_r vs _ _ (Rlt_le _ _ Hvs) (proj2 En)) as A2.
    unfold W, P2. lra. }
  set (X := (N * S)%R).
  assert (EX : ((1 - u) * W <= X <= (1 + u) * W)%R).
  { pose proof (Rmult_le_compat_l N _ _ HN (proj1 Es)) as A1.
    pose proof (Rmult_le_compat_l N _ _ HN (proj2 Es)) as A2.
    unfold X, W. lra. }
  replace (2 * N * S)%R with (2 * X)%R by (unfold X; ring).
  assert (HW : (0 <= W)%R) by (unfold W; apply Rmult_le_pos; lra).
  clearbody P1 P2 W X. unfold u in *. clear u Hu. split; lra.
Qed.

Lemma valueOf_100 : valueOf 7036874417766400 (-46) = 100%R.
Proof.
  unfold valueOf.
  change (Z.pos 7036874417766400) with (100 * 2 ^ 46).
  rewrite mult_IZR, <- (pow2_IZR 46), Rmult_assoc, <- pow2_add by lia.
  change (46 + -46) with 0. unfold pow2. cbn. lra.
Qed.

(** The double [hits / (hits + misses) * 100] is a positive normal
    number, and the hundredth [toFixed(2)] prints for it is one nearest
    to the exact percentage, for fewer than 2^35 lookups. *)
Lemma rateFloat_accurate h m :
  0 < h → 0 ≤ m → h + m < 2 ^ 35 →
  ∃ mx e,
    Prim2SF (rateFloat h m) = S754_finite false mx e
    ∧ Z.abs (2 * nearest_scaled 2 (rateFloat h m) * (h + m) - 20000 * h) ≤ h + m.
Proof.
  intros Hh Hm Hb.
  assert (H53 : 2 ^ 35 < 2 ^ 53) by (apply Z.pow_lt_mono_r; lia).
  destruct (Prim2SF_num h) as (mh & eh & Hnh & Hmh & Heh & Hvh); [lia|].
  assert (Hsum : ∃ ms es,
    Prim2SF (PrimFloat.add (num h) (num m)) = S754_finite false ms es
    ∧ 2 ^ 52 ≤ Z.pos ms < 2 ^ 53 ∧ -60 ≤ es ≤ 200
    ∧ (IZR (h + m) - pow2 es <= valueOf ms es <= IZR (h + m) + pow2 es)%R).
  { rewrite add_spec, Hnh. destruct (Z.eq_dec m 0) as [->|Hm0].
    - rewrite Prim2SF_num_0. exists mh, eh. split; [reflexivity|].
      split; [done|]. split; [lia|]. rewrite Z.add_0_r, Hvh.
      pose proof (pow2_pos eh). lra.
    - destruct (Prim2SF_num m) as (mm & em & Hnm & Hmm & Hem & Hvm); [lia|].
      rewrite Hnm.
      destruct (SF64add_near mh eh mm em) as (ms & es & Hs & Hms & Hes & Hvs);
        [done|done|lia|lia|].
      exists ms, es. rewrite plus_IZR, <- Hvh, <- Hvm. done. }
  destruct Hsum as (ms & es & Hs & Hms & Hes & Hvs).
  destruct (SF64div_near mh eh ms es) as (mq & eq & Hq & Hmq & Heq & Hvq);
    [done|done|lia|lia|].
  destruct (SF64mul_near mq eq 7036874417766400 (-46))
    as (mx & ex & Hx & Hmx & Hex & Hvx); [done|cbn; lia|lia|lia|].
  assert (Hrate : Prim2SF (rateFloat h m) = S754_finite false mx ex).
  { unfold rateFloat. by rewrite mul_spec, div_spec, Hnh, Hs, Hq, Prim2SF_num_100. }
  exists mx, ex. split; [done|].
  pose proof (nearest_scaled_2 _ _ _ Hrate) as Hn.
  set (n := nearest_scaled 2 (rateFloat h m)) in *.
  rewrite valueOf_100 in Hvx.
  destruct (near_relative _ _ _ Hms Hvs) as [Hps Hrs].
  destruct (near_relative _ _ _ Hmq Hvq) as [Hpq Hrq].
  destruct (near_relative _ _ _ Hmx Hvx) as [Hpx Hrx].
  rewrite Hvh in Hrq.
  assert (Hn0 : 0 ≤ n).
  { destruct (Z.le_gt_cases 0 n) as [|Hneg]; [done|].
    assert (IZR n <= -1)%R by (apply IZR_le; lia). lra. }
  destruct (hundredth_chain (IZR h) (IZR (h + m)) (valueOf ms es) (valueOf mq eq)
              (valueOf mx ex) (IZR n)) as [Hlo Hhi]; try done.
  - apply IZR_lt. lia.
  - apply IZR_le. lia.
  - change 34359738368%R with (IZR (2 ^ 35)). by apply IZR_lt.
  - by apply IZR_le.
  - assert (Hlo' : - (h + m + 1) < 2 * n * (h + m) - 20000 * h).
    { apply lt_IZR. rewrite opp_IZR, minus_IZR, !mult_IZR, !plus_IZR in *. lra. }
    assert (Hhi' : 2 * n * (h + m) - 20000 * h < h + m + 1).
    { apply lt_IZR. rewrite minus_IZR, !mult_IZR, !plus_IZR in *. lra. }
    lia.
Qed.

(* ===================================================================== *)
(** ** Statistics *)
(* ===================================================================== *)

Lemma hitRateOf_unfold s :
  hitRateOf s = if 0 <? hits s
                then toFixed 2 (rateFloat (hits s) (misses s)) +:+ "%"
                else "0%".
Proof. reflexivity. Qed.

Lemma getStats_reportOf cm :
  getStats cm = foldl (λ stats cacheType, reportOf cm cacheType stats) ∅ cacheTypes.
Proof. reflexivity. Qed.

Lemma foldl_reportOf cm ct c hs types :
  caches cm !! ct = Some c →
  hitStats cm !! ct = Some hs →
  ∀ acc,
    foldl (λ stats cacheType, reportOf cm cacheType stats) acc types !! ct
    = if bool_decide (ct ∈ types)
      then Some (mkReport (length (ExpiringMap.keys c)) hs (hitRateOf hs))
      else acc !! ct.
Proof.
  intros Hc Hs. induction types as [|ty types IH]; intros acc; [done|].
  cbn [foldl]. rewrite IH.
  destruct (decide (ct = ty)) as [<-|Hne].
  - rewrite (bool_decide_eq_true_2 (ct ∈ ct :: types)) by apply list_elem_of_here.
    unfold reportOf. rewrite Hc, Hs, lookup_insert_eq.
    by destruct (bool_decide (ct ∈ types)).
  - assert (Heq : bool_decide (ct ∈ ty :: types) = bool_decide (ct ∈ types)).
    { apply bool_decide_ext. rewrite elem_of_cons.
      split; [by intros [?|?]|by right]. }
    rewrite Heq. destruct (bool_decide (ct ∈ types)); [done|].
    unfold reportOf.
    destruct (caches cm !! ty), (hitStats cm !! ty); try done.
    by rewrite lookup_insert_ne.
Qed.

(** [getStats] reports, for a configured cache type, its key count, its
    counters and the rate computed from them. *)
Lemma getStats_lookup cm ct c hs :
  ct ∈ cacheTypes →
  caches cm !! ct = Some c →
  hitStats cm !! ct = Some hs →
  getStats cm !! ct
    = Some (mkReport (length (ExpiringMap.keys c)) hs (hitRateOf hs)).
Proof.
  intros Hin Hc Hs.
  rewrite getStats_reportOf, (foldl_reportOf cm ct c hs cacheTypes Hc Hs).
  by rewrite bool_decide_eq_true_2.
Qed.

(** A positive finite double prints without a sign. *)
Lemma toFixed_positive f x mx e :
  Prim2SF x = S754_finite false mx e →
  toFixed f x = place_point f (nearest_scaled f x).
Proof. unfold toFixed. intros ->. apply append_nil_l. Qed.

Lemma length_append (s t : string) :
  String.length (s +:+ t) = (String.length s + String.length t)%nat.
Proof. induction s as [|a s IH]; [done|]. rewrite append_cons. cbn. by rewrite IH. Qed.

Lemma substring_append_l (s t : string) :
  String.substring 0 (String.length s) (s +:+ t) = s.
Proof. induction s as [|a s IH]; [by destruct t|]. rewrite append_cons. cbn. by rewrite IH. Qed.

Lemma substring_append_r (s t : string) :
  String.substring (String.length s) (String.length t) (s +:+ t) = t.
Proof.
  induction s as [|a s IH]; [|by rewrite append_cons].
  rewrite append_nil_l. cbn. induction t as [|b t IHt]; [done|]. cbn. by rewrite IHt.
Qed.

(** The digits [pretty] writes before an accumulator. *)
Lemma pretty_N_go_append (x : N) (s : string) :
  pretty_N_go x s = pretty_N_go x "" +:+ s.
Proof.
  revert s. induction (N.lt_wf_0 x) as [x _ IH]; intros s.
  destruct (decide (x = 0)%N) as [->|Hx]; [done|].
  assert (Hlt : (x `div` 10 < x)%N) by (apply N.div_lt; lia).
  rewrite !(pretty_N_go_step x) by lia.
  rewrite (IH _ Hlt (String _ s)), (IH _ Hlt (String _ "")).
  by rewrite append_assoc.
Qed.

(** The last digit of a positive number. *)
Lemma pretty_N_snoc (x : N) :
  (10 ≤ x)%N →
  pretty x = pretty (x `div` 10)%N +:+ String (pretty_N_char (x `mod` 10)) "".
Proof.
  intros Hx. unfold pretty, pretty_N.
  assert (0 < x `div` 10)%N by (apply N.div_str_pos; lia).
  rewrite !decide_False by lia.
  rewrite (pretty_N_go_step x) by lia. apply pretty_N_go_append.
Qed.

Lemma pretty_N_digit (x : N) :
  (x < 10)%N → pretty x = String (pretty_N_char x) "".
Proof.
  intros Hx.
  assert (x = 0 ∨ x = 1 ∨ x = 2 ∨ x = 3 ∨ x = 4 ∨ x = 5 ∨ x = 6 ∨ x = 7
          ∨ x = 8 ∨ x = 9)%N as Hc by lia.
  repeat destruct Hc as [->|Hc]; try subst x; reflexivity.
Qed.

Lemma pretty_Z_N (n : Z) : 0 ≤ n → pretty n = pretty (Z.to_N n).
Proof. destruct n; [done|done|lia]. Qed.

Lemma to_N_div10 (n : Z) : 0 ≤ n → (Z.to_N n `div` 10)%N = Z.to_N (n / 10).
Proof.
  intros Hn. change 10%N with (Z.to_N 10). symmetry. apply Z2N.inj_div; lia.
Qed.

Lemma to_N_mod10 (n : Z) : 0 ≤ n → (Z.to_N n `mod` 10)%N = Z.to_N (n mod 10).
Proof.
  intros Hn. change 10%N with (Z.to_N 10). symmetry. apply Z2N.inj_mod; lia.
Qed.

(** A number of at least 100 is written as its hundreds followed by its
    last two digits. *)
Lemma pretty_hundreds (n : Z) :
  100 ≤ n →
  pretty n = pretty (n / 100) +:+ pretty (n / 10 mod 10) +:+ pretty (n mod 10).
Proof.
  intros Hn.
  assert (H10 : 0 ≤ n / 10 mod 10 < 10) by (apply Z.mod_pos_bound; lia).
  assert (H1 : 0 ≤ n mod 10 < 10) by (apply Z.mod_pos_bound; lia).
  assert (Hq : 1 ≤ n / 100) by (apply Z.div_le_lower_bound; lia).
  rewrite !pretty_Z_N by lia.
  rewrite (pretty_N_digit (Z.to_N (n / 10 mod 10))) by lia.
  rewrite (pretty_N_digit (Z.to_N (n mod 10))) by lia.
  rewrite (pretty_N_snoc (Z.to_N n)) by lia.
  rewrite to_N_div10, to_N_mod10 by lia.
  assert (Hn10 : 10 ≤ n / 10) by (apply Z.div_le_lower_bound; lia).
  rewrite (pretty_N_snoc (Z.to_N (n / 10))) by lia.
  rewrite to_N_div10, to_N_mod10 by lia.
  rewrite Z.div_div by lia. change (10 * 10) with 100.
  by rewrite append_assoc.
Qed.

Lemma pretty_length_pos (n : Z) : 1 ≤ n → (1 ≤ String.length (pretty n))%nat.
Proof.
  intros Hn. rewrite pretty_Z_N by lia.
  destruct (decide (Z.to_N n < 10)%N).
  - by rewrite pretty_N_digit.
  - rewrite pretty_N_snoc, length_append by lia. cbn. lia.
Qed.

(** The text [toFixed(2)] gives for the numbers of hundredths below
    100, checked one by one. *)
Lemma place_point_2_small :
  forallb (λ i : nat,
             String.eqb (place_point 2 (Z.of_nat i))
                        (pretty (Z.of_nat i / 100) +:+ "."
                         +:+ pretty (Z.of_nat i / 10 mod 10)
                         +:+ pretty (Z.of_nat i mod 10)))
          (seq 0 100) = true.
Proof. vm_compute. reflexivity. Qed.

(** The text [toFixed(2)] gives for a number of hundredths: the integer
    part in decimal, a point, and the two digits of the hundredths. *)
Lemma place_point_2_text n :
  0 ≤ n →
  place_point 2 n
  = pretty (n / 100) +:+ "." +:+ pretty (n / 10 mod 10) +:+ pretty (n mod 10).
Proof.
  intros Hn. destruct (Z.lt_ge_cases n 100) as [Hsmall|Hbig].
  - pose proof place_point_2_small as Htab.
    rewrite forallb_forall in Htab.
    specialize (Htab (Z.to_nat n)). rewrite Z2Nat.id in Htab by lia.
    apply String.eqb_eq, Htab, in_seq. lia.
  - assert (H10 : 0 ≤ n / 10 mod 10 < 10) by (apply Z.mod_pos_bound; lia).
    assert (H1 : 0 ≤ n mod 10 < 10) by (apply Z.mod_pos_bound; lia).
    assert (Hq : 1 ≤ n / 100) by (apply Z.div_le_lower_bound; lia).
    pose proof (pretty_length_pos _ Hq) as Hlen.
    set (tail := pretty (n / 10 mod 10) +:+ pretty (n mod 10)).
    assert (Htail : String.length tail = 2%nat).
    { unfold tail. rewrite !pretty_Z_N, !pretty_N_digit by lia. done. }
    unfold place_point. rewrite (pretty_hundreds n Hbig). fold tail.
    rewrite length_append, Htail.
    rewrite (bool_decide_eq_false_2 (2 = 0)%nat) by lia.
    rewrite (bool_decide_eq_false_2
               (String.length (pretty (n / 100)%Z) + 2 ≤ 2)%nat) by lia.
    rewrite length_append, Htail.
    replace (String.length (pretty (n / 100)%Z) + 2 - 2)%nat
      with (String.length (pretty (n / 100)%Z)) by lia.
    rewrite substring_append_l.
    rewrite <- Htail at 1. by rewrite substring_append_r.
Qed.

(** A hundredth within half a hundredth of a percentage lies between
    0 and 10000. *)
Lemma hundredth_in_range h m n :
  0 < h → 0 ≤ m →
  Z.abs (2 * n * (h + m) - 20000 * h) ≤ h + m →
  0 ≤ n ≤ 10000.
Proof.
  intros Hh Hm Hn. apply Z.abs_le in Hn as [Hlo Hhi]. split.
  - destruct (Z.le_gt_cases 0 n) as [|Hneg]; [done|]. nia.
  - destruct (Z.le_gt_cases n 10000) as [|Hbig]; [done|]. nia.
Qed.

(** C6.  For every configured cache type, with counters in the range
    where [++] is exact, [getStats()] reports a rate computed from its
    [hits] and [misses]: ["0%"] when there was no lookup
    ([hits + misses = 0]) and whenever there was no hit; otherwise the
    double [hits / (hits + misses) * 100] printed with two decimals and
    a percent sign.  That is ["75.00%"] after 3 hits and 1 miss and, in
    general, for fewer than 2^35 lookups, the text of a number [n] of
    hundredths nearest to the exact percentage
    [100 hits / (hits + misses)]: the decimal digits of [n / 100], a
    point, the tens digit and the units digit of [n], and the percent
    sign.  The last clause gives the text for six more pairs of
    counters. *)
Theorem getStats_hitRate cm ct c hs :
  ct ∈ cacheTypes →
  caches cm !! ct = Some c →
  hitStats cm !! ct = Some hs →
  0 ≤ hits hs < 2 ^ 53 →
  0 ≤ misses hs < 2 ^ 53 →
  ∃ report,
    getStats cm !! ct = Some report
    ∧ report_hitStats report = hs
    ∧ (hits hs + misses hs = 0 → hitRate report = "0%")
    ∧ (hits hs = 0 → hitRate report = "0%")
    ∧ (0 < hits hs →
       hitRate report = toFixed 2 (rateFloat (hits hs) (misses hs)) +:+ "%")
    ∧ (hits hs = 3 → misses hs = 1 → hitRate report = "75.00%")
    ∧ (0 < hits hs → hits hs + misses hs < 2 ^ 35 →
       ∃ n, 0 ≤ n ≤ 10000
            ∧ hitRate report
              = pretty (n / 100) +:+ "." +:+ pretty (n / 10 mod 10)
                +:+ pretty (n mod 10) +:+ "%"
            ∧ Z.abs (2 * n * (hits hs + misses hs) - 20000 * hits hs)
              ≤ hits hs + misses hs)
    ∧ ((hits hs = 1 → misses hs = 0 → hitRate report = "100.00%")
       ∧ (hits hs = 1 → misses hs = 1 → hitRate report = "50.00%")
       ∧ (hits hs = 1 → misses hs = 2 → hitRate report = "33.33%")
       ∧ (hits hs = 2 → misses hs = 1 → hitRate report = "66.67%")
       ∧ (hits hs = 1 → misses hs = 9999 → hitRate report = "0.01%")
       ∧ (hits hs = 1 → misses hs = 99999 → hitRate report = "0.00%")).
Proof.
  intros Hin Hc Hs Hh Hm. eexists. split; [by apply getStats_lookup|].
  cbn [report_hitStats hitRate]. rewrite hitRateOf_unfold.
  split; [done|]. split; [|split; [|split; [|split; [|split]]]].
  - intros Hz. assert (hits hs = 0) as -> by lia. done.
  - by intros ->.
  - intros Hpos. by rewrite (proj2 (Z.ltb_lt _ _) Hpos).
  - intros -> ->. vm_compute. reflexivity.
  - intros Hpos Hb. rewrite (proj2 (Z.ltb_lt _ _) Hpos).
    destruct (rateFloat_accurate _ _ Hpos (proj1 Hm) Hb) as (mx & e & Hx & Hn).
    pose proof (hundredth_in_range _ _ _ Hpos (proj1 Hm) Hn) as Hrange.
    rewrite (toFixed_positive 2 _ _ _ Hx), (place_point_2_text _ (proj1 Hrange)).
    eexists. split; [exact Hrange|]. split; [|exact Hn].
    by rewrite !append_assoc.
  - repeat split; intros -> ->; vm_compute; reflexivity.
Qed.

(** The report after three hits and one miss on [players]. *)
Lemma getStats_hitRate_witness :
  hitRate <$> getStats threeHitsOneMiss !! "players" = Some "75.00%".
Proof.
  destruct (getStats_hitRate threeHitsOneMiss "players"
              (cacheOf "players" threeHitsOneMiss) (mkStats 3 1 1 0 0))
    as (report & -> & _ & _ & _ & _ & H75 & _).
  - apply (bool_decide_eq_true_1 ("players" ∈ cacheTypes)). vm_compute. reflexivity.
  - vm_compute. reflexivity.
  - vm_compute. reflexivity.
  - cbn. lia.
  - cbn. lia.
  - cbn. f_equal. by apply H75.
Defined.
(* ===================================================================== *)
(** ** The generic operations: what they touch and what they count *)
(* ===================================================================== *)

Lemma lookupCache_OwnCache cm ct c :
  lookupCache cm ct = OwnCache c → caches cm !! ct = Some c.
Proof.
  unfold lookupCache. destruct (caches cm !! ct); [by intros [= ->]|].
  by case_bool_decide.
Qed.

Lemma lookupCache_not_own cm ct :
  caches cm !! ct = None →
  lookupCache cm ct = if bool_decide (ct ∈ objectPrototypeKeys)
                      then Inherited else NoProperty.
Proof. unfold lookupCache. by intros ->. Qed.

(** What [lookupCache] answers depends on the caches only. *)
Lemma lookupCache_ext cm cm' ct :
  caches cm' !! ct = caches cm !! ct → lookupCache cm' ct = lookupCache cm ct.
Proof. unfold lookupCache. by intros ->. Qed.

(** [del] on a configured cache type, in one equation. *)
Lemma del_own ct key cm c :
  caches cm !! ct = Some c →
  del ct key cm =
    let '(c', deleted) := ExpiringMap.del key c in
    let cm' := storeCache ct c' cm in
    if 0 <? deleted then (recordHit ct Deletes cm', Return deleted)
    else (cm', Return deleted).
Proof. intros H. unfold del. by rewrite (lookupCache_own _ _ _ H). Qed.

(** X1.  [get], [set] and [del] on one cache type leave the map and the
    counters of every other cache type exactly as they were, whatever the
    first type is (configured or not). *)
Theorem operations_touch_one_cache_type now ct key value ttl other cm :
  other ≠ ct →
  (caches (get now ct key cm).1 !! other = caches cm !! other
   ∧ hitStats (get now ct key cm).1 !! other = hitStats cm !! other)
  ∧ (caches (set now ct key value ttl cm).1 !! other = caches cm !! other
     ∧ hitStats (set now ct key value ttl cm).1 !! other = hitStats cm !! other)
  ∧ (caches (del ct key cm).1 !! other = caches cm !! other
     ∧ hitStats (del ct key cm).1 !! other = hitStats cm !! other).
Proof.
  intros Hne. split; [|split].
  - unfold get. destruct (lookupCache cm ct) as [c| |]; [|done|done].
    destruct (ExpiringMap.get now key c) as [c' r].
    destruct (is_undefined (default JUndefined r)); cbn;
      by rewrite lookup_insert_ne, lookup_alter_ne.
  - unfold set. destruct (lookupCache cm ct) as [c| |]; [|done|done].
    destruct (if ttl_truthy ttl then _ else _) as [[c' success] evs].
    destruct success; cbn;
      rewrite ?caches_emit, ?hitStats_emit, ?lookup_alter_ne by done; cbn;
      by rewrite lookup_insert_ne.
  - unfold del. destruct (lookupCache cm ct) as [c| |]; [|done|done].
    destruct (ExpiringMap.del key c) as [c' deleted].
    destruct (0 <? deleted); cbn;
      by rewrite lookup_insert_ne, ?lookup_alter_ne.
Qed.

(** A [set] on [sessions] leaves [players] alone. *)
Lemma operations_touch_one_cache_type_witness :
  caches (set 0 "sessions" "session:1" (JObj 1) (Some 1800) constructor).1 !! "players"
    = caches constructor !! "players"
  ∧ hitStats (set 0 "sessions" "session:1" (JObj 1) (Some 1800) constructor).1 !! "players"
    = hitStats constructor !! "players".
Proof.
  destruct (operations_touch_one_cache_type 0 "sessions" "session:1" (JObj 1)
              (Some 1800) "players" constructor) as (_ & Hset & _).
  - discriminate.
  - exact Hset.
Defined.

(** The entries a [set] on a configured type leaves under the other keys. *)
Lemma set_entries_other now ct key value ttl cm c :
  caches cm !! ct = Some c →
  ∃ c', caches (set now ct key value ttl cm).1 !! ct = Some c'
    ∧ ∀ k, k ≠ key → ExpiringMap.entries c' !! k = ExpiringMap.entries c !! k.
Proof.
  intros Hc. rewrite (set_own _ _ _ _ _ _ _ Hc).
  destruct (ExpiringMap.set now key value _ c) as [[c' success] evs] eqn:Hset.
  exists c'. split.
  - destruct success; cbn;
      by rewrite ?caches_recordHit, caches_emit, caches_storeCache, lookup_insert_eq.
  - destruct success.
    + by apply ExpiringMap_set_true in Hset as (_ & Ho & _).
    + by apply ExpiringMap_set_false in Hset as (_ & _ & -> & _).
Qed.

Lemma del_entries ct key cm c :
  caches cm !! ct = Some c →
  ∃ c', caches (del ct key cm).1 !! ct = Some c'
    ∧ ExpiringMap.entries c' = delete key (ExpiringMap.entries c).
Proof.
  intros Hc. rewrite (del_own _ _ _ _ Hc).
  pose proof (ExpiringMap_del_entries key c) as He.
  destruct (ExpiringMap.del key c) as [c' deleted]. exists c'. split; [|done].
  destruct (0 <? deleted); cbn; by rewrite lookup_insert_eq.
Qed.

(** The result of [get] is read off the caches alone. *)
Lemma get_result_ext now ct key cm cm' :
  caches cm' !! ct = caches cm !! ct →
  (get now ct key cm').2 = (get now ct key cm).2.
Proof.
  intros Heq. destruct (caches cm !! ct) as [c|] eqn:Hc.
  - by rewrite (get_result _ _ _ _ _ Heq), (get_result _ _ _ _ _ Hc).
  - unfold get. rewrite (lookupCache_not_own _ _ Hc), (lookupCache_not_own _ _ Heq).
    by case_bool_decide.
Qed.

(** X2.  [set] and [del] of one key leave what [get] returns for every
    other key of the cache type as it was, at any later time. *)
Theorem set_and_del_keep_other_keys now later ct key other value ttl cm :
  other ≠ key →
  (get later ct other (set now ct key value ttl cm).1).2 = (get later ct other cm).2
  ∧ (get later ct other (del ct key cm).1).2 = (get later ct other cm).2.
Proof.
  intros Hne. destruct (caches cm !! ct) as [c|] eqn:Hc.
  - destruct (set_entries_other now ct key value ttl cm c Hc) as (c1 & Hc1 & He1).
    destruct (del_entries ct key cm c Hc) as (c2 & Hc2 & He2).
    rewrite (get_result _ _ _ _ _ Hc1), (get_result _ _ _ _ _ Hc2),
      (get_result _ _ _ _ _ Hc), (He1 _ Hne), He2.
    by rewrite lookup_delete_ne.
  - split; apply get_result_ext; rewrite Hc.
    + unfold set. rewrite (lookupCache_not_own _ _ Hc).
      by case_bool_decide.
    + unfold del. rewrite (lookupCache_not_own _ _ Hc).
      by case_bool_decide.
Qed.

(** Caching a second player does not disturb the first. *)
Lemma set_and_del_keep_other_keys_witness :
  let cm := (set 0 "players" "player:a" (JObj 1) None constructor).1 in
  (get 5 "players" "player:a" (set 1 "players" "player:b" (JObj 2) None cm).1).2
    = Return (JObj 1).
Proof.
  intros cm.
  destruct (set_and_del_keep_other_keys 1 5 "players" "player:b" "player:a"
              (JObj 2) None cm) as [-> _]; [discriminate|].
  vm_compute. reflexivity.
Defined.

(** X3.  Every [get] on a configured cache type is counted exactly once,
    in [hits] or in [misses], and leaves the other three counters alone:
    it adds one to [hits] when the key holds a live value other than
    [undefined], and one to [misses] when the key is not stored or its
    entry has expired.  (Which of the two a live stored [undefined] is
    counted in is left open.) *)
Theorem get_counts_once now ct key cm c hs :
  caches cm !! ct = Some c →
  hitStats cm !! ct = Some hs →
  ∃ hs',
    hitStats (get now ct key cm).1 !! ct = Some hs'
    ∧ ((hits hs' = hits hs + 1 ∧ misses hs' = misses hs)
       ∨ (hits hs' = hits hs ∧ misses hs' = misses hs + 1))
    ∧ (liveValue now (ExpiringMap.entries c !! key) →
       hits hs' = hits hs + 1 ∧ misses hs' = misses hs)
    ∧ ((∀ e, ExpiringMap.entries c !! key = Some e →
             ExpiringMap.expiresAt e ≤ now) →
       hits hs' = hits hs ∧ misses hs' = misses hs + 1)
    ∧ sets hs' = sets hs ∧ deletes hs' = deletes hs ∧ flushes hs' = flushes hs.
Proof.
  intros Hc Hs. rewrite (get_own _ _ _ _ _ Hc).
  unfold ExpiringMap.get, liveValue.
  destruct (ExpiringMap.entries c !! key) as [e|] eqn:He.
  - destruct (Z.leb_spec (ExpiringMap.expiresAt e) now) as [Hexp|Hlive]; cbn.
    + rewrite lookup_alter_eq, Hs. cbn. eexists. split; [done|]. cbn.
      split; [by right|]. split; [|done].
      intros (e' & [= <-] & ? & _). lia.
    + destruct (ExpiringMap.value e) eqn:Hv; cbn;
        rewrite lookup_alter_eq, Hs; cbn; (eexists; split; [done|]); cbn;
        (split; [by (left + right)|]);
        (split; [try done; intros (e' & [= <-] & _ & Hu); congruence|]);
        (split; [|done]); intros Hall; specialize (Hall e eq_refl); lia.
  - cbn. rewrite lookup_alter_eq, Hs. cbn. eexists. split; [done|]. cbn.
    split; [by right|]. split; [|done]. by intros (e' & [=] & _).
Qed.

(** A lookup of a player that was never cached is one miss. *)
Lemma get_counts_once_witness :
  ∃ hs', hitStats (get 0 "players" "player:a" constructor).1 !! "players" = Some hs'
         ∧ hits hs' = 0 ∧ misses hs' = 1.
Proof.
  destruct (get_counts_once 0 "players" "player:a" constructor
              (ExpiringMap.create 300 60 10000) (mkStats 0 0 0 0 0))
    as (hs' & Hs & _ & _ & Hmiss & _); [reflexivity|reflexivity|].
  exists hs'. split; [exact Hs|]. apply Hmiss. intros e [=].
Defined.

(** X4.  [del] on a configured cache type returns 1 and counts one
    delete when the key is stored, returns 0 and counts nothing when it
    is not; either way the key is gone afterwards: [get] reports a miss,
    and a second [del] returns 0 and counts nothing. *)
Theorem del_removes_and_counts now ct key cm c hs :
  caches cm !! ct = Some c →
  hitStats cm !! ct = Some hs →
  let stored := bool_decide (is_Some (ExpiringMap.entries c !! key)) in
  (del ct key cm).2 = Return (if stored then 1 else 0)
  ∧ hitStats (del ct key cm).1 !! ct = Some (if stored then bump Deletes hs else hs)
  ∧ (get now ct key (del ct key cm).1).2 = Return JNull
  ∧ (del ct key (del ct key cm).1).2 = Return 0
  ∧ hitStats (del ct key (del ct key cm).1).1 = hitStats (del ct key cm).1.
Proof.
  intros Hc Hs stored.
  destruct (del_entries ct key cm c Hc) as (c1 & Hc1 & He1).
  assert (Hgone : ExpiringMap.entries c1 !! key = None)
    by (rewrite He1; apply lookup_delete_eq).
  assert (Hfirst : (del ct key cm).2 = Return (if stored then 1 else 0)
                   ∧ hitStats (del ct key cm).1 !! ct
                     = Some (if stored then bump Deletes hs else hs)).
  { subst stored. rewrite (del_own _ _ _ _ Hc). unfold ExpiringMap.del.
    destruct (ExpiringMap.entries c !! key) as [e|] eqn:Hk; cbn.
    - by rewrite lookup_alter_eq, Hs.
    - done. }
  destruct Hfirst as [Hr Hh]. split; [done|]. split; [done|]. split; [|split].
  - by rewrite (get_result _ _ _ _ _ Hc1), Hgone.
  - rewrite (del_own _ _ _ _ Hc1). unfold ExpiringMap.del. by rewrite Hgone.
  - rewrite (del_own _ _ _ _ Hc1). unfold ExpiringMap.del. by rewrite Hgone.
Qed.

(** Invalidating a cached player, twice. *)
Lemma del_removes_and_counts_witness :
  let cm := (set 0 "players" "player:a" (JObj 1) None constructor).1 in
  (del "players" "player:a" cm).2 = Return 1
  ∧ (get 1 "players" "player:a" (del "players" "player:a" cm).1).2 = Return JNull
  ∧ (del "players" "player:a" (del "players" "player:a" cm).1).2 = Return 0.
Proof.
  intros cm.
  destruct (del_removes_and_counts 1 "players" "player:a" cm
              (cacheOf "players" cm) (mkStats 0 0 1 0 0))
    as (Hr & _ & Hg & Hd & _).
  - vm_compute. reflexivity.
  - vm_compute. reflexivity.
  - split; [exact Hr|]. split; [exact Hg|exact Hd].
Defined.

(* ===================================================================== *)
(** ** Time to live *)
(* ===================================================================== *)

(** X5.  A value that [set] stored on a configured cache type is what
    [get] returns at every time before [now + ttl], and [get] returns
    [null] from then on, removing the entry at that first late lookup.
    The time to live is the [ttl] argument when that is a non-zero
    number, and the default of the cache type when it is 0, [null] or
    left out. *)
Theorem set_then_get_until_expiry now later cm ct c key value ttl cm1 :
  caches cm !! ct = Some c →
  value ≠ JUndefined →
  set now ct key value ttl cm = (cm1, Return true) →
  (get later ct key cm1).2
    = Return (if later <? now + effectiveTTL c ttl then value else JNull)
  ∧ (now + effectiveTTL c ttl ≤ later →
     ∃ c2, caches (get later ct key cm1).1 !! ct = Some c2
           ∧ ExpiringMap.entries c2 !! key = None).
Proof.
  intros Hc Hv. rewrite (set_own _ _ _ _ _ _ _ Hc).
  destruct (ExpiringMap.set now key value _ c) as [[c' success] evs] eqn:Hset.
  cbn. destruct success; intros [= <-].
  apply ExpiringMap_set_true in Hset as (He & _ & _ & _).
  assert (Hexp : now + default (ExpiringMap.defaultTTL c)
                         (if ttl_truthy ttl then ttl else None)
                 = now + effectiveTTL c ttl).
  { unfold effectiveTTL. by destruct (ttl_truthy ttl). }
  rewrite Hexp in He.
  assert (Hc' : caches (recordHit ct Sets (emit ct evs (storeCache ct c' cm))) !! ct
                = Some c').
  { rewrite caches_recordHit, caches_emit, caches_storeCache.
    apply lookup_insert_eq. }
  split.
  - rewrite (get_result _ _ _ _ _ Hc'), He. cbn.
    destruct (Z.leb_spec (now + effectiveTTL c ttl) later),
             (Z.ltb_spec later (now + effectiveTTL c ttl)); try lia; [done|].
    by destruct value.
  - intros Hlate. rewrite (get_own _ _ _ _ _ Hc'). unfold ExpiringMap.get.
    rewrite He. cbn [ExpiringMap.expiresAt].
    rewrite (proj2 (Z.leb_le _ _) Hlate). cbn.
    eexists. rewrite lookup_insert_eq. split; [done|]. cbn.
    apply lookup_delete_eq.
Qed.

(** A player cached with [ttl] 0 lives for the 300 seconds of the
    [players] type. *)
Lemma set_then_get_until_expiry_witness :
  let cm1 := (set 10 "players" "player:a" (JObj 1) (Some 0) constructor).1 in
  (get 309 "players" "player:a" cm1).2 = Return (JObj 1)
  ∧ (get 310 "players" "player:a" cm1).2 = Return JNull.
Proof.
  intros cm1. split.
  - apply (set_then_get_until_expiry 10 309 constructor "players"
             (ExpiringMap.create 300 60 10000) "player:a" (JObj 1) (Some 0) cm1).
    + reflexivity.
    + discriminate.
    + reflexivity.
  - apply (set_then_get_until_expiry 10 310 constructor "players"
             (ExpiringMap.create 300 60 10000) "player:a" (JObj 1) (Some 0) cm1).
    + reflexivity.
    + discriminate.
    + reflexivity.
Defined.

(** X6.  [incrementRateLimit] on an identifier that has a stored count
    of the safe range: while the entry is live the count goes up by
    one, once it has expired the count starts again at 1; in both cases
    the entry now expires [ttl] seconds after this call, so the window
    slides with every counted request. *)
Theorem incrementRateLimit_slides_or_restarts now identifier ttl cm c n ex :
  caches cm !! "rateLimit" = Some c →
  ExpiringMap.entries c !! rateKey identifier
    = Some (ExpiringMap.mkEntry (JNum n) ex) →
  Z.abs n < 2 ^ 53 →
  Z.of_nat (size (ExpiringMap.entries c)) ≤ ExpiringMap.maxEntries c →
  ExpiringMap.entries (cacheOf "rateLimit" (incrementRateLimit now identifier ttl cm).1)
    !! rateKey identifier
  = Some (ExpiringMap.mkEntry (JNum (if ex <=? now then 1 else n + 1))
            (now + effectiveTTL c (rateLimitTTL ttl))).
Proof.
  intros Hc He _ Hsize.
  assert (Hprev : previousCount now c (rateKey identifier)
                  = Some (if ex <=? now then 0 else n)).
  { unfold previousCount, ExpiringMap.get. rewrite He. cbn.
    by destruct (ex <=? now). }
  destruct (incrementRateLimit_step now identifier ttl cm c _ Hc Hprev Hsize)
    as (cm' & c' & -> & Hc' & He' & _).
  { by rewrite He. }
  unfold cacheOf. cbn [fst]. rewrite Hc'. cbn. rewrite He'.
  by destruct (ex <=? now).
Qed.

(** A client counted at time 0 comes back well after its hour has
    passed, and again ten seconds later. *)
Lemma incrementRateLimit_slides_or_restarts_witness :
  let once := (incrementRateLimit 0 "requests:10.0.0.1" TtlOmitted constructor).1 in
  let again := (incrementRateLimit 4000 "requests:10.0.0.1" TtlOmitted once).1 in
  ExpiringMap.entries (cacheOf "rateLimit" again) !! rateKey "requests:10.0.0.1"
    = Some (ExpiringMap.mkEntry (JNum 1) 7600)
  ∧ ExpiringMap.entries
      (cacheOf "rateLimit"
         (incrementRateLimit 4010 "requests:10.0.0.1" TtlOmitted again).1)
      !! rateKey "requests:10.0.0.1"
    = Some (ExpiringMap.mkEntry (JNum 2) 7610).
Proof.
  intros once again. split.
  - apply (incrementRateLimit_slides_or_restarts 4000 "requests:10.0.0.1" TtlOmitted
             once (cacheOf "rateLimit" once) 1 3600).
    + vm_compute. reflexivity.
    + vm_compute. reflexivity.
    + vm_compute. reflexivity.
    + vm_compute. discriminate.
  - apply (incrementRateLimit_slides_or_restarts 4010 "requests:10.0.0.1" TtlOmitted
             again (cacheOf "rateLimit" again) 1 7600).
    + vm_compute. reflexivity.
    + vm_compute. reflexivity.
    + vm_compute. reflexivity.
    + vm_compute. discriminate.
Defined.

(* ===================================================================== *)
(** ** Flushing: [invalidateLeaderboards] and [cleanup] *)
(* ===================================================================== *)

(** X7.  [invalidateLeaderboards] empties the [leaderboards] cache:
    afterwards [getLeaderboard] returns [null] for every type and limit.
    It counts one flush, keeps the settings of the cache, and leaves
    every other cache type and its counters alone. *)
Theorem invalidateLeaderboards_clears cm c hs :
  caches cm !! "leaderboards" = Some c →
  hitStats cm !! "leaderboards" = Some hs →
  ∃ cm' c',
    invalidateLeaderboards cm = (cm', Return ())
    ∧ (∀ now type limit, (getLeaderboard now type limit cm').2 = Return JNull)
    ∧ caches cm' !! "leaderboards" = Some c'
    ∧ ExpiringMap.entries c' = ∅
    ∧ ExpiringMap.defaultTTL c' = ExpiringMap.defaultTTL c
    ∧ ExpiringMap.maxEntries c' = ExpiringMap.maxEntries c
    ∧ hitStats cm' !! "leaderboards" = Some (bump Flushes hs)
    ∧ (∀ other, other ≠ "leaderboards" →
         caches cm' !! other = caches cm !! other
         ∧ hitStats cm' !! other = hitStats cm !! other).
Proof.
  intros Hc Hs. unfold invalidateLeaderboards. rewrite Hc. cbn.
  eexists _, _. split; [reflexivity|].
  assert (Hc' : caches (recordHit "leaderboards" Flushes
                   (logger LInfo "Cache FLUSH: leaderboards"
                      (storeCache "leaderboards"
                         (ExpiringMap.with_entries ∅ c) cm))) !! "leaderboards"
                = Some (ExpiringMap.with_entries ∅ c))
    by apply lookup_insert_eq.
  split; [|split; [exact Hc'|]].
  - intros now type limit. unfold getLeaderboard.
    by rewrite (get_result _ _ _ _ _ Hc').
  - cbn. rewrite lookup_alter_eq, Hs. repeat split; try done.
    + by rewrite lookup_insert_ne.
    + by rewrite lookup_alter_ne.
Qed.

(** A cached leaderboard is gone after the invalidation. *)
Lemma invalidateLeaderboards_clears_witness :
  let cm := (setLeaderboard 0 "total_score" (LimitNumber 100) (JObj 1) (Some 600)
               constructor).1 in
  (getLeaderboard 1 "total_score" LimitOmitted cm).2 = Return (JObj 1)
  ∧ (getLeaderboard 1 "total_score" LimitOmitted (invalidateLeaderboards cm).1).2
    = Return JNull.
Proof.
  intros cm. split; [vm_compute; reflexivity|].
  destruct (invalidateLeaderboards_clears cm (cacheOf "leaderboards" cm)
              (mkStats 0 0 1 0 0)) as (cm' & c' & -> & Hget & _).
  - vm_compute. reflexivity.
  - vm_compute. reflexivity.
  - apply Hget.
Defined.

Lemma foldl_insert_lookup {A : Type} (z : A) (l : list string) (m : gmap string A) ct :
  foldl (λ hs cacheType, <[cacheType := z]> hs) m l !! ct
  = if bool_decide (ct ∈ l) then Some z else m !! ct.
Proof.
  revert m. induction l as [|x l IH]; intros m; [done|].
  cbn [foldl]. rewrite IH.
  destruct (decide (ct = x)) as [->|Hne].
  - rewrite (bool_decide_eq_true_2 (x ∈ x :: l)) by apply list_elem_of_here.
    rewrite lookup_insert_eq. by destruct (bool_decide (x ∈ l)).
  - assert (Heq : bool_decide (ct ∈ x :: l) = bool_decide (ct ∈ l)).
    { apply bool_decide_ext. rewrite elem_of_cons.
      split; [by intros [?|?]|by right]. }
    rewrite Heq, lookup_insert_ne by done. done.
Qed.

(** The loop of [cleanup] over a list of cache types. *)
Lemma foldl_flush_lookup (l : list string) cm ct :
  caches (foldl (λ cm cacheType,
            match caches cm !! cacheType with
            | Some c =>
                let '(c', evs) := ExpiringMap.flushAll c in
                recordHit cacheType Flushes
                  (emit cacheType evs (storeCache cacheType c' cm))
            | None => cm
            end) cm l) !! ct
  = if bool_decide (ct ∈ l)
    then ExpiringMap.with_entries ∅ <$> caches cm !! ct
    else caches cm !! ct.
Proof.
  revert cm. induction l as [|x l IH]; intros cm; [done|].
  cbn [foldl]. rewrite IH.
  assert (Hstep : ∀ k,
    caches (match caches cm !! x with
            | Some c =>
                let '(c', evs) := ExpiringMap.flushAll c in
                recordHit x Flushes (emit x evs (storeCache x c' cm))
            | None => cm
            end) !! k
    = if bool_decide (k = x)
      then ExpiringMap.with_entries ∅ <$> caches cm !! k
      else caches cm !! k).
  { intros k. destruct (decide (k = x)) as [->|Hk].
    - rewrite bool_decide_eq_true_2 by done.
      destruct (caches cm !! x) as [c|] eqn:Hx; cbn.
      + by rewrite lookup_insert_eq.
      + by rewrite Hx.
    - rewrite bool_decide_eq_false_2 by done.
      destruct (caches cm !! x) as [c|] eqn:Hx; cbn; [|done].
      by rewrite lookup_insert_ne. }
  rewrite Hstep.
  destruct (decide (ct = x)) as [->|Hne].
  - rewrite (bool_decide_eq_true_2 (x = x)) by done.
    rewrite (bool_decide_eq_true_2 (x ∈ x :: l)) by apply list_elem_of_here.
    destruct (bool_decide (x ∈ l)); [|done].
    by destruct (caches cm !! x).
  - rewrite (bool_decide_eq_false_2 (ct = x)) by done.
    assert (Heq : bool_decide (ct ∈ x :: l) = bool_decide (ct ∈ l)).
    { apply bool_decide_ext. rewrite elem_of_cons.
      split; [by intros [?|?]|by right]. }
    by rewrite Heq.
Qed.

(** X8.  After [cleanup], every configured cache type is empty with its
    settings kept, and all five of its counters are 0; the flush that
    [cleanup] itself records for the type is reset with the rest.
    [getStats] then reports 0 keys and a hit rate of ["0%"]. *)
Theorem cleanup_resets cm ct c :
  ct ∈ cacheTypes →
  caches cm !! ct = Some c →
  caches (cleanup cm) !! ct = Some (ExpiringMap.with_entries ∅ c)
  ∧ hitStats (cleanup cm) !! ct = Some (mkStats 0 0 0 0 0)
  ∧ getStats (cleanup cm) !! ct = Some (mkReport 0 (mkStats 0 0 0 0 0) "0%").
Proof.
  intros Hin Hc.
  assert (Hcs : caches (cleanup cm) !! ct = Some (ExpiringMap.with_entries ∅ c)).
  { unfold cleanup. cbn zeta. rewrite caches_logger.
    unfold setupStatsTracking. cbn [caches].
    rewrite foldl_flush_lookup, bool_decide_eq_true_2 by done.
    by rewrite Hc. }
  assert (Hhs : hitStats (cleanup cm) !! ct = Some (mkStats 0 0 0 0 0)).
  { unfold cleanup. cbn zeta. rewrite hitStats_logger.
    unfold setupStatsTracking. cbn [hitStats].
    by rewrite foldl_insert_lookup, bool_decide_eq_true_2. }
  split; [done|]. split; [done|].
  by rewrite (getStats_lookup _ _ _ _ Hin Hcs Hhs).
Qed.

(** Three hits and a miss on [players] are forgotten by [cleanup]. *)
Lemma cleanup_resets_witness :
  getStats (cleanup threeHitsOneMiss) !! "players"
    = Some (mkReport 0 (mkStats 0 0 0 0 0) "0%").
Proof.
  apply (cleanup_resets threeHitsOneMiss "players" (cacheOf "players" threeHitsOneMiss)).
  - apply (bool_decide_eq_true_1 ("players" ∈ cacheTypes)). vm_compute. reflexivity.
  - vm_compute. reflexivity.
Defined.

(* ===================================================================== *)
(** ** The typed accessors *)
(* ===================================================================== *)

(** The entry a successful [set] leaves under its key. *)
Lemma set_true_entry now ct key value ttl cm c cm1 :
  caches cm !! ct = Some c →
  set now ct key value ttl cm = (cm1, Return true) →
  ∃ c', caches cm1 !! ct = Some c'
    ∧ ExpiringMap.entries c' !! key
      = Some (ExpiringMap.mkEntry value (now + effectiveTTL c ttl)).
Proof.
  intros Hc. rewrite (set_own _ _ _ _ _ _ _ Hc).
  destruct (ExpiringMap.set now key value _ c) as [[c' success] evs] eqn:Hset.
  cbn. destruct success; intros [= <-].
  apply ExpiringMap_set_true in Hset as (He & _ & _ & _).
  exists c'. split.
  - rewrite caches_recordHit, caches_emit, caches_storeCache.
    apply lookup_insert_eq.
  - rewrite He. unfold effectiveTTL. by destruct (ttl_truthy ttl).
Qed.

(** A stored value is what [get] returns until its expiry. *)
Lemma get_live_value later ct key cm c value ex :
  caches cm !! ct = Some c →
  ExpiringMap.entries c !! key = Some (ExpiringMap.mkEntry value ex) →
  value ≠ JUndefined →
  later < ex →
  (get later ct key cm).2 = Return value.
Proof.
  intros Hc He Hv Hlive. rewrite (get_result _ _ _ _ _ Hc), He. cbn.
  destruct (Z.leb_spec ex later); [lia|]. by destruct value.
Qed.

(** X9.  Every setter of the class and the getter it is paired with
    address the same entry: a value (other than [undefined]) that the
    setter stored is what the getter returns until the entry expires.
    For leaderboards this needs the [limit] to be given to both;
    [getLeaderboard] without a limit reads what [setLeaderboard] stored
    for the limit 100, and [getAPIResponse] without [params] reads what
    [setAPIResponse] stored for the empty [params]. *)
Theorem accessors_round_trip now later a value ttl cm c cm1 :
  caches cm !! cacheTypeOf a = Some c →
  value ≠ JUndefined →
  setter now a value ttl cm = (cm1, Return true) →
  later < now + effectiveTTL c ttl →
  ((∀ type, a ≠ Leaderboard type LimitOmitted) →
   (getter later a cm1).2 = Return value)
  ∧ (∀ type, a = Leaderboard type (LimitNumber 100) →
       (getLeaderboard later type LimitOmitted cm1).2 = Return value)
  ∧ (∀ endpoint, a = APIResponse endpoint "" →
       (getAPIResponse later endpoint None cm1).2 = Return value).
Proof.
  intros Hc Hv Hset Hlive.
  assert (Hgo : ∀ ct key,
    cacheTypeOf a = ct →
    setter now a value ttl = set now ct key value ttl →
    (get later ct key cm1).2 = Return value).
  { intros ct key Hct Hs. rewrite Hct in Hc. rewrite Hs in Hset.
    destruct (set_true_entry _ _ _ _ _ _ _ _ Hc Hset) as (c' & Hc' & He).
    by apply (get_live_value later ct key cm1 c' value _ Hc' He). }
  split; [|split].
  - intros Hlimit. destruct a as [w|type limit| |w|s|e p|k|i];
      try (by apply Hgo).
    destruct limit as [|n|s]; [by destruct (Hlimit type)| |]; by apply Hgo.
  - intros type ->. by apply Hgo.
  - intros endpoint ->. by apply Hgo.
Qed.

(** A leaderboard cached under the limit 100 is read back without a
    limit. *)
Lemma accessors_round_trip_witness :
  (getLeaderboard 599 "total_score" LimitOmitted
     (setLeaderboard 0 "total_score" (LimitNumber 100) (JObj 1) (Some 600)
        constructor).1).2 = Return (JObj 1).
Proof.
  destruct (accessors_round_trip 0 599 (Leaderboard "total_score" (LimitNumber 100))
              (JObj 1) (Some 600) constructor (ExpiringMap.create 600 120 100)
              (setLeaderboard 0 "total_score" (LimitNumber 100) (JObj 1) (Some 600)
                 constructor).1) as (_ & Hdefault & _).
  - reflexivity.
  - discriminate.
  - reflexivity.
  - cbn. lia.
  - by apply Hdefault.
Defined.

Lemma append_inj_l (p s t : string) : p +:+ s = p +:+ t → s = t.
Proof.
  induction p as [|a p IH]; [done|].
  rewrite !append_cons. intros [= H]. by apply IH.
Qed.

(** [set] of one key leaves what [get] returns for another key. *)
Lemma set_other_key now later ct key other value ttl cm :
  other ≠ key →
  (get later ct other (set now ct key value ttl cm).1).2 = (get later ct other cm).2.
Proof.
  intros Hne. destruct (caches cm !! ct) as [c|] eqn:Hc.
  - destruct (set_entries_other now ct key value ttl cm c Hc) as (c1 & Hc1 & He1).
    by rewrite (get_result _ _ _ _ _ Hc1), (get_result _ _ _ _ _ Hc), (He1 _ Hne).
  - apply get_result_ext. rewrite Hc.
    unfold set. rewrite (lookupCache_not_own _ _ Hc). by case_bool_decide.
Qed.

(** X10.  The accessors that take one identifier keep identifiers
    apart: storing under one wallet address, session id, blockchain key
    or rate-limit identifier leaves what the getter returns for every
    other one as it was. *)
Theorem accessors_keep_identifiers_apart now later id1 id2 value ttl cm :
  id1 ≠ id2 →
  (getPlayer later id2 (setPlayer now id1 value ttl cm).1).2
    = (getPlayer later id2 cm).2
  ∧ (getPlayerAchievements later id2 (setPlayerAchievements now id1 value ttl cm).1).2
    = (getPlayerAchievements later id2 cm).2
  ∧ (getSession later id2 (setSession now id1 value ttl cm).1).2
    = (getSession later id2 cm).2
  ∧ (getBlockchainData later id2 (setBlockchainData now id1 value ttl cm).1).2
    = (getBlockchainData later id2 cm).2
  ∧ (getRateLimit later id2 (setRateLimit now id1 value ttl cm).1).2
    = (getRateLimit later id2 cm).2.
Proof.
  intros Hne.
  repeat split; apply set_other_key; intros Heq%append_inj_l; congruence.
Qed.

(** Caching a second wallet leaves the first player cached. *)
Lemma accessors_keep_identifiers_apart_witness :
  let cm := (setPlayer 0 "0xabc" (JObj 1) None constructor).1 in
  (getPlayer 5 "0xabc" (setPlayer 1 "0xdef" (JObj 2) None cm).1).2 = Return (JObj 1).
Proof.
  intros cm.
  destruct (accessors_keep_identifiers_apart 1 5 "0xdef" "0xabc" (JObj 2) None cm)
    as [-> _]; [discriminate|].
  vm_compute. reflexivity.
Defined.

(** Up to its first colon, a text is determined by a prefix without
    one. *)
Lemma split_at_colon (e1 e2 p1 p2 : string) :
  includes e1 ":" = false → includes e2 ":" = false →
  e1 +:+ ":" +:+ p1 = e2 +:+ ":" +:+ p2 → e1 = e2 ∧ p1 = p2.
Proof.
  revert e2. induction e1 as [|a e1 IH]; intros [|b e2] H1 H2.
  - rewrite !append_nil_l, !append_cons, !append_nil_l. by intros [= ->].
  - rewrite append_nil_l, !append_cons. intros [= <- _].
    rewrite includes_cons in H2. cbn in H2. by destruct e2.
  - rewrite append_nil_l, !append_cons. intros [= -> _].
    rewrite includes_cons in H1. cbn in H1. by destruct e1.
  - rewrite !append_cons. intros [= -> Heq].
    rewrite includes_cons in H1, H2.
    apply orb_false_iff in H1 as [_ H1]. apply orb_false_iff in H2 as [_ H2].
    destruct (IH e2 H1 H2 Heq) as [-> ->]. done.
Qed.

(** X11.  For endpoint names without a colon, [setAPIResponse] for one
    pair of endpoint and parameters leaves what [getAPIResponse]
    returns for every other pair as it was. *)
Theorem api_responses_kept_apart now later e1 p1 e2 p2 value ttl cm :
  includes e1 ":" = false →
  includes e2 ":" = false →
  (e1, p1) ≠ (e2, p2) →
  (getAPIResponse later e2 (Some p2) (setAPIResponse now e1 p1 value ttl cm).1).2
    = (getAPIResponse later e2 (Some p2) cm).2.
Proof.
  intros H1 H2 Hne. apply set_other_key.
  intros Heq%append_inj_l.
  destruct (split_at_colon e2 e1 p2 p1 H2 H1 Heq) as [-> ->]. done.
Qed.

(** Two pages of the player list do not overwrite each other. *)
Lemma api_responses_kept_apart_witness :
  let cm := (setAPIResponse 0 "players" "players:1:50" (JObj 1) (Some 300)
               constructor).1 in
  (getAPIResponse 5 "players" (Some "players:1:50")
     (setAPIResponse 1 "players" "players:2:50" (JObj 2) (Some 300) cm).1).2
  = Return (JObj 1).
Proof.
  intros cm.
  rewrite (api_responses_kept_apart 1 5 "players" "players:2:50"
             "players" "players:1:50" (JObj 2) (Some 300) cm).
  - vm_compute. reflexivity.
  - vm_compute. reflexivity.
  - vm_compute. reflexivity.
  - intros [=].
Defined.

(** X12.  An endpoint name with a colon in it shares its entry with a
    shorter endpoint: what [setAPIResponse(e + ":" + p1, p2, ..)]
    stored is what [getAPIResponse(e, p1 + ":" + p2)] returns. *)
Theorem api_responses_collide now later e p1 p2 value ttl cm c cm1 :
  caches cm !! "api" = Some c →
  value ≠ JUndefined →
  setAPIResponse now (e +:+ ":" +:+ p1) p2 value ttl cm = (cm1, Return true) →
  later < now + effectiveTTL c ttl →
  (getAPIResponse later e (Some (p1 +:+ ":" +:+ p2)) cm1).2 = Return value.
Proof.
  intros Hc Hv Hset Hlive. unfold setAPIResponse, getAPIResponse in *. cbn zeta in *.
  cbn [default]. rewrite (append_assoc e) in Hset. rewrite (append_assoc ":") in Hset.
  rewrite !append_cons, append_nil_l in *.
  destruct (set_true_entry _ _ _ _ _ _ _ _ Hc Hset) as (c' & Hc' & He).
  by apply (get_live_value later "api" _ cm1 c' value _ Hc' He).
Qed.

(** The response cached for endpoint ["a:b"] and parameters ["c"] is
    served for endpoint ["a"] and parameters ["b:c"]. *)
Lemma api_responses_collide_witness :
  (getAPIResponse 1 "a" (Some "b:c")
     (setAPIResponse 0 "a:b" "c" (JObj 1) None constructor).1).2 = Return (JObj 1).
Proof.
  apply (api_responses_collide 0 1 "a" "b" "c" (JObj 1) None constructor
           (ExpiringMap.create 120 30 2000)).
  - reflexivity.
  - discriminate.
  - reflexivity.
  - cbn. lia.
Defined.

(** A key is gone after [del], on every cache type that is not an
    inherited name. *)
Lemma del_then_get_null later ct key cm :
  ct ∉ objectPrototypeKeys →
  (get later ct key (del ct key cm).1).2 = Return JNull.
Proof.
  intros Hp. destruct (caches cm !! ct) as [c|] eqn:Hc.
  - destruct (del_entries ct key cm c Hc) as (c1 & Hc1 & He1).
    by rewrite (get_result _ _ _ _ _ Hc1), He1, lookup_delete_eq.
  - assert (Hd : caches (del ct key cm).1 !! ct = None).
    { unfold del. by rewrite (lookupCache_unknown _ _ Hc Hp). }
    unfold get. by rewrite (lookupCache_unknown _ _ Hd Hp).
Qed.

(** X13.  The invalidations address the entry the setter wrote:
    after [invalidatePlayer], [getPlayer] of the wallet returns [null];
    after the [del] calls of the game controller on [sessions] and
    [achievements], so do [getSession] and [getPlayerAchievements]. *)
Theorem invalidations_reach_the_setters_entry later id cm :
  (getPlayer later id (invalidatePlayer id cm).1).2 = Return JNull
  ∧ (getSession later id (del "sessions" ("session:" +:+ id) cm).1).2 = Return JNull
  ∧ (getPlayerAchievements later id
       (del "achievements" ("achievements:" +:+ id) cm).1).2 = Return JNull.
Proof.
  repeat split; apply del_then_get_null;
    apply (bool_decide_eq_false_1 (_ ∈ objectPrototypeKeys)); vm_compute; reflexivity.
Qed.

(* ===================================================================== *)
(** ** Cache warming *)
(* ===================================================================== *)

Lemma forEach_cons {A : Type} (f : A → M unit) x rest cm :
  forEach f (x :: rest) cm
  = match f x cm with
    | (cm', Return _) => forEach f rest cm'
    | (cm', Throw e) => (cm', Throw e)
    end.
Proof. reflexivity. Qed.

(** X14.  The promise of [warmCache] is never rejected: whatever the
    loader does and whatever the cache type is, the second half returns
    normally.  A loader that fails, and a first element that is usable
    on a name inherited from [Object.prototype] (where [set] throws),
    leave caches and counters untouched and write one error line; a
    loader that yields something other than an array stores nothing and
    the warming is logged as completed. *)
Theorem warmCache_never_rejects now cacheType loaded cm :
  (warmCache_resume now cacheType loaded cm).2 = Return ()
  ∧ (∀ e, loaded = LoaderFailed e →
       (warmCache_resume now cacheType loaded cm).1
       = logger LError ("Cache warming failed for " +:+ cacheType +:+ ":") cm)
  ∧ (∀ item rest,
       loaded = LoadedArray (Some item :: rest) → usable item = true →
       lookupCache cm cacheType = Inherited →
       (warmCache_resume now cacheType loaded cm).1
       = logger LError ("Cache warming failed for " +:+ cacheType +:+ ":") cm)
  ∧ (loaded = LoadedOther →
       (warmCache_resume now cacheType loaded cm).1
       = logger LInfo ("Cache warming completed for: " +:+ cacheType) cm).
Proof.
  split; [|split; [|split]].
  - unfold warmCache_resume, try_catch, bind.
    destruct loaded as [e| |items]; [done|done|].
    by destruct (forEach (warmItem now cacheType) items cm) as [cm' [[]|e]].
  - by intros e ->.
  - intros item rest -> Hu Hi.
    unfold warmCache_resume, try_catch, bind. rewrite forEach_cons.
    unfold warmItem at 1. rewrite Hu. unfold bind, set. by rewrite Hi.
  - by intros ->.
Qed.

Lemma forEach_usableItems now cacheType items cm :
  forEach (warmItem now cacheType) (usableItems items) cm
  = forEach (warmItem now cacheType) items cm.
Proof.
  revert cm. induction items as [|[item|] items IH]; intros cm; [done| |].
  - unfold usableItems in *. cbn [List.filter].
    destruct (usable item) eqn:Hu.
    + rewrite !forEach_cons. destruct (warmItem _ _ _ cm) as [cm' [[]|e]]; [|done].
      apply IH.
    + rewrite forEach_cons. unfold warmItem at 2. rewrite Hu. apply IH.
  - unfold usableItems in *. cbn [List.filter]. by rewrite !forEach_cons.
Qed.

(** X15.  Elements without a key, with an empty key or with a falsy
    value ([0], [false], [""], [null], [undefined]) have no effect on a
    warming: the outcome is that of the array without them, so such a
    value is never warmed into a cache. *)
Theorem warmCache_skips_unusable_items now cacheType items cm :
  warmCache_resume now cacheType (LoadedArray items) cm
  = warmCache_resume now cacheType (LoadedArray (usableItems items)) cm
  ∧ ∀ key value,
      truthy value = false →
      warmCache_resume now cacheType
        (LoadedArray (Some (mkItem key value) :: items)) cm
      = warmCache_resume now cacheType (LoadedArray items) cm.
Proof.
  split.
  - unfold warmCache_resume, try_catch, bind. by rewrite forEach_usableItems.
  - intros key value Hv.
    unfold warmCache_resume, try_catch, bind. rewrite forEach_cons.
    unfold warmItem at 1, usable. cbn [item_key item_value]. rewrite Hv.
    destruct key as [key|]; [|done]. by rewrite andb_false_r.
Qed.

(** One usable element on a cache type with room. *)
Lemma warmItem_stores now ct k v cm c :
  caches cm !! ct = Some c →
  k ≠ "" → truthy v = true →
  Z.of_nat (size (ExpiringMap.entries c)) < ExpiringMap.maxEntries c →
  ∃ cm1 c1,
    warmItem now ct (Some (mkItem (Some k) v)) cm = (cm1, Return ())
    ∧ caches cm1 !! ct = Some c1
    ∧ ExpiringMap.entries c1
      = <[k := ExpiringMap.mkEntry v (now + ExpiringMap.defaultTTL c)]>
          (ExpiringMap.entries c)
    ∧ ExpiringMap.defaultTTL c1 = ExpiringMap.defaultTTL c
    ∧ ExpiringMap.maxEntries c1 = ExpiringMap.maxEntries c.
Proof.
  intros Hc Hk Hv Hroom. unfold warmItem, usable. cbn [item_key item_value default].
  rewrite (proj2 (String.eqb_neq k "") Hk), Hv. cbn [negb andb].
  unfold bind. rewrite (set_own _ _ _ _ _ _ _ Hc). cbn [ttl_truthy].
  rewrite ExpiringMap_set_success by (intros _; lia). cbn.
  eexists _, _. split; [reflexivity|].
  split; [apply lookup_insert_eq|done].
Qed.

Lemma foldl_insert_other {A B : Type} (f : B → string * A) (l : list B)
    (m : gmap string A) k :
  k ∉ (λ x, (f x).1) <$> l →
  foldl (λ m x, <[(f x).1 := (f x).2]> m) m l !! k = m !! k.
Proof.
  revert m. induction l as [|x l IH]; intros m Hk; [done|].
  cbn [foldl]. rewrite IH by (intros ?; apply Hk; by apply list_elem_of_further).
  apply lookup_insert_ne. intros Heq. apply Hk. rewrite fmap_cons, Heq.
  apply list_elem_of_here.
Qed.

Lemma foldl_insert_member {A B : Type} (f : B → string * A) (l : list B)
    (m : gmap string A) x :
  NoDup ((λ x, (f x).1) <$> l) → x ∈ l →
  foldl (λ m x, <[(f x).1 := (f x).2]> m) m l !! (f x).1 = Some (f x).2.
Proof.
  revert m. induction l as [|y l IH]; intros m Hnd Hin; [by apply elem_of_nil in Hin|].
  rewrite fmap_cons in Hnd. apply NoDup_cons in Hnd as [Hy Hnd].
  cbn [foldl]. apply elem_of_cons in Hin as [->|Hin].
  - rewrite foldl_insert_other by done. apply lookup_insert_eq.
  - by apply IH.
Qed.

Lemma foldl_insert_size {A B : Type} (f : B → string * A) (l : list B)
    (m : gmap string A) :
  (size (foldl (λ m x, <[(f x).1 := (f x).2]> m) m l) ≤ size m + length l)%nat.
Proof.
  revert m. induction l as [|x l IH]; intros m; cbn [foldl length]; [lia|].
  etrans; [apply IH|]. rewrite map_size_insert.
  destruct (m !! (f x).1); unfold Datatypes.id; lia.
Qed.

(** The loop of [warmCache] over usable elements that fit. *)
Lemma forEach_warm_stores now ct (pairs : list (string * JsValue)) :
  ∀ cm c,
    caches cm !! ct = Some c →
    Forall (λ kv, kv.1 ≠ "" ∧ truthy kv.2 = true) pairs →
    Z.of_nat (size (ExpiringMap.entries c)) + Z.of_nat (length pairs)
      ≤ ExpiringMap.maxEntries c →
    ∃ cm' c',
      forEach (warmItem now ct) ((λ kv, Some (mkItem (Some kv.1) kv.2)) <$> pairs) cm
        = (cm', Return ())
      ∧ caches cm' !! ct = Some c'
      ∧ ExpiringMap.entries c'
        = foldl (λ m kv, <[kv.1 := ExpiringMap.mkEntry kv.2
                                     (now + ExpiringMap.defaultTTL c)]> m)
                (ExpiringMap.entries c) pairs.
Proof.
  induction pairs as [|[k v] pairs IH]; intros cm c Hc Hok Hroom.
  - exists cm, c. done.
  - apply Forall_cons in Hok as [[Hk Hv] Hok]. cbn [fst snd] in Hk, Hv.
    cbn [length] in Hroom.
    destruct (warmItem_stores now ct k v cm c Hc Hk Hv ltac:(lia))
      as (cm1 & c1 & Hrun & Hc1 & He1 & Hd1 & Hm1).
    destruct (IH cm1 c1 Hc1 Hok) as (cm' & c' & Hrest & Hc' & He').
    { rewrite Hm1, He1, map_size_insert.
      destruct (ExpiringMap.entries c !! k); unfold Datatypes.id; lia. }
    exists cm', c'. rewrite fmap_cons, forEach_cons. cbn [fst snd]. rewrite Hrun.
    split; [done|]. split; [done|]. by rewrite He', He1, Hd1.
Qed.

(** X16.  Warming a configured cache type with elements that have
    distinct non-empty keys and truthy values, and that fit into the
    cache, makes every one of them retrievable: until the default time to
    live of the cache type has passed, [get] returns the value of each. *)
Theorem warmCache_loads_usable_items now later ct pairs cm c k v :
  caches cm !! ct = Some c →
  Forall (λ kv, kv.1 ≠ "" ∧ truthy kv.2 = true) pairs →
  NoDup pairs.*1 →
  Z.of_nat (size (ExpiringMap.entries c)) + Z.of_nat (length pairs)
    ≤ ExpiringMap.maxEntries c →
  (k, v) ∈ pairs →
  later < now + ExpiringMap.defaultTTL c →
  (get later ct k
     (warmCache_resume now ct
        (LoadedArray ((λ kv, Some (mkItem (Some kv.1) kv.2)) <$> pairs)) cm).1).2
  = Return v.
Proof.
  intros Hc Hok Hnd Hroom Hin Hlive.
  destruct (forEach_warm_stores now ct pairs cm c Hc Hok Hroom)
    as (cm' & c' & Hrun & Hc' & He').
  unfold warmCache_resume, try_catch, bind. rewrite Hrun. cbn [fst].
  assert (Hc'' : caches (logger LInfo ("Cache warming completed for: " +:+ ct) cm')
                   !! ct = Some c') by done.
  apply (get_live_value later ct k _ c' v (now + ExpiringMap.defaultTTL c) Hc'');
    [|by (apply Forall_forall with (x := (k, v)) in Hok as [_ Hv]; [destruct v|])|done].
  rewrite He'.
  apply (foldl_insert_member
           (λ kv : string * JsValue,
              (kv.1, ExpiringMap.mkEntry kv.2 (now + ExpiringMap.defaultTTL c)))
           pairs (ExpiringMap.entries c) (k, v)); [|done].
  exact Hnd.
Qed.

(** Two players warmed into a fresh manager. *)
Lemma warmCache_loads_usable_items_witness :
  (get 299 "players" "player:b"
     (warmCache_resume 0 "players"
        (LoadedArray [Some (mkItem (Some "player:a") (JObj 1));
                      Some (mkItem (Some "player:b") (JObj 2))]) constructor).1).2
  = Return (JObj 2).
Proof.
  apply (warmCache_loads_usable_items 0 299 "players"
           [("player:a", JObj 1); ("player:b", JObj 2)] constructor
           (ExpiringMap.create 300 60 10000) "player:b" (JObj 2)).
  - reflexivity.
  - repeat (apply Forall_cons; split; [split; [discriminate|reflexivity]|]).
    apply Forall_nil_2.
  - apply (bool_decide_eq_true_1 (NoDup _)). vm_compute. reflexivity.
  - unfold ExpiringMap.create. cbn [ExpiringMap.entries ExpiringMap.maxEntries length].
    rewrite map_size_empty. lia.
  - apply list_elem_of_further, list_elem_of_here.
  - cbn. lia.
Defined.

(* ===================================================================== *)
(** ** The request filter *)
(* ===================================================================== *)

(** The lookup [ipFilter] makes before it decides: the map it leaves
    gives the same count to the lookup inside [incrementRateLimit], and
    still has room for the key. *)
Lemma ExpiringMap_get_twice now key c prev :
  previousCount now c key = Some prev →
  Z.of_nat (size (ExpiringMap.entries c)) ≤ ExpiringMap.maxEntries c →
  (ExpiringMap.entries c !! key = None →
   Z.of_nat (size (ExpiringMap.entries c)) < ExpiringMap.maxEntries c) →
  ∃ c1 r,
    ExpiringMap.get now key c = (c1, r)
    ∧ js_gt (js_or (if is_undefined (default JUndefined r)
                    then JNull else default JUndefined r) (JNum 0)) 1000
      = Some (1000 <? prev)
    ∧ (1000 < prev → c1 = c)
    ∧ previousCount now c1 key = Some prev
    ∧ ExpiringMap.defaultTTL c1 = ExpiringMap.defaultTTL c
    ∧ ExpiringMap.maxEntries c1 = ExpiringMap.maxEntries c
    ∧ Z.of_nat (size (ExpiringMap.entries c1)) ≤ ExpiringMap.maxEntries c1
    ∧ (ExpiringMap.entries c1 !! key = None →
       Z.of_nat (size (ExpiringMap.entries c1)) < ExpiringMap.maxEntries c1).
Proof.
  unfold previousCount, ExpiringMap.get. intros Hprev Hsize Hroom.
  destruct (ExpiringMap.entries c !! key) as [e|] eqn:Hk.
  - destruct (ExpiringMap.expiresAt e <=? now) eqn:Hexp; cbn in Hprev.
    + injection Hprev as <-. eexists _, _. split; [reflexivity|]. cbn.
      rewrite lookup_delete_eq.
      pose proof (map_size_delete_Some key (ExpiringMap.entries c)
                    (ltac:(by rewrite Hk))) as Hd.
      pose proof (map_size_ne_0_lookup_2 (ExpiringMap.entries c) key
                    (ltac:(by rewrite Hk))) as Hpos.
      repeat split; try done; lia.
    + destruct (ExpiringMap.value e) as [| | |n| |] eqn:Hv; try done.
      injection Hprev as <-. eexists _, _. split; [reflexivity|]. cbn.
      rewrite Hk, Hexp, Hv. cbn.
      split; [|done].
      unfold js_or. cbn. by destruct (Z.eqb_spec n 0) as [->|].
  - cbn in Hprev. injection Hprev as <-. eexists _, _. split; [reflexivity|]. cbn.
    rewrite Hk. repeat split; done.
Qed.

(** A client whose live count is above 1000: status 429, and every
    cache left as it was. *)
Lemma ipFilter_refuses now req cm c n ex :
  caches cm !! "rateLimit" = Some c →
  ExpiringMap.entries c !! rateKey (requestKey (ip req))
    = Some (ExpiringMap.mkEntry (JNum n) ex) →
  now < ex →
  1000 < n →
  (ipFilter now req cm).2 = Return (Some tooManyRequests)
  ∧ caches (ipFilter now req cm).1 = caches cm.
Proof.
  intros Hc He Hlive Hn.
  unfold ipFilter, bind, getRateLimit.
  set (cm0 := if suspicious (userAgent req) then _ else cm).
  assert (Hc0 : caches cm0 !! "rateLimit" = Some c)
    by (subst cm0; by destruct (suspicious _)).
  assert (Hcs : caches cm0 = caches cm)
    by (subst cm0; by destruct (suspicious _)).
  fold (requestKey (ip req)). fold (rateKey (requestKey (ip req))).
  rewrite (get_own _ _ _ _ _ Hc0), (ExpiringMap_get_live _ _ _ _ He Hlive).
  cbn [ExpiringMap.value default from_option Datatypes.id is_undefined]. cbn zeta.
  assert (Hgt : js_gt (js_or (JNum n) (JNum 0)) 1000 = Some true).
  { unfold js_or. cbn. destruct (Z.eqb_spec n 0); [lia|]. cbn.
    by rewrite (proj2 (Z.ltb_lt _ _) Hn). }
  rewrite Hgt. cbn. split; [done|].
  by rewrite insert_id, Hcs.
Qed.

(** A request of a client whose count is at most 1000. *)
Lemma ipFilter_passes now req cm c prev :
  caches cm !! "rateLimit" = Some c →
  previousCount now c (rateKey (requestKey (ip req))) = Some prev →
  prev ≤ 1000 →
  Z.of_nat (size (ExpiringMap.entries c)) ≤ ExpiringMap.maxEntries c →
  (ExpiringMap.entries c !! rateKey (requestKey (ip req)) = None →
   Z.of_nat (size (ExpiringMap.entries c)) < ExpiringMap.maxEntries c) →
  ∃ cm' c',
    ipFilter now req cm = (cm', Return (Some Next))
    ∧ caches cm' !! "rateLimit" = Some c'
    ∧ ExpiringMap.entries c' !! rateKey (requestKey (ip req))
      = Some (ExpiringMap.mkEntry (JNum (prev + 1)) (now + 3600))
    ∧ ExpiringMap.defaultTTL c' = ExpiringMap.defaultTTL c
    ∧ ExpiringMap.maxEntries c' = ExpiringMap.maxEntries c
    ∧ Z.of_nat (size (ExpiringMap.entries c')) ≤ ExpiringMap.maxEntries c'.
Proof.
  intros Hc Hprev Hle Hsize Hroom.
  destruct (ExpiringMap_get_twice _ _ _ _ Hprev Hsize Hroom)
    as (c1 & r & Hget & Hgt & _ & Hprev1 & Hd1 & Hm1 & Hsize1 & Hroom1).
  unfold ipFilter, bind at 1, getRateLimit.
  set (cm0 := if suspicious (userAgent req) then _ else cm).
  assert (Hc0 : caches cm0 !! "rateLimit" = Some c)
    by (subst cm0; by destruct (suspicious _)).
  fold (requestKey (ip req)). fold (rateKey (requestKey (ip req))).
  rewrite (get_own _ _ _ _ _ Hc0), Hget. cbn zeta.
  assert (Hstep : ∀ f, ∃ cm' c',
    incrementRateLimit now (requestKey (ip req)) (TtlSeconds 3600)
      (recordHit "rateLimit" f (storeCache "rateLimit" c1 cm0)) = (cm', Return true)
    ∧ caches cm' !! "rateLimit" = Some c'
    ∧ ExpiringMap.entries c' !! rateKey (requestKey (ip req))
      = Some (ExpiringMap.mkEntry (JNum (prev + 1)) (now + 3600))
    ∧ ExpiringMap.defaultTTL c' = ExpiringMap.defaultTTL c
    ∧ ExpiringMap.maxEntries c' = ExpiringMap.maxEntries c
    ∧ Z.of_nat (size (ExpiringMap.entries c')) ≤ ExpiringMap.maxEntries c').
  { intros f.
    destruct (incrementRateLimit_step now (requestKey (ip req)) (TtlSeconds 3600)
                (recordHit "rateLimit" f (storeCache "rateLimit" c1 cm0)) c1 prev)
      as (cm' & c' & Hrun & Hc' & He' & Hd' & Hm' & Hs'); try done.
    { rewrite caches_recordHit, caches_storeCache. apply lookup_insert_eq. }
    exists cm', c'. repeat split; try done; congruence. }
  assert (Hno : (1000 <? prev) = false) by (apply Z.ltb_ge; lia).
  rewrite Hno in Hgt.
  destruct (is_undefined (default JUndefined r)); cbn zeta;
    rewrite Hgt; unfold bind;
    [destruct (Hstep Misses) as (cm' & c' & -> & H)
    |destruct (Hstep Hits) as (cm' & c' & -> & H)];
    by exists cm', c'.
Qed.

(** A count that is not 0 is a live stored number. *)
Lemma previousCount_positive now c key prev :
  previousCount now c key = Some prev → prev ≠ 0 →
  ∃ ex, ExpiringMap.entries c !! key = Some (ExpiringMap.mkEntry (JNum prev) ex)
        ∧ now < ex.
Proof.
  unfold previousCount, ExpiringMap.get. intros Hprev Hnz.
  destruct (ExpiringMap.entries c !! key) as [[v ex]|]; [|by injection Hprev as <-].
  cbn in Hprev. destruct (Z.leb_spec ex now); cbn in Hprev;
    [by injection Hprev as <-|].
  destruct v; try done. injection Hprev as ->. by exists ex.
Qed.

(** X17.  [ipFilter] decides by the count stored for the client address
    (a number of the safe range; 0 when none is stored or it has
    expired).  Up to 1000 the request
    is handed on and the count, one higher, now expires an hour after
    this request.  Above 1000 the request is answered with status 429,
    is not counted and does not move the expiry: every cache is left
    exactly as it was. *)
Theorem ipFilter_decides_by_count now req cm c prev :
  caches cm !! "rateLimit" = Some c →
  previousCount now c (rateKey (requestKey (ip req))) = Some prev →
  Z.abs prev < 2 ^ 53 →
  Z.of_nat (size (ExpiringMap.entries c)) ≤ ExpiringMap.maxEntries c →
  (ExpiringMap.entries c !! rateKey (requestKey (ip req)) = None →
   Z.of_nat (size (ExpiringMap.entries c)) < ExpiringMap.maxEntries c) →
  if 1000 <? prev
  then (ipFilter now req cm).2 = Return (Some tooManyRequests)
       ∧ caches (ipFilter now req cm).1 = caches cm
  else (ipFilter now req cm).2 = Return (Some Next)
       ∧ ExpiringMap.entries (cacheOf "rateLimit" (ipFilter now req cm).1)
           !! rateKey (requestKey (ip req))
         = Some (ExpiringMap.mkEntry (JNum (prev + 1)) (now + 3600)).
Proof.
  intros Hc Hprev _ Hsize Hroom. destruct (Z.ltb_spec 1000 prev) as [Hgt|Hle].
  - destruct (previousCount_positive _ _ _ _ Hprev ltac:(lia)) as (ex & He & Hlive).
    by apply (ipFilter_refuses now req cm c prev ex).
  - destruct (ipFilter_passes now req cm c prev Hc Hprev Hle Hsize Hroom)
      as (cm' & c' & -> & Hc' & He' & _).
    split; [done|]. unfold cacheOf. cbn [fst]. by rewrite Hc'.
Qed.

(** The first request of a client, and the request after its 1001
    counted ones. *)
Lemma ipFilter_decides_by_count_witness :
  let req := mkRequest "10.0.0.1" (Some "Mozilla/5.0 (X11)") "/api/players" in
  let cm := (setRateLimit 0 "requests:10.0.0.1" (JNum 1001) (Some 3600)
               constructor).1 in
  (ipFilter 5 req constructor).2 = Return (Some Next)
  ∧ (ipFilter 5 req cm).2 = Return (Some tooManyRequests).
Proof.
  intros req cm. split.
  - apply (ipFilter_decides_by_count 5 req constructor
             (ExpiringMap.create 3600 600 50000) 0).
    + reflexivity.
    + reflexivity.
    + vm_compute. reflexivity.
    + unfold ExpiringMap.create. cbn [ExpiringMap.entries ExpiringMap.maxEntries].
      rewrite map_size_empty. lia.
    + intros _. unfold ExpiringMap.create.
      cbn [ExpiringMap.entries ExpiringMap.maxEntries].
      rewrite map_size_empty. lia.
  - apply (ipFilter_decides_by_count 5 req cm (cacheOf "rateLimit" cm) 1001).
    + vm_compute. reflexivity.
    + vm_compute. reflexivity.
    + vm_compute. reflexivity.
    + vm_compute. discriminate.
    + vm_compute. discriminate.
Defined.

(** The requests of one client, served while its count is live. *)
Lemma serveRequests_counts clientIP t0 dflt reqs :
  ∀ (allowed : nat) served cm c,
    caches cm !! "rateLimit" = Some c →
    counting (requestKey clientIP) (TtlSeconds 3600) t0 dflt served c →
    served + Z.of_nat allowed = 1001 →
    Forall (λ r, ip r.2 = clientIP ∧ t0 ≤ r.1 < t0 + 3600) reqs →
    (serveRequests reqs cm).2
    = (replicate (Nat.min (length reqs) allowed) (Return (Some Next))
       ++ replicate (length reqs - allowed) (Return (Some tooManyRequests)))%list.
Proof.
  induction reqs as [|[now req] later IH]; intros allowed served cm c Hc Hcnt Hsum Hwin.
  - done.
  - apply Forall_cons in Hwin as [[Hip Hnow] Hlater]. cbn [fst snd] in Hip, Hnow.
    assert (Heff : ∀ c0, effectiveTTL c0 (rateLimitTTL (TtlSeconds 3600)) = 3600)
      by done.
    destruct (counting_previous _ _ _ _ _ _ now Hcnt) as [Hprev Hroom];
      [rewrite Heff; lia|].
    cbn [serveRequests].
    destruct allowed as [|allowed].
    + (* the count is 1001: the request is refused *)
      destruct Hcnt as (Hd & Hsize & [(Hz & _)|(ex & He & Hex)]); [lia|].
      rewrite Heff in Hex. rewrite <- Hip in He.
      destruct (ipFilter_refuses now req cm c served ex Hc He)
        as [Hr Hcs]; [lia|lia|].
      destruct (ipFilter now req cm) as [cm1 r1]. cbn [fst snd] in Hr, Hcs. subst r1.
      assert (Hc1 : caches cm1 !! "rateLimit" = Some c) by (by rewrite Hcs).
      assert (Hcnt1 : counting (requestKey clientIP) (TtlSeconds 3600) t0 dflt served c).
      { split; [done|]. split; [done|]. right. exists ex.
        rewrite Heff, <- Hip. done. }
      specialize (IH 0%nat served cm1 c Hc1 Hcnt1 Hsum Hlater).
      destruct (serveRequests later cm1) as [cm2 rs]. cbn [snd] in *.
      rewrite IH. rewrite !Nat.min_0_r, !Nat.sub_0_r. done.
    + destruct Hcnt as (Hd & Hsize & Hcase).
      rewrite <- Hip in Hprev, Hroom.
      destruct (ipFilter_passes now req cm c served Hc Hprev ltac:(lia) Hsize Hroom)
        as (cm1 & c1 & Hrun & Hc1 & He1 & Hd1 & Hm1 & Hsize1).
      rewrite Hrun.
      assert (Hcnt1 : counting (requestKey clientIP) (TtlSeconds 3600) t0 dflt
                        (served + 1) c1).
      { split; [congruence|]. split; [done|]. right.
        exists (now + 3600). rewrite Heff, <- Hip. split; [done|lia]. }
      specialize (IH allowed (served + 1) cm1 c1 Hc1 Hcnt1 ltac:(lia) Hlater).
      destruct (serveRequests later cm1) as [cm2 rs]. cbn [snd] in *.
      rewrite IH. done.
Qed.

(** X18.  A client that is not counted yet, and for which the
    [rateLimit] cache has room, gets 1001 requests through within one
    hour: of its requests served within 3600 seconds, the first 1001
    are handed on and every further one is answered with status 429. *)
Theorem ipFilter_allows_1001_per_hour cm c clientIP t0 reqs :
  caches cm !! "rateLimit" = Some c →
  ExpiringMap.entries c !! rateKey (requestKey clientIP) = None →
  Z.of_nat (size (ExpiringMap.entries c)) < ExpiringMap.maxEntries c →
  Forall (λ r, ip r.2 = clientIP ∧ t0 ≤ r.1 < t0 + 3600) reqs →
  (serveRequests reqs cm).2
  = (replicate (Nat.min (length reqs) 1001) (Return (Some Next))
     ++ replicate (length reqs - 1001) (Return (Some tooManyRequests)))%list.
Proof.
  intros Hc He Hroom Hwin.
  apply (serveRequests_counts clientIP t0 (ExpiringMap.defaultTTL c) reqs
           1001 0 cm c Hc); [|lia|done].
  split; [done|]. split; [lia|]. by left.
Qed.

(** Two requests of a new client, both handed on. *)
Lemma ipFilter_allows_1001_per_hour_witness :
  (serveRequests
     [(0, mkRequest "10.0.0.1" (Some "Mozilla/5.0 (X11)") "/api/players");
      (1, mkRequest "10.0.0.1" None "/api/players")] constructor).2
  = [Return (Some Next); Return (Some Next)].
Proof.
  apply (ipFilter_allows_1001_per_hour constructor (ExpiringMap.create 3600 600 50000)
           "10.0.0.1" 0
           [(0, mkRequest "10.0.0.1" (Some "Mozilla/5.0 (X11)") "/api/players");
            (1, mkRequest "10.0.0.1" None "/api/players")]).
  - reflexivity.
  - reflexivity.
  - unfold ExpiringMap.create. cbn [ExpiringMap.entries ExpiringMap.maxEntries].
    rewrite map_size_empty. lia.
  - repeat (apply Forall_cons; split; [split; [reflexivity|cbn; lia]|]).
    apply Forall_nil_2.
Defined.

(* ===================================================================== *)
(** ** What holds in every state the clients can reach *)
(* ===================================================================== *)

Section Invariant.
Implicit Types (cm : CacheManager.t) (c : ExpiringMap.t).

Lemma configured_get now key c0 c :
  configured c0 c → configured c0 (ExpiringMap.get now key c).1.
Proof.
  intros (Hd & Hm & Hs & Hsize). unfold ExpiringMap.get.
  destruct (ExpiringMap.entries c !! key) as [e|] eqn:Hk; [|done].
  destruct (ExpiringMap.expiresAt e <=? now); [|done].
  repeat split; try done. cbn.
  pose proof (map_size_delete_Some key (ExpiringMap.entries c)
                (ltac:(by rewrite Hk))). lia.
Qed.

Lemma configured_set now key v ttl c0 c :
  configured c0 c → configured c0 (ExpiringMap.set now key v ttl c).1.1.
Proof.
  intros (Hd & Hm & Hs & Hsize). unfold ExpiringMap.set.
  destruct (ExpiringMap.entries c !! key) as [e|] eqn:Hk.
  - repeat split; try done. cbn.
    by rewrite map_size_insert_Some by (by rewrite Hk).
  - destruct (Z.eqb_spec (Z.of_nat (size (ExpiringMap.entries c)))
                         (ExpiringMap.maxEntries c)); [done|].
    repeat split; try done. cbn.
    rewrite map_size_insert_None by done. lia.
Qed.

Lemma configured_del key c0 c :
  configured c0 c → configured c0 (ExpiringMap.del key c).1.
Proof.
  intros (Hd & Hm & Hs & Hsize). unfold ExpiringMap.del.
  destruct (ExpiringMap.entries c !! key) as [e|] eqn:Hk; [|done].
  repeat split; try done. cbn.
  pose proof (map_size_delete_Some key (ExpiringMap.entries c)
                (ltac:(by rewrite Hk))). lia.
Qed.

Lemma configured_flushAll c0 c :
  configured c0 c → configured c0 (ExpiringMap.flushAll c).1.
Proof.
  intros (Hd & Hm & Hs & Hsize). repeat split; try done. cbn.
  rewrite map_size_empty. lia.
Qed.

Lemma configured_close c0 c :
  configured c0 c → configured c0 (ExpiringMap.close c).
Proof.
  intros (Hd & Hm & Hs & Hsize). repeat split; try done. cbn.
  rewrite map_size_empty. lia.
Qed.

Lemma configured_sweep now c0 c :
  configured c0 c → configured c0 (ExpiringMap.sweep now c).
Proof.
  intros (Hd & Hm & Hs & Hsize). unfold ExpiringMap.sweep.
  destruct (ExpiringMap.sweepTimer c); [|done].
  repeat split; try done. cbn.
  pose proof (map_size_filter (λ kv : string * ExpiringMap.CacheEntry,
                                 now < ExpiringMap.expiresAt kv.2)
                (ExpiringMap.entries c)). lia.
Qed.

Lemma cachesShape_insert cs ct c c' :
  cachesShape cs → cs !! ct = Some c →
  (∀ c0, configured c0 c → configured c0 c') →
  cachesShape (<[ct := c']> cs).
Proof.
  intros Hsh Hc Hstep k. specialize (Hsh k).
  destruct (decide (k = ct)) as [->|Hne].
  - rewrite lookup_insert_eq. rewrite Hc in Hsh.
    destruct (caches constructor !! ct); [by apply Hstep|done].
  - by rewrite lookup_insert_ne.
Qed.

Lemma cachesShape_alter cs ct (f : ExpiringMap.t → ExpiringMap.t) :
  cachesShape cs →
  (∀ c0 c, configured c0 c → configured c0 (f c)) →
  cachesShape (alter f ct cs).
Proof.
  intros Hsh Hstep k. specialize (Hsh k).
  destruct (decide (k = ct)) as [->|Hne].
  - rewrite lookup_alter_eq.
    destruct (caches constructor !! ct), (cs !! ct); cbn; try done.
    by apply Hstep.
  - by rewrite lookup_alter_ne.
Qed.

Lemma nonNegative_bump f hs : nonNegative hs → nonNegative (bump f hs).
Proof. intros (?&?&?&?&?). destruct f; repeat split; cbn; lia. Qed.

Lemma statsShape_alter hs ct f :
  statsShape hs → statsShape (alter (bump f) ct hs).
Proof.
  intros Hsh k. specialize (Hsh k).
  destruct (decide (k = ct)) as [->|Hne].
  - rewrite lookup_alter_eq. destruct (hs !! ct); cbn; [|done].
    destruct Hsh. split; [done|]. by apply nonNegative_bump.
  - by rewrite lookup_alter_ne.
Qed.

Lemma statsShape_reset hs :
  (∀ ct, ct ∉ cacheTypes → hs !! ct = None) →
  statsShape (foldl (λ hs cacheType, <[cacheType := mkStats 0 0 0 0 0]> hs)
                    hs cacheTypes).
Proof.
  intros Hout k. rewrite foldl_insert_lookup. case_bool_decide as Hin.
  - split; [done|]. repeat split; cbn; lia.
  - by rewrite (Hout k Hin).
Qed.

Lemma invariant_ext cm cm' :
  caches cm' = caches cm → hitStats cm' = hitStats cm →
  invariant cm → invariant cm'.
Proof. unfold invariant. by intros -> ->. Qed.

Lemma invariant_logger lvl msg cm : invariant cm → invariant (logger lvl msg cm).
Proof. done. Qed.

Lemma invariant_recordHit ct f cm : invariant cm → invariant (recordHit ct f cm).
Proof. intros [Hc Hs]. split; [done|]. by apply statsShape_alter. Qed.

Lemma invariant_emit ct evs cm : invariant cm → invariant (emit ct evs cm).
Proof. apply invariant_ext; [apply caches_emit|apply hitStats_emit]. Qed.

Lemma invariant_storeCache ct c c' cm :
  invariant cm → caches cm !! ct = Some c →
  (∀ c0, configured c0 c → configured c0 c') →
  invariant (storeCache ct c' cm).
Proof.
  intros [Hc Hs] Hl Hstep. split; [|done]. by apply (cachesShape_insert _ _ c).
Qed.

Lemma invariant_alter ct (f : ExpiringMap.t → ExpiringMap.t) cm :
  invariant cm →
  (∀ c0 c, configured c0 c → configured c0 (f c)) →
  invariant (with_caches (alter f ct (caches cm)) cm).
Proof. intros [Hc Hs] Hstep. split; [|done]. by apply cachesShape_alter. Qed.

Lemma preserves_bind {A B : Type} (m : M A) (k : A → M B) :
  preserves m → (∀ a, preserves (k a)) → preserves (bind m k).
Proof.
  intros Hm Hk cm Hinv. unfold bind. specialize (Hm cm Hinv).
  destruct (m cm) as [cm' [a|e]]; [|done]. by apply Hk.
Qed.

(** A method that only writes to the log. *)
Local Ltac only_logs := by intros ? ?.

Lemma preserves_get now ct key : preserves (get now ct key).
Proof.
  intros cm Hinv. unfold get.
  destruct (lookupCache cm ct) as [c| |] eqn:Hl; [|done|done].
  apply lookupCache_OwnCache in Hl.
  pose proof (λ c0, configured_get now key c0 c) as Hstep.
  destruct (ExpiringMap.get now key c) as [c' r].
  destruct (is_undefined (default JUndefined r)); cbn [fst];
    by apply invariant_recordHit, (invariant_storeCache _ c).
Qed.

Lemma preserves_set now ct key value ttl : preserves (set now ct key value ttl).
Proof.
  intros cm Hinv. unfold set.
  destruct (lookupCache cm ct) as [c| |] eqn:Hl; [|done|done].
  apply lookupCache_OwnCache in Hl.
  assert (Hstep : ∀ c0, configured c0 c →
            configured c0 (if ttl_truthy ttl
                           then ExpiringMap.set now key value ttl c
                           else ExpiringMap.set now key value None c).1.1)
    by (intros c0; destruct (ttl_truthy ttl); apply configured_set).
  destruct (if ttl_truthy ttl then _ else _) as [[c' success] evs].
  destruct success; cbn [fst];
    [apply invariant_recordHit|]; by apply invariant_emit, (invariant_storeCache _ c).
Qed.

Lemma preserves_del ct key : preserves (del ct key).
Proof.
  intros cm Hinv. unfold del.
  destruct (lookupCache cm ct) as [c| |] eqn:Hl; [|done|done].
  apply lookupCache_OwnCache in Hl.
  pose proof (λ c0, configured_del key c0 c) as Hstep.
  destruct (ExpiringMap.del key c) as [c' deleted].
  destruct (0 <? deleted); cbn [fst];
    [apply invariant_recordHit|]; by apply (invariant_storeCache _ c).
Qed.

Lemma preserves_incrementRateLimit now identifier ttl :
  preserves (incrementRateLimit now identifier ttl).
Proof.
  apply preserves_bind; [apply preserves_get|]. intros a. apply preserves_set.
Qed.

Lemma preserves_invalidateLeaderboards : preserves invalidateLeaderboards.
Proof.
  intros cm Hinv. unfold invalidateLeaderboards.
  destruct (caches cm !! "leaderboards") as [c|] eqn:Hc; [|done].
  cbn -[emit]. apply invariant_recordHit, invariant_emit.
  apply (invariant_storeCache _ c); [done|done|].
  intros c0. apply configured_flushAll.
Qed.

Lemma invariant_foldl_delDirect ct keys cm :
  invariant cm → invariant (foldl (delDirect ct) cm keys).
Proof.
  revert cm. induction keys as [|key keys IH]; intros cm Hinv; [done|].
  cbn [foldl]. apply IH. unfold delDirect. apply invariant_alter; [done|].
  intros c0 c. apply configured_del.
Qed.

Lemma preserves_invalidatePattern ct pattern : preserves (invalidatePattern ct pattern).
Proof.
  intros cm Hinv. unfold invalidatePattern.
  destruct (lookupCache cm ct) as [c| |];
    [|by destruct (String.eqb ct "constructor")|done].
  destruct (0 <? length _)%nat; cbn [fst];
    [apply invariant_logger|]; by apply invariant_foldl_delDirect.
Qed.

Lemma preserves_forEach {A : Type} (f : A → M unit) l :
  (∀ x, preserves (f x)) → preserves (forEach f l).
Proof.
  intros Hf. induction l as [|x l IH]; [only_logs|].
  cbn [forEach]. apply preserves_bind; [apply Hf|]. intros _. exact IH.
Qed.

Lemma preserves_warmItem now ct item : preserves (warmItem now ct item).
Proof.
  destruct item as [item|]; [|only_logs]. unfold warmItem.
  destruct (usable item); [|only_logs].
  apply preserves_bind; [apply preserves_set|]. intros _. only_logs.
Qed.

Lemma preserves_warmCache_resume now ct loaded :
  preserves (warmCache_resume now ct loaded).
Proof.
  intros cm Hinv. unfold warmCache_resume, try_catch.
  assert (Hbody : preserves
    (do _ <- (match loaded with
              | LoaderFailed e => λ cm, (cm, Throw e)
              | LoadedOther => λ cm, (cm, Return ())
              | LoadedArray items => forEach (warmItem now ct) items
              end);
     λ cm, (logger LInfo ("Cache warming completed for: " +:+ ct) cm, Return ()))).
  { apply preserves_bind; [|intros _; only_logs].
    destruct loaded as [e| |items]; [only_logs|only_logs|].
    apply preserves_forEach. intros x. apply preserves_warmItem. }
  specialize (Hbody cm Hinv).
  by destruct (bind _ _ cm) as [cm' [[]|e]].
Qed.

Lemma preserves_ipFilter now req : preserves (ipFilter now req).
Proof.
  intros cm Hinv. unfold ipFilter.
  set (cm0 := if suspicious (userAgent req) then _ else cm).
  assert (Hinv0 : invariant cm0) by (subst cm0; by destruct (suspicious _)).
  revert Hinv0. generalize cm0. clear cm Hinv cm0.
  apply preserves_bind; [apply preserves_get|]. intros a.
  destruct (js_gt (js_or a (JNum 0)) 1000) as [[|]|]; [only_logs| |only_logs].
  apply preserves_bind; [apply preserves_incrementRateLimit|]. intros _. only_logs.
Qed.

Lemma invariant_cleanup cm : invariant cm → invariant (cleanup cm).
Proof.
  intros Hinv. unfold cleanup. cbn zeta. apply invariant_logger.
  assert (Hfold : ∀ l cm, invariant cm →
    invariant (foldl (λ cm cacheType,
                 match caches cm !! cacheType with
                 | Some c =>
                     let '(c', evs) := ExpiringMap.flushAll c in
                     recordHit cacheType Flushes
                       (emit cacheType evs (storeCache cacheType c' cm))
                 | None => cm
                 end) cm l)).
  { clear. induction l as [|x l IH]; intros cm Hinv; [done|].
    cbn [foldl]. apply IH. destruct (caches cm !! x) as [c|] eqn:Hc; [|done].
    cbn -[emit]. apply invariant_recordHit, invariant_emit.
    apply (invariant_storeCache _ c); [done|done|].
    intros c0. apply configured_flushAll. }
  destruct (Hfold cacheTypes cm Hinv) as [Hc Hs]. split; [done|].
  apply statsShape_reset. intros ct Hout. specialize (Hs ct).
  destruct (hitStats _ !! ct) as [s|]; [by destruct Hs|done].
Qed.

Lemma preserves_shutdown : preserves shutdown.
Proof.
  intros cm Hinv. unfold shutdown. cbn [fst]. apply invariant_logger.
  generalize cacheTypes. intros l. revert cm Hinv.
  induction l as [|x l IH]; intros cm Hinv; [done|].
  cbn [foldl]. apply IH, invariant_alter; [done|].
  intros c0 c. apply configured_close.
Qed.

Lemma preserves_void {A : Type} (m : M A) : preserves m → preserves (void m).
Proof. intros Hm. apply preserves_bind; [done|]. intros _. only_logs. Qed.

Lemma preserves_run call : preserves (run call).
Proof.
  destruct call; cbn [run].
  - apply preserves_void, preserves_get.
  - apply preserves_void, preserves_set.
  - apply preserves_void, preserves_del.
  - apply preserves_void, preserves_incrementRateLimit.
  - apply preserves_invalidateLeaderboards.
  - apply preserves_invalidatePattern.
  - only_logs.
  - apply preserves_warmCache_resume.
  - apply preserves_void, preserves_ipFilter.
  - intros cm Hinv. by apply invariant_cleanup.
  - apply preserves_shutdown.
  - intros cm Hinv. apply invariant_alter; [done|].
    intros c0 c. apply configured_sweep.
Qed.

Lemma constructor_caches ct :
  is_Some (caches constructor !! ct) ↔ ct ∈ cacheTypes.
Proof.
  assert (Hcs : caches constructor = list_to_map
     [("players", ExpiringMap.create 300 60 10000);
      ("leaderboards", ExpiringMap.create 600 120 100);
      ("statistics", ExpiringMap.create 900 180 200);
      ("achievements", ExpiringMap.create 1800 300 1000);
      ("sessions", ExpiringMap.create 180 30 5000);
      ("api", ExpiringMap.create 120 30 2000);
      ("blockchain", ExpiringMap.create 1200 240 500);
      ("rateLimit", ExpiringMap.create 3600 600 50000)]) by done.
  rewrite Hcs, <- not_eq_None_Some, <- not_elem_of_list_to_map.
  split; [|by intros ? ?].
  intros Hn. by destruct (decide (ct ∈ cacheTypes)).
Qed.

Lemma invariant_constructor : invariant constructor.
Proof.
  split.
  - intros ct. destruct (caches constructor !! ct) as [c0|] eqn:Hc; [|done].
    assert (Hall : map_Forall
              (λ _ c, Z.of_nat (size (ExpiringMap.entries c)) ≤ ExpiringMap.maxEntries c)
              (caches constructor)).
    { apply (bool_decide_eq_true_1 (map_Forall _ _)). vm_compute. reflexivity. }
    repeat split. by apply (Hall ct).
  - apply statsShape_reset. intros ct _. apply lookup_empty.
Qed.

Lemma reachable_invariant cm : reachable cm → invariant cm.
Proof.
  intros [calls ->]. generalize invariant_constructor. generalize constructor.
  induction calls as [|call calls IH]; intros cm Hinv; [done|].
  cbn [foldl]. by apply IH, preserves_run.
Qed.

End Invariant.

(** X19.  In every state the clients can reach, [this.caches] holds
    exactly the eight cache types of the literal, each with the default
    time to live, the capacity and the sweep interval it was created
    with: no call adds or drops a cache type or changes a setting. *)
Theorem reachable_keeps_the_configuration cm ct :
  reachable cm →
  (is_Some (caches cm !! ct) ↔ ct ∈ cacheTypes)
  ∧ ∀ c, caches cm !! ct = Some c →
      ∃ c0, caches constructor !! ct = Some c0
        ∧ ExpiringMap.defaultTTL c = ExpiringMap.defaultTTL c0
        ∧ ExpiringMap.maxEntries c = ExpiringMap.maxEntries c0
        ∧ ExpiringMap.sweepInterval c = ExpiringMap.sweepInterval c0.
Proof.
  intros [Hsh _]%reachable_invariant. specialize (Hsh ct).
  rewrite <- constructor_caches, <- !not_eq_None_Some. split.
  - destruct (caches constructor !! ct), (caches cm !! ct); try done; by split.
  - intros c Hc. rewrite Hc in Hsh.
    destruct (caches constructor !! ct) as [c0|]; [|done].
    destruct Hsh as (? & ? & ? & _). by exists c0.
Qed.

(** The [sessions] cache after a session was stored. *)
Lemma reachable_keeps_the_configuration_witness :
  let cm := (setSession 0 "s1" (JObj 1) (Some 1800) constructor).1 in
  ∃ c0, caches constructor !! "sessions" = Some c0
    ∧ ExpiringMap.defaultTTL (cacheOf "sessions" cm) = ExpiringMap.defaultTTL c0
    ∧ ExpiringMap.maxEntries (cacheOf "sessions" cm) = ExpiringMap.maxEntries c0
    ∧ ExpiringMap.sweepInterval (cacheOf "sessions" cm)
      = ExpiringMap.sweepInterval c0.
Proof.
  intros cm.
  destruct (reachable_keeps_the_configuration cm "sessions") as [_ Hkept].
  - by exists [CallSet 0 "sessions" "session:s1" (JObj 1) (Some 1800)].
  - apply (Hkept (cacheOf "sessions" cm)). reflexivity.
Defined.

(** X20.  In every state the clients can reach, no cache type holds
    more entries than its [maxKeys], and the key count [getStats]
    reports for it is that number of entries. *)
Theorem reachable_within_capacity cm ct c :
  reachable cm →
  caches cm !! ct = Some c →
  Z.of_nat (size (ExpiringMap.entries c)) ≤ ExpiringMap.maxEntries c
  ∧ ∃ report, getStats cm !! ct = Some report
      ∧ keys report = size (ExpiringMap.entries c).
Proof.
  intros Hr Hc. pose proof (reachable_invariant _ Hr) as [Hsh Hst].
  specialize (Hsh ct). specialize (Hst ct). rewrite Hc in Hsh.
  destruct (caches constructor !! ct) as [c0|] eqn:Hc0; [|done].
  destruct Hsh as (_ & _ & _ & Hsize). split; [done|].
  assert (Hin : ct ∈ cacheTypes).
  { apply (proj1 (constructor_caches ct)). by exists c0. }
  destruct (hitStats cm !! ct) as [hs|] eqn:Hs; [|done].
  rewrite (getStats_lookup _ _ _ _ Hin Hc Hs). eexists. split; [done|].
  cbn. unfold ExpiringMap.keys. by rewrite length_fmap, length_map_to_list.
Qed.

(** The [players] cache after one player was stored. *)
Lemma reachable_within_capacity_witness :
  let cm := (setPlayer 0 "0xabc" (JObj 1) None constructor).1 in
  ∃ report, getStats cm !! "players" = Some report
    ∧ keys report = size (ExpiringMap.entries (cacheOf "players" cm)).
Proof.
  apply (reachable_within_capacity
           (setPlayer 0 "0xabc" (JObj 1) None constructor).1 "players"
           (cacheOf "players" (setPlayer 0 "0xabc" (JObj 1) None constructor).1)).
  - by exists [CallSet 0 "players" "player:0xabc" (JObj 1) None].
  - reflexivity.
Defined.

(** X21.  In every state the clients can reach, [this.hitStats] holds
    counters for exactly the eight cache types, and none of them is
    negative. *)
Theorem reachable_counters cm ct :
  reachable cm →
  (is_Some (hitStats cm !! ct) ↔ ct ∈ cacheTypes)
  ∧ ∀ hs, hitStats cm !! ct = Some hs → nonNegative hs.
Proof.
  intros [_ Hst]%reachable_invariant. specialize (Hst ct).
  destruct (hitStats cm !! ct) as [hs|].
  - destruct Hst as [Hin Hnn]. split; [done|]. by intros ? [= <-].
  - split; [|done]. split; [by intros [? [=]]|done].
Qed.

(** The counters of [players] after a miss. *)
Lemma reachable_counters_witness :
  hitStats (get 0 "players" "player:a" constructor).1 !! "players"
    = Some (mkStats 0 1 0 0 0)
  ∧ nonNegative (mkStats 0 1 0 0 0).
Proof.
  split; [reflexivity|].
  destruct (reachable_counters (get 0 "players" "player:a" constructor).1 "players")
    as [_ Hnn].
  - by exists [CallGet 0 "players" "player:a"].
  - apply (Hnn (mkStats 0 1 0 0 0)). reflexivity.
Defined.










(* ===================================================================== *)
(** ** Two edge cases *)
(* ===================================================================== *)

(** X23.  Every key contains the empty pattern: on a configured cache
    type [invalidatePattern(cacheType, "")] removes every entry, and, as
    for any pattern, counts neither deletes nor a flush. *)
Theorem invalidatePattern_empty_pattern_clears cm ct c :
  caches cm !! ct = Some c →
  ∃ cm' c',
    invalidatePattern ct "" cm = (cm', Return ())
    ∧ caches cm' !! ct = Some c'
    ∧ ExpiringMap.entries c' = ∅
    ∧ hitStats cm' = hitStats cm.
Proof.
  intros Hc.
  destruct (invalidatePattern_own ct "" cm c Hc) as (cm' & Hrun & Hcs & Hhs).
  destruct (foldl_delDirect ct c
              (List.filter (λ key, includes key "") (ExpiringMap.keys c))
              cm Hc) as (c' & Hc' & He & _ & Hs & _).
  exists cm', c'. split; [done|]. split; [by rewrite Hcs|].
  split; [|by rewrite Hhs].
  apply map_empty. intros key. rewrite He. case_bool_decide as Hm; [done|].
  destruct (ExpiringMap.entries c !! key) as [e|] eqn:Hk; [|done].
  destruct Hm. apply elem_of_matchingKeys. split; [|by rewrite Hk].
  by exists "", key.
Qed.

(** The three keys of the [api] cache are all removed. *)
Lemma invalidatePattern_empty_pattern_clears_witness :
  ∃ cm' c',
    invalidatePattern "api" "" threeKeys = (cm', Return ())
    ∧ caches cm' !! "api" = Some c'
    ∧ ExpiringMap.entries c' = ∅
    ∧ hitStats cm' = hitStats threeKeys.
Proof.
  apply (invalidatePattern_empty_pattern_clears threeKeys "api"
           (cacheOf "api" threeKeys)).
  vm_compute. reflexivity.
Defined.

(** X24.  [undefined] can be stored but not read: on a configured
    cache type that has room for the key, [set] of [undefined] returns
    [true] and counts one set, and every later [get] of the key returns
    [null] like a miss. *)
Theorem set_undefined_reads_as_miss now later cm ct c hs key ttl :
  caches cm !! ct = Some c →
  hitStats cm !! ct = Some hs →
  (ExpiringMap.entries c !! key = None →
   Z.of_nat (size (ExpiringMap.entries c)) ≠ ExpiringMap.maxEntries c) →
  (set now ct key JUndefined ttl cm).2 = Return true
  ∧ hitStats (set now ct key JUndefined ttl cm).1 !! ct = Some (bump Sets hs)
  ∧ (get later ct key (set now ct key JUndefined ttl cm).1).2 = Return JNull.
Proof.
  intros Hc Hs Hroom. rewrite (set_own _ _ _ _ _ _ _ Hc).
  rewrite (ExpiringMap_set_success _ _ _ _ _ Hroom). cbn [fst snd].
  split; [done|]. split.
  - cbn. by rewrite lookup_alter_eq, Hs.
  - match goal with
    | |- (get _ _ _ ?cm1).2 = _ =>
        assert (Hc1 : ∃ c1, caches cm1 !! ct = Some c1
                  ∧ ∃ ex, ExpiringMap.entries c1 !! key
                          = Some (ExpiringMap.mkEntry JUndefined ex))
    end.
    { eexists. split; [apply lookup_insert_eq|]. cbn. eexists.
      apply lookup_insert_eq. }
    destruct Hc1 as (c1 & Hc1 & ex & He1).
    rewrite (get_result _ _ _ _ _ Hc1), He1. cbn. by destruct (ex <=? later).
Qed.

(** A player stored as [undefined]. *)
Lemma set_undefined_reads_as_miss_witness :
  (set 0 "players" "player:a" JUndefined None constructor).2 = Return true
  ∧ (get 1 "players" "player:a"
       (set 0 "players" "player:a" JUndefined None constructor).1).2 = Return JNull.
Proof.
  destruct (set_undefined_reads_as_miss 0 1 constructor "players"
              (ExpiringMap.create 300 60 10000) (mkStats 0 0 0 0 0)
              "player:a" None) as (Hset & _ & Hget).
  - reflexivity.
  - reflexivity.
  - intros _. unfold ExpiringMap.create.
    cbn [ExpiringMap.entries ExpiringMap.maxEntries]. rewrite map_size_empty. lia.
  - split; [exact Hset|exact Hget].
Defined.
